(** * avocado-vt: resource pools and qemu virtual images

    A shallow embedding of the lifecycle and topology engine of
    [virttest.vt_resmgr] and [virttest.vt_imgr]:

    - [Dict]: Python dictionaries that keep insertion order;
    - [Py]: values, exceptions, and the monad of state and exceptions;
    - [QemuVirImage]: [_QemuVirImage] of
      [vt_imgr/virtual_images/qemu/qemu_virtual_image.py], the chain
      state machine (add, remove, rebase, create, destroy);
    - [Doc]: configuration documents as objects on a heap, with
      [copy.deepcopy];
    - [ResourcePool]: [_ResourcePool] of [vt_resmgr/resources/pool.py];
    - [ImageManager]: [_VTImageManager.get_image_info] of
      [vt_imgr/vt_imgr.py];
    - [QemuVirImageConfig]: the configuration of a qemu virtual image
      defined from Cartesian parameters, and the object built on it;
    - [ResourcePoolObjects]: the construction of a pool and its table of
      resource objects; [LinuxBridgeNetwork]: the pool of
      [vt_resmgr/resources/network/tap/tap_network.py];
    - [ImageManagerQuery]: [_VTImageManager.query_image];
    - [FileVolume]: [_FileVolume.define_config_from_self] of
      [vt_resmgr/resources/storage/volume.py].

    The properties follow the models, one module of facts for each, with
    scenarios on concrete images, pools and documents. *)

From Stdlib Require Import ZArith Ascii.
From stdpp Require Import base option list strings gmap.


(** ** Insertion-ordered dictionaries

    [dict] and [collections.OrderedDict] with string keys: a key occurs at
    most once, assignment to a present key keeps its position, a new key
    goes last. *)
Module Dict.
Section dict.
Context {V : Type}.
Implicit Types (k : string) (v : V) (d : list (string * V)).

(** [d.get(k)] *)
Fixpoint get k d : option V :=
  match d with
  | [] => None
  | (k', v) :: d' => if decide (k = k') then Some v else get k d'
  end.

(** [k in d] *)
Definition mem k d : bool :=
  match get k d with Some _ => true | None => false end.

(** [d[k] = v] *)
Fixpoint set k v d : list (string * V) :=
  match d with
  | [] => [(k, v)]
  | (k', v') :: d' =>
      if decide (k = k') then (k, v) :: d' else (k', v') :: set k v d'
  end.

(** [del d[k]], the state part of [d.pop(k)] *)
Fixpoint del k d : list (string * V) :=
  match d with
  | [] => []
  | (k', v') :: d' =>
      if decide (k = k') then d' else (k', v') :: del k d'
  end.

Definition keys d : list string := d.*1.
Definition values d : list V := d.*2.
End dict.
End Dict.

Abbreviation dict V := (list (string * V)).

(** ** Python values and results: a value or an exception *)
Module Py.

(** A value: an atom, or a reference to a [dict] or [list] object. *)
Inductive value :=
  | VNone
  | VBool (b : bool)
  | VInt (n : Z)
  | VStr (s : string)
  | VRef (l : nat).

#[export] Instance value_eq_dec : EqDecision value.
Proof. solve_decision. Defined.

Definition is_ref (v : value) : bool :=
  match v with VRef _ => true | _ => false end.

(** The texts of the [ValueError]s, with the values they are formatted
    from. *)
Inductive value_error :=
  | UnknownTopology
  | AlreadyExisted (target : string)
  | NotASubset (node_names access : list string)
  | DoesNotExist (target : string)
  | MustHaveOneImage (target : string)
  | OnlyTopRemoved (names : list string)
  | UnknownState (target : string) (names : list string)
  | OnlyTopCreated (names : list string)
  | OnlyTopDestroyed (names : list string)
  | NotInList (x : string)
  | PoolCannotBeAccessed (node_names : list string) (pool : value)
  | Request (request : string).

Inductive runtime_error :=
  | NotReleased (target : string)
  | MutatedDuringIteration.

Inductive exn :=
  | KeyError (key : string)
  | IndexError
  | AttributeError
  | TypeError
  | RecursionError
  | ValueError (e : value_error)
  | RuntimeError (e : runtime_error)
  | NotFound (what : string)
  | Exception (out : string).

Inductive outcome (A : Type) :=
  | Ok (a : A)
  | Raise (e : exn).
Arguments Ok {A} a.
Arguments Raise {A} e.

Definition raised {A} (r : outcome A) : Prop :=
  match r with Ok _ => False | Raise _ => True end.

(** *** Computations that can raise

    A computation runs on a state [S]. An exception leaves the state as
    it is at the [raise]: nothing is rolled back. *)
Definition M (S A : Type) : Type := S → outcome A * S.

Section monad.
Context {S : Type}.

Definition ret {A} (a : A) : M S A := λ st, (Ok a, st).
Definition raise {A} (e : exn) : M S A := λ st, (Raise e, st).
Definition bind {A B} (m : M S A) (k : A → M S B) : M S B :=
  λ st, match m st with
        | (Ok a, st') => k a st'
        | (Raise e, st') => (Raise e, st')
        end.

Definition get_state : M S S := λ st, (Ok st, st).
Definition put_state (st : S) : M S unit := λ _, (Ok tt, st).
Definition gets {A} (f : S → A) : M S A := λ st, (Ok (f st), st).
Definition modify (f : S → S) : M S unit := λ st, (Ok tt, f st).

(** [x] when it is there, else the exception. *)
Definition expect {A} (o : option A) (e : exn) : M S A :=
  match o with Some a => ret a | None => raise e end.

(** [for x in xs: body(x)] *)
Fixpoint for_each {A} (xs : list A) (body : A → M S unit) : M S unit :=
  match xs with
  | [] => ret tt
  | x :: xs' => bind (body x) (λ _, for_each xs' body)
  end.

Fixpoint map_each {A B} (xs : list A) (body : A → M S B) : M S (list B) :=
  match xs with
  | [] => ret []
  | x :: xs' =>
      bind (body x) (λ y, bind (map_each xs' body) (λ ys, ret (y :: ys)))
  end.
End monad.

Declare Scope py_scope.
Delimit Scope py_scope with py.
Notation "x <- m ;; k" := (bind m (λ x, k))
  (at level 100, m at next level, right associativity) : py_scope.
Notation "m ;; k" := (bind m (λ _, k))
  (at level 100, right associativity) : py_scope.

End Py.

(** ** The qemu virtual image *)
Module QemuVirImage.
Export Py.
Open Scope py_scope.

(** *** Data *)

(** Cartesian parameters, read with [params.get(key, default)]. *)
Definition params := dict string.

(** The handler arguments, a Python dict with these optional keys. *)
Record arguments := mk_arguments {
  arg_target : option string;
  arg_target_params : option params;
  arg_backing_chain : option bool;
  arg_nodes : option (list string);
  arg_source : option string;
}.

Definition no_arguments : arguments := mk_arguments None None None None None.

(** [{"meta": {"name", "pool"}, ...}] of a volume, before the object
    exists. *)
Record volume_config := mk_volume_config {
  vc_name : string;
  vc_pool : string;
}.

(** The configuration of a lower-level image ([_QemuImage]): [meta.name],
    [spec.format], [spec.backing], and [spec.volume_config] until
    [create_object] replaces it by [spec.volume]. *)
Record qemu_image := mk_qemu_image {
  meta_name : string;
  format : string;
  backing : option string;
  volume_config_of : option volume_config;
  volume_id : option nat;
}.

(** The upper-level image: [meta.name], [meta.topology],
    [spec.images] and the [OrderedDict] of layer objects [self.images].
    A layer object keeps the configuration it was built from as its
    [_config]; the object is identified with that configuration. *)
Record vir_image := mk_vir_image {
  name : string;
  topology : gmap string (list string);
  spec_images : dict qemu_image;
  images : dict qemu_image;
}.

(** The update commands of a resource. *)
Inductive command := Bind | Unbind | Allocate | Release | Sync.

(** A volume object: [meta.pool], [meta.allocated], the nodes of
    [meta.bindings]. *)
Record volume := mk_volume {
  vol_pool : string;
  vol_allocated : bool;
  vol_bindings : list string;
}.

(** Calls that leave the image object. *)
Inductive event :=
  | CreateResource (v : nat)
  | UpdateResource (v : nat) (cmd : command)
  | DestroyResource (v : nat)
  | UpdateImage (node cmd : string) (args : arguments).

(** The image object together with the resource manager: the attaching
    nodes of each pool, the volume objects, the next fresh uuid, and the
    calls made so far, oldest first. *)
Record state := mk_state {
  self : vir_image;
  pools : gmap string (list string);
  volumes : gmap nat volume;
  next_uuid : nat;
  trace : list event;
}.

(** Computations on the image and the resource manager. *)
Abbreviation M := (Py.M state).

(** Field updates. *)
Definition with_self (f : vir_image → vir_image) (st : state) : state :=
  mk_state (f (self st)) (pools st) (volumes st) (next_uuid st) (trace st).
Definition with_volumes (f : gmap nat volume → gmap nat volume)
    (st : state) : state :=
  mk_state (self st) (pools st) (f (volumes st)) (next_uuid st) (trace st).
Definition record (ev : event) (st : state) : state :=
  mk_state (self st) (pools st) (volumes st) (next_uuid st)
    (trace st ++ [ev]).

Definition set_name (n : string) (i : vir_image) : vir_image :=
  mk_vir_image n (topology i) (spec_images i) (images i).
Definition set_topology (t : gmap string (list string)) (i : vir_image)
    : vir_image :=
  mk_vir_image (name i) t (spec_images i) (images i).
Definition set_spec_images (d : dict qemu_image) (i : vir_image)
    : vir_image :=
  mk_vir_image (name i) (topology i) d (images i).
Definition set_images (d : dict qemu_image) (i : vir_image) : vir_image :=
  mk_vir_image (name i) (topology i) (spec_images i) d.

Definition set_backing (b : option string) (c : qemu_image) : qemu_image :=
  mk_qemu_image (meta_name c) (format c) b (volume_config_of c)
    (volume_id c).
Definition set_volume (v : nat) (c : qemu_image) : qemu_image :=
  mk_qemu_image (meta_name c) (format c) (backing c) None (Some v).

Definition set_allocated (b : bool) (v : volume) : volume :=
  mk_volume (vol_pool v) b (vol_bindings v).
Definition set_bindings (ns : list string) (v : volume) : volume :=
  mk_volume (vol_pool v) (vol_allocated v) ns.


(** *** Collaborators

    Code of the cluster outside the image: which image formats have a
    class, which pool the resource manager selects for a volume, which
    nodes a [bind] without [nodes] binds, and what the per-node agents
    answer, as [(status, out)], to a resource command and to
    [node.proxy.image.update_image]. The agents see the whole state at
    the call. *)
Class Cluster := {
  get_qemu_image_class : string → bool;
  select_pool : state → params → option string;
  bind_nodes : state → nat → list string;
  backing_agent : state → command → nat → Z * string;
  image_agent : state → string → string → arguments → Z * string;
}.

Section operations.
Context {cluster : Cluster}.

(** *** The resource manager *)

(** Modelled from the spec: [resmgr.define_resource_config], missing from
    the sources. A pool that meets the request is selected and the
    configuration is stamped with it ([meta.pool]). *)
Definition define_resource_config (resource_name : string) (p : params)
    : M volume_config :=
  st <- get_state ;;
  pool <- expect (select_pool st p) (NotFound "pool") ;;
  ret (mk_volume_config resource_name pool).

(** Modelled from the spec: [resmgr.create_resource_object], missing from
    the sources. The object is registered under a fresh uuid, not
    allocated, bound to no node. *)
Definition create_resource_object (c : volume_config) : M nat :=
  st <- get_state ;;
  _ <- expect (pools st !! vc_pool c) (NotFound "pool") ;;
  let v := next_uuid st in
  modify (λ st,
    record (CreateResource v)
      (mk_state (self st) (pools st)
         (<[v := mk_volume (vc_pool c) false []]> (volumes st))
         (S v) (trace st))) ;;
  ret v.

(** Modelled from the spec: the handlers of a volume, abstract in
    [resource.py] and [volume.py]. [bind] and [unbind] record and remove
    nodes in [bindings], one binding per node; [allocate] and [release]
    ask the agent and, on status 0, mark [allocated] true and false; a
    non-zero status raises with the agent's text. *)
Definition handler (cmd : command) (v : nat) (a : arguments) : M unit :=
  st <- get_state ;;
  vol <- expect (volumes st !! v) (NotFound "resource") ;;
  match cmd with
  | Bind =>
      let nodes := default (bind_nodes st v) (arg_nodes a) in
      modify (with_volumes
        (<[v := set_bindings (remove_dups (vol_bindings vol ++ nodes)) vol]>))
  | Unbind =>
      let nodes := default (vol_bindings vol) (arg_nodes a) in
      modify (with_volumes
        (<[v := set_bindings (list_difference (vol_bindings vol) nodes) vol]>))
  | Allocate =>
      let '(r, out) := backing_agent st Allocate v in
      if decide (r = 0%Z)
      then modify (with_volumes (<[v := set_allocated true vol]>))
      else raise (Exception out)
  | Release =>
      let '(r, out) := backing_agent st Release v in
      if decide (r = 0%Z)
      then modify (with_volumes (<[v := set_allocated false vol]>))
      else raise (Exception out)
  | Sync => ret tt
  end.

(** [resmgr.update_resource(v, {cmd: a})]: the registry finds the
    resource and its pool (modelled from the spec), then
    [_ResourcePool.update_resource] checks the nodes and calls the
    handler. *)
Definition update_resource (v : nat) (cmd : command) (a : arguments)
    : M unit :=
  st <- get_state ;;
  vol <- expect (volumes st !! v) (NotFound "resource") ;;
  attaching <- expect (pools st !! vol_pool vol) (NotFound "pool") ;;
  match arg_nodes a with
  | Some (n :: ns) =>
      if bool_decide (n :: ns ⊆ attaching) then ret tt
      else raise (ValueError
             (PoolCannotBeAccessed (n :: ns) (VStr (vol_pool vol))))
  | _ => ret tt
  end ;;
  modify (record (UpdateResource v cmd)) ;;
  handler cmd v a.

(** Modelled from the spec: [resmgr.destroy_resource_object], missing
    from the sources. *)
Definition destroy_resource_object (v : nat) : M unit :=
  st <- get_state ;;
  _ <- expect (volumes st !! v) (NotFound "resource") ;;
  modify (λ st, record (DestroyResource v) (with_volumes (delete v) st)).

(** [node.proxy.image.update_image(self.get_image_info(verbose=True),
    {cmd: a})] followed by [if r != 0: raise Exception(o["out"])]. *)
Definition update_image (node cmd : string) (a : arguments) : M unit :=
  st <- get_state ;;
  let '(r, out) := image_agent st node cmd a in
  modify (record (UpdateImage node cmd a)) ;;
  if decide (r = 0%Z) then ret tt else raise (Exception out).

(** *** Lower-level images ([_QemuImage], [qemu_image.py]) *)

(** Modelled from the spec: [_Image.volume_id] is [spec.volume]. *)
Definition layer_volume_id (image : qemu_image) : M nat :=
  expect (volume_id image) (KeyError "volume").

(** Modelled from the spec: [_Image.volume_allocated] is the [allocated]
    mark of the layer's volume. *)
Definition volume_allocated (image : qemu_image) : M bool :=
  v <- layer_volume_id image ;;
  st <- get_state ;;
  vol <- expect (volumes st !! v) (NotFound "resource") ;;
  ret (vol_allocated vol).

(** Modelled from the spec: [_Image.image_access_nodes], the nodes the
    layer's volume is bound to. *)
Definition layer_access_nodes (image : qemu_image) : M (list string) :=
  v <- layer_volume_id image ;;
  st <- get_state ;;
  vol <- expect (volumes st !! v) (NotFound "resource") ;;
  ret (vol_bindings vol).

(** [_QemuImage.create] and [allocate_volume] *)
Definition layer_create (image : qemu_image) (a : arguments) : M unit :=
  v <- layer_volume_id image ;;
  update_resource v Allocate a.

(** [_QemuImage.destroy] and [release_volume] *)
Definition layer_destroy (image : qemu_image) (a : arguments) : M unit :=
  v <- layer_volume_id image ;;
  update_resource v Release a.

(** [_QemuImage.destroy_object] *)
Definition layer_destroy_object (image : qemu_image) : M unit :=
  v <- layer_volume_id image ;;
  update_resource v Unbind no_arguments ;;
  v <- layer_volume_id image ;;
  destroy_resource_object v.

(** [_QemuImage._define_config_legacy]; the configuration of the base
    class (modelled from the spec: [meta.name] and [spec.format]) with
    [backing: None] and the volume's configuration. *)
Definition define_config (image_format image_name : string) (p : params)
    : M qemu_image :=
  vc <- define_resource_config image_name p ;;
  ret (mk_qemu_image image_name image_format None (Some vc) None).

(** *** The upper-level image ([_QemuVirImage]) *)

Definition update_self (f : vir_image → vir_image) : M unit :=
  modify (with_self f).

(** [define_image_config]: the class of the format defines the
    configuration; without a class, [None.define_config] fails. *)
Definition define_image_config (image_name : string) (p : params)
    : M qemu_image :=
  let image_format := default "qcow2" (Dict.get "image_format" p) in
  if get_qemu_image_class image_format
  then define_config image_format image_name p
  else raise AttributeError.

(** [image_access_nodes]: the nodes of all layers, each once. Python
    leaves the order of [list(node_set)] open; the order of first
    occurrence stands for it. *)
Definition image_access_nodes : M (list string) :=
  st <- get_state ;;
  nodes <- map_each (Dict.values (images (self st))) layer_access_nodes ;;
  ret (remove_dups (concat nodes)).

(** The key of the topology that [image_names] reads. *)
Definition topology_key (t : gmap string (list string)) : option string :=
  if decide (is_Some (t !! "none")) then Some "none"
  else if decide (is_Some (t !! "chain")) then Some "chain"
  else None.

(** [image_names] *)
Definition image_names : M (list string) :=
  st <- get_state ;;
  match topology_key (topology (self st)) with
  | Some k => ret (default [] (topology (self st) !! k))
  | None => raise (ValueError UnknownTopology)
  end.

(** [self.image_names[-1]] *)
Definition top_name : M string :=
  names <- image_names ;;
  expect (last names) IndexError.

(** [self.image_names.append(target)]: the list inside the topology
    grows in place. *)
Definition image_names_append (target : string) : M unit :=
  names <- image_names ;;
  st <- get_state ;;
  match topology_key (topology (self st)) with
  | Some k =>
      update_self (λ i, set_topology (<[k := (names ++ [target])%list]> (topology i)) i)
  | None => raise (ValueError UnknownTopology)
  end.

(** [l.remove(x)] on a list: the first occurrence goes. *)
Fixpoint list_remove_first (x : string) (l : list string)
    : option (list string) :=
  match l with
  | [] => None
  | y :: l' =>
      if decide (x = y) then Some l'
      else cons y <$> list_remove_first x l'
  end.

(** [self.image_names.remove(target)] *)
Definition image_names_remove (target : string) : M unit :=
  names <- image_names ;;
  names' <- expect (list_remove_first target names)
              (ValueError (NotInList target)) ;;
  st <- get_state ;;
  match topology_key (topology (self st)) with
  | Some k => update_self (λ i, set_topology (<[k := names']> (topology i)) i)
  | None => raise (ValueError UnknownTopology)
  end.

(** [topology[to] = topology.pop(from)] *)
Definition topology_move (from to : string) : M unit :=
  st <- get_state ;;
  names <- expect (topology (self st) !! from) (KeyError from) ;;
  update_self (λ i, set_topology (<[to := names]> (delete from (topology i))) i).

(** [if "none" in topology: topology["chain"] = topology.pop("none")] *)
Definition none_to_chain : M unit :=
  st <- get_state ;;
  if decide (is_Some (topology (self st) !! "none"))
  then topology_move "none" "chain"
  else ret tt.

(** [_create_image_object]: the object is built on the configuration
    stored under [spec.images], which [create_object] changes in place:
    [volume_config] is popped, then [volume] is set. *)
Definition _create_image_object (image_name : string) : M qemu_image :=
  st <- get_state ;;
  config <- expect (Dict.get image_name (spec_images (self st)))
              (KeyError image_name) ;;
  if get_qemu_image_class (format config) then
    vc <- expect (volume_config_of config) (KeyError "volume_config") ;;
    let popped :=
      mk_qemu_image (meta_name config) (format config)
        (backing config) None (volume_id config) in
    update_self (λ i, set_spec_images (Dict.set image_name popped (spec_images i)) i) ;;
    v <- create_resource_object vc ;;
    update_resource v Bind no_arguments ;;
    let image := set_volume v popped in
    update_self (λ i, set_spec_images (Dict.set image_name image (spec_images i)) i) ;;
    ret image
  else raise TypeError.

(** [create_object] *)
Definition create_object : M unit :=
  names <- image_names ;;
  for_each names (λ image_name,
    image <- _create_image_object image_name ;;
    update_self (λ i, set_images (Dict.set image_name image (images i)) i)).

(** [destroy_image_object] *)
Definition destroy_image_object (image_name : string) : M unit :=
  st <- get_state ;;
  image <- expect (Dict.get image_name (images (self st))) (KeyError image_name) ;;
  update_self (λ i, set_images (Dict.del image_name (images i)) i) ;;
  layer_destroy_object image.

(** [for image_name in self.images: self.destroy_image_object(image_name)].
    The iterator of an [OrderedDict] moves to the next key before the body
    runs. After the first [pop] the next step finds the dictionary mutated
    and raises [RuntimeError], unless there was no next key. *)
Definition destroy_remaining : M unit :=
  st <- get_state ;;
  match Dict.keys (images (self st)) with
  | [] => ret tt
  | [image_name] => destroy_image_object image_name
  | image_name :: _ :: _ =>
      destroy_image_object image_name ;;
      raise (RuntimeError MutatedDuringIteration)
  end.

(** [destroy_object] *)
Definition destroy_object : M unit :=
  names <- image_names ;;
  for_each (reverse names) destroy_image_object ;;
  destroy_remaining.

(** [add_image_object] *)
Definition add_image_object (a : arguments) : M unit :=
  target <- expect (arg_target a) (KeyError "target") ;;
  target_image_params <- expect (arg_target_params a) (KeyError "target_params") ;;
  let backing_chain := default false (arg_backing_chain a) in
  node_names <- match arg_nodes a with
                | Some (n :: ns) => ret (n :: ns)
                | _ => image_access_nodes
                end ;;
  st <- get_state ;;
  if Dict.mem target (images (self st))
  then raise (ValueError (AlreadyExisted target))
  else
    access <- image_access_nodes ;;
    if negb (bool_decide (node_names ⊆ access))
    then raise (ValueError (NotASubset node_names access))
    else
      config <- define_image_config target target_image_params ;;
      config <- (if backing_chain then
                   top <- top_name ;;
                   image_names_append target ;;
                   update_self (set_name target) ;;
                   none_to_chain ;;
                   ret (set_backing (Some top) config)
                 else ret config) ;;
      update_self (λ i, set_spec_images (Dict.set target config (spec_images i)) i) ;;
      image <- _create_image_object target ;;
      update_self (λ i, set_images (Dict.set target image (images i)) i).

(** [remove_image_object] *)
Definition remove_image_object (a : arguments) : M unit :=
  target <- expect (arg_target a) (KeyError "target") ;;
  st <- get_state ;;
  if negb (Dict.mem target (images (self st)))
  then raise (ValueError (DoesNotExist target))
  else if decide (length (images (self st)) = 1)
  then raise (ValueError (MustHaveOneImage target))
  else
    names <- image_names ;;
    (if bool_decide (target ∈ names) then
       not_top <- (if decide (is_Some (topology (self st) !! "chain"))
                   then top <- top_name ;; ret (bool_decide (target ≠ top))
                   else ret false) ;;
       if not_top : bool
       then raise (ValueError (OnlyTopRemoved names))
       else if decide (is_Some (topology (self st) !! "none"))
       then raise (ValueError (UnknownState target names))
       else ret tt
     else ret tt) ;;
    image <- expect (Dict.get target (images (self st))) (KeyError target) ;;
    update_self (λ i, set_images (Dict.del target (images i)) i) ;;
    allocated <- volume_allocated image ;;
    if allocated : bool
    then raise (RuntimeError (NotReleased target))
    else
      layer_destroy_object image ;;
      names <- image_names ;;
      if bool_decide (target ∈ names) then
        image_names_remove target ;;
        top <- top_name ;;
        update_self (set_name top) ;;
        names <- image_names ;;
        if decide (length names < 2)
        then topology_move "chain" "none"
        else ret tt
      else ret tt.

(** [if target in self.image_names: if target != self.image_names[-1]:
    raise ValueError(...)], shared by [create] and [destroy] *)
Definition check_top (target : option string)
    (e : list string → value_error) : M unit :=
  names <- image_names ;;
  match target with
  | Some t =>
      if bool_decide (t ∈ names) then
        top <- top_name ;;
        if decide (t ≠ top) then raise (ValueError (e names)) else ret tt
      else ret tt
  | None => ret tt
  end.

(** [[target] if target else rest]: [None] and the empty string are
    false. *)
Definition target_or (target : option string) (rest : M (list string))
    : M (list string) :=
  match target with
  | Some t => if decide (t = "") then rest else ret [t]
  | None => rest
  end.

(** [self.images[image_tag]] *)
Definition layer (image_tag : string) : M qemu_image :=
  st <- get_state ;;
  expect (Dict.get image_tag (images (self st))) (KeyError image_tag).

(** [create] *)
Definition create (a : arguments) : M unit :=
  access <- image_access_nodes ;;
  node_name <- expect (head access) IndexError ;;
  let target := arg_target a in
  check_top target OnlyTopCreated ;;
  image_tags <- target_or target image_names ;;
  for_each image_tags (λ image_tag,
    image <- layer image_tag ;;
    layer_create image a) ;;
  update_image node_name "create" a.

(** [destroy] *)
Definition destroy (a : arguments) : M unit :=
  let target := arg_target a in
  let a := mk_arguments None (arg_target_params a) (arg_backing_chain a)
             (arg_nodes a) (arg_source a) in
  check_top target OnlyTopDestroyed ;;
  image_tags <- target_or target (gets (λ st, Dict.keys (images (self st)))) ;;
  for_each image_tags (λ image_tag,
    image <- layer image_tag ;;
    layer_destroy image a).

(** [config["spec"]["backing"] = backing] on the configuration under
    [spec.images]; the layer object built on it sees the change. *)
Definition set_layer_backing (target backing : string) : M unit :=
  st <- get_state ;;
  config <- expect (Dict.get target (spec_images (self st))) (KeyError target) ;;
  update_self (λ i,
    set_images
      (if Dict.mem target (images i)
       then Dict.set target (set_backing (Some backing) config) (images i)
       else images i)
      (set_spec_images
         (Dict.set target (set_backing (Some backing) config) (spec_images i)) i)).

(** [qemu_img_rebase] *)
Definition qemu_img_rebase (a : arguments) : M unit :=
  let target := arg_target a in
  backing <- top_name ;;
  t <- expect (arg_target a) (KeyError "target") ;;
  target_params <- expect (arg_target_params a) (KeyError "target_params") ;;
  let add_args := mk_arguments (Some t) (Some target_params) None (arg_nodes a) None in
  let a := mk_arguments target None (arg_backing_chain a) None (Some backing) in
  add_image_object add_args ;;
  create (mk_arguments target None None None None) ;;
  access <- image_access_nodes ;;
  node_name <- expect (head access) IndexError ;;
  update_image node_name "rebase" a ;;
  update_self (set_name t) ;;
  image_names_append t ;;
  none_to_chain ;;
  set_layer_backing t backing.


End operations.
End QemuVirImage.

(** ** Configuration documents on the heap *)
Module Doc.
Export Py.
Open Scope py_scope.

(** A [dict] with string keys, or a [list]. *)
Inductive object :=
  | ODict (items : dict value)
  | OList (items : list value).

(** The heap: the object at each address. Objects are never freed. *)
Abbreviation heap := (list object).

(** The values an object holds. *)
Definition obj_values (o : object) : list value :=
  match o with
  | ODict items => items.*2
  | OList items => items
  end.

(** A new object. *)
Definition alloc (o : object) : M heap value :=
  λ h, (Ok (VRef (length h)), (h ++ [o])%list).

(** [copy.deepcopy]: atoms are returned as they are, a [dict] or a
    [list] becomes a new object that holds the copies of its values. The
    copy recurses through the document, down to Python's recursion limit.
    The memo of [copy.deepcopy] is left out: it changes which new objects
    are shared inside the copy, never what the copy holds nor that all
    its objects are new. *)
Fixpoint copy_all (copy : value → heap → option (value * heap))
    (vs : list value) (h : heap) : option (list value * heap) :=
  match vs with
  | [] => Some ([], h)
  | v :: vs' =>
      '(v', h1) ← copy v h;
      '(vs'', h2) ← copy_all copy vs' h1;
      Some (v' :: vs'', h2)
  end.

(** The object with other values in the same places. *)
Definition with_values (o : object) (vs : list value) : object :=
  match o with
  | ODict items => ODict (zip items.*1 vs)
  | OList _ => OList vs
  end.

Fixpoint deepcopy (limit : nat) (v : value) (h : heap)
    : option (value * heap) :=
  match v with
  | VRef l =>
      match limit with
      | 0 => None
      | S limit' =>
          o ← h !! l;
          '(vs, h') ← copy_all (deepcopy limit') (obj_values o) h;
          Some (VRef (length h'), (h' ++ [with_values o vs])%list)
      end
  | _ => Some (v, h)
  end.

(** [copy.deepcopy(v)]; past the recursion limit it raises. *)
Definition deepcopy_m (limit : nat) (v : value) : M heap value :=
  λ h, match deepcopy limit v h with
       | Some (v', h') => (Ok v', h')
       | None => (Raise RecursionError, h)
       end.

(** The object a value refers to. *)
Definition deref (h : heap) (v : value) : option object :=
  match v with VRef l => h !! l | _ => None end.

(** [v[key]] with a string key: only a [dict] can be subscripted by it. *)
Definition getitem (v : value) (key : string) : M heap value :=
  λ h, (match deref h v with
        | Some (ODict items) =>
            match Dict.get key items with
            | Some x => Ok x
            | None => Raise (KeyError key)
            end
        | _ => Raise TypeError
        end, h).

(** [v.get(key)]: [None] when the key is absent. *)
Definition get (v : value) (key : string) : M heap value :=
  λ h, (match deref h v with
        | Some (ODict items) => Ok (default VNone (Dict.get key items))
        | _ => Raise AttributeError
        end, h).

(** [v[key] = x] with a string key *)
Definition setitem (v : value) (key : string) (x : value) : M heap unit :=
  λ h, match v, deref h v with
       | VRef l, Some (ODict items) =>
           (Ok tt, <[l := ODict (Dict.set key x items)]> h)
       | _, _ => (Raise TypeError, h)
       end.

(** [s1 in s2] on strings *)
Fixpoint infix (s1 s2 : string) : bool :=
  if String.prefix s1 s2 then true
  else match s2 with
       | EmptyString => false
       | String _ s2' => infix s1 s2'
       end.

(** [item in v] with [item] a string: a key of a [dict], an element of a
    [list], a part of a string; other values are not containers. *)
Definition contains (item : string) (v : value) : M heap bool :=
  λ h, (match v with
        | VStr s => Ok (infix item s)
        | _ =>
            match deref h v with
            | Some (ODict items) => Ok (Dict.mem item items)
            | Some (OList items) => Ok (bool_decide (VStr item ∈ items))
            | None => Raise TypeError
            end
        end, h).

(** The elements [set(v)] is built from: of a [list] its elements, of a
    [dict] its keys, of a string its characters; objects are not
    hashable. *)
Definition to_set (v : value) : M heap (list value) :=
  λ h, (match v with
        | VStr s =>
            Ok ((λ c, VStr (String c EmptyString)) <$> String.list_ascii_of_string s)
        | _ =>
            match deref h v with
            | Some (ODict items) => Ok (VStr <$> items.*1)
            | Some (OList items) =>
                if existsb is_ref items then Raise TypeError else Ok items
            | None => Raise TypeError
            end
        end, h).

(** [s.split(sep)] *)
Fixpoint split_on (sep : Ascii.ascii) (s : string) : list string :=
  match s with
  | EmptyString => [EmptyString]
  | String c s' =>
      if decide (c = sep) then EmptyString :: split_on sep s'
      else match split_on sep s' with
           | x :: xs => String c x :: xs
           | [] => [String c EmptyString]
           end
  end.

End Doc.

(** ** The resource pool ([_ResourcePool], [pool.py]) *)
Module ResourcePool.
Export Doc.

(** A resource object, by its configuration [_config]. *)
Record resource := mk_resource {
  resource_config : value;
}.

(** The arguments of a command: the [nodes] list when there is one, and
    the other entries. *)
Record arguments := mk_arguments {
  arg_nodes : option (list string);
  arg_options : dict value;
}.

(** The pool object: its configuration [_config] and its table of
    resources; the heap the configurations live on; and the world of the
    worker nodes the handlers act on. *)
Record state {World : Type} := mk_state {
  heap : Doc.heap;
  pool_config : value;
  resources : dict resource;
  world : World;
}.
Arguments state World : clear implicits.

(** The resource classes and the interpreter: the handler a resource has
    for a command ([_handlers.get], abstract methods in [resource.py]),
    and the recursion limit. *)
Class Runtime (World : Type) := {
  get_update_handler :
    resource → string → option (arguments → M (state World) value);
  recursion_limit : nat;
}.

Section pool.
Context {World : Type} {runtime : Runtime World}.

Definition on_heap {A} (m : M Doc.heap A) : M (state World) A :=
  λ st, let '(r, h) := m (heap st) in
        (r, mk_state World h (pool_config st) (resources st) (world st)).

(** [pool_meta] *)
Definition pool_meta : M (state World) value :=
  st <- get_state ;;
  on_heap (getitem (pool_config st) "meta").

(** [pool_id] *)
Definition pool_id : M (state World) value :=
  meta <- pool_meta ;;
  on_heap (getitem meta "uuid").

(** [attaching_nodes] *)
Definition attaching_nodes : M (state World) value :=
  meta <- pool_meta ;;
  access <- on_heap (getitem meta "access") ;;
  on_heap (get access "nodes").

(** [update_resource]; [config] is [{command: arguments}], and
    [popitem] takes its last entry. *)
Definition update_resource (resource_id : string) (config : dict arguments)
    : M (state World) value :=
  st <- get_state ;;
  let resource := Dict.get resource_id (resources st) in
  item <- expect (last config) (KeyError "popitem") ;;
  let '(cmd, arguments) := item in
  match arg_nodes arguments with
  | Some (n :: ns) =>
      attaching <- attaching_nodes ;;
      attaching_set <- on_heap (to_set attaching) ;;
      if bool_decide (VStr <$> n :: ns ⊆ attaching_set) then ret tt
      else
        pool <- pool_id ;;
        raise (ValueError (PoolCannotBeAccessed (n :: ns) pool))
  | _ => ret tt
  end ;;
  resource <- expect resource AttributeError ;;
  handler <- expect (get_update_handler resource cmd) TypeError ;;
  handler arguments.

(** [get_resource_info] *)
Definition get_resource_info (resource_id : string) (verbose : bool)
    : M (state World) value :=
  st <- get_state ;;
  resource <- expect (Dict.get resource_id (resources st)) AttributeError ;;
  config <- on_heap (deepcopy_m recursion_limit (resource_config resource)) ;;
  (if verbose then
     pool <- on_heap (deepcopy_m recursion_limit (pool_config st)) ;;
     meta <- on_heap (getitem config "meta") ;;
     on_heap (setitem meta "pool" pool)
   else ret tt) ;;
  ret config.

End pool.
End ResourcePool.

(** ** The image manager ([_VTImageManager], [vt_imgr.py]) *)
Module ImageManager.
Export Doc.

(** An upper-level image object ([_VirImage]): its configuration and the
    configurations of its layer objects, in the order of [self.images]. *)
Record vir_image := mk_vir_image {
  image_config : value;
  images : list value;
}.

(** The manager's table [_images] and the heap. *)
Record state := mk_state {
  heap : Doc.heap;
  registry : dict vir_image;
}.

(** [_Image.get_info(verbose=True)] of a layer object, missing from the
    sources, and the recursion limit. *)
Class Runtime := {
  get_info : value → M Doc.heap value;
  recursion_limit : nat;
}.

Section manager.
Context {runtime : Runtime}.

Definition on_heap {A} (m : M Doc.heap A) : M state A :=
  λ st, let '(r, h) := m (heap st) in (r, mk_state h (registry st)).

(** [image.image_name], a string *)
Definition image_name (layer : value) : M Doc.heap string :=
  meta <- getitem layer "meta" ;;
  image_name <- getitem meta "name" ;;
  match image_name with
  | VStr s => ret s
  | _ => raise TypeError
  end.

(** [_VirImage.get_image_info] *)
Definition image_get_image_info (image : vir_image) (verbose : bool)
    : M Doc.heap value :=
  config <- deepcopy_m recursion_limit (image_config image) ;;
  (if verbose then
     spec <- getitem config "spec" ;;
     images_config <- getitem spec "images" ;;
     for_each (images image) (λ layer,
       info <- get_info layer ;;
       key <- image_name layer ;;
       setitem images_config key info)
   else ret tt) ;;
  ret config.

(** [for item in request.split("."): ...]: one level down for each item
    that the current level contains. *)
Fixpoint descend (request : string) (items : list string) (config : value)
    : M Doc.heap value :=
  match items with
  | [] => ret config
  | item :: items' =>
      found <- contains item config ;;
      if found : bool then
        config <- getitem config item ;;
        descend request items' config
      else raise (ValueError (Request request))
  end.

(** [get_image_info]; after the loop [item] is the last item of the
    request. *)
Definition get_image_info (image_id : string) (request : option string)
    (verbose : bool) : M state value :=
  st <- get_state ;;
  image <- expect (Dict.get image_id (registry st)) AttributeError ;;
  config <- on_heap (image_get_image_info image verbose) ;;
  match request with
  | None => ret config
  | Some request =>
      let items := split_on "."%char request in
      config <- on_heap (descend request items config) ;;
      on_heap (alloc (ODict [(default "" (last items), config)]))
  end.

End manager.
End ImageManager.

(** ** Defining a qemu virtual image from Cartesian parameters *)
Module QemuVirImageConfig.
Export QemuVirImage.

(** Avocado's [Params], outside the sources of the repository: the
    parameters as one object sees them, and a parameter read as a list of
    names. *)
Class Params := {
  object_params : params → string → params;
  objects : params → string → list string;
}.

Section config.
Context {cluster : Cluster} {cartesian : Params}.

(** [_define_topo_chain_config]: the loop over [image_chain], with
    [backing] and the dictionary [images] it fills. *)
Fixpoint _define_topo_chain_config (p : params) (image_chain : list string)
    (backing : option string) (images : dict qemu_image)
    : M (dict qemu_image) :=
  match image_chain with
  | [] => ret images
  | image_tag :: image_chain' =>
      let image_params := object_params p image_tag in
      config <- define_image_config image_tag image_params ;;
      let config :=
        match backing with
        | Some b => set_backing (Some b) config
        | None => config
        end in
      _define_topo_chain_config p image_chain' (Some image_tag)
        (Dict.set image_tag config images)
  end.

(** [_QemuVirImage._define_config_legacy]: the configuration on
    [meta.name], [meta.topology] and [spec.images]; it belongs to no
    object yet, and the layer table of the record is empty. *)
Definition _define_config_legacy (image_name : string) (p : params)
    : M vir_image :=
  let image_chain := objects (object_params p image_name) "image_chain" in
  match image_chain with
  | _ :: _ =>
      images <- _define_topo_chain_config p image_chain None [] ;;
      ret (mk_vir_image image_name {["chain" := image_chain]} images [])
  | [] =>
      let image_params := object_params p image_name in
      config <- define_image_config image_name image_params ;;
      ret (mk_vir_image image_name {["none" := [image_name]]}
             [(image_name, config)] [])
  end.

(** [get_virtual_image_class]: "qemu" is the one type with a class. *)
Definition get_virtual_image_class (image_type : string) : bool :=
  bool_decide (image_type = "qemu").

(** [_VTImageManager.define_image_config] *)
Definition manager_define_image_config (image_name : string) (p : params)
    : M vir_image :=
  let image_params := object_params p image_name in
  let image_type := default "qemu" (Dict.get "image_type" image_params) in
  if get_virtual_image_class image_type
  then _define_config_legacy image_name p
  else raise AttributeError.

(** [image = image_class(image_config); image.create_object()] of
    [_VTImageManager.create_image_object]: the object is built on the
    configuration with an empty layer table, then its layer objects are
    created. *)
Definition new_image_object (image_config : vir_image) : M unit :=
  update_self (λ _, set_images [] image_config) ;;
  create_object.

End config.
End QemuVirImageConfig.

(** ** The objects of a resource pool *)
Module ResourcePoolObjects.
Export ResourcePool.

(** The host of the pool: [uuid.uuid4().hex], the names of
    [cluster.get_all_nodes()], and whether the pool's
    [get_resource_class], abstract in [pool.py], has a class for a
    resource type. *)
Class Host (World : Type) := {
  uuid4_hex : World → string * World;
  get_all_nodes : World → list string;
  get_resource_class : value → bool;
}.

(** [d.get(key, default)] on the heap *)
Definition get_or (v : value) (key : string) (default_ : value)
    : M Doc.heap value :=
  λ h, (match deref h v with
        | Some (ODict items) => Ok (default default_ (Dict.get key items))
        | _ => Raise AttributeError
        end, h).

(** [_ResourcePool.define_config]; the default [{}] is built before
    [get] is called. *)
Definition define_config (pool_name : string) (pool_params : value)
    : M Doc.heap value :=
  empty <- alloc (ODict []) ;;
  access <- get_or pool_params "access" empty ;;
  pool_type <- getitem pool_params "type" ;;
  meta <- alloc (ODict [("name", VStr pool_name); ("uuid", VNone);
                        ("type", pool_type); ("access", access)]) ;;
  spec <- alloc (ODict []) ;;
  alloc (ODict [("meta", meta); ("spec", spec)]).

Section objects.
Context {World : Type} {runtime : Runtime World} {host : Host World}.

Definition set_pool_config (config : value) (st : state World)
    : state World :=
  mk_state World (heap st) config (resources st) (world st).

Definition set_resources (rs : dict resource) (st : state World)
    : state World :=
  mk_state World (heap st) (pool_config st) rs (world st).

(** [uuid.uuid4().hex] *)
Definition fresh_uuid : M (state World) string :=
  λ st, let '(u, w) := uuid4_hex (world st) in
        (Ok u, mk_state World (heap st) (pool_config st) (resources st) w).

(** The setter of [attaching_nodes] *)
Definition set_attaching_nodes (nodes : value) : M (state World) unit :=
  meta <- pool_meta ;;
  access <- on_heap (getitem meta "access") ;;
  on_heap (setitem access "nodes" nodes).

(** [x == "*"] *)
Definition is_star (x : value) : bool := bool_decide (x = VStr "*").

(** [_ResourcePool.__init__]; [_caps] is not used by the code at hand
    and left out. The set difference with [{"*"}] is empty when every
    element is ["*"]. *)
Definition init (pool_config : value) : M (state World) unit :=
  modify (set_pool_config pool_config) ;;
  uuid <- fresh_uuid ;;
  meta <- pool_meta ;;
  on_heap (setitem meta "uuid" (VStr uuid)) ;;
  modify (set_resources []) ;;
  attaching <- attaching_nodes ;;
  nodes <- on_heap (to_set attaching) ;;
  if forallb is_star nodes then
    st <- get_state ;;
    names <- on_heap (alloc (OList (VStr <$> get_all_nodes (world st)))) ;;
    set_attaching_nodes names
  else ret tt.

(** [get_info]: [verbose] is not used. *)
Definition get_info (verbose : bool) : M (state World) value :=
  st <- get_state ;;
  on_heap (deepcopy_m recursion_limit (pool_config st)).

(** [create_resource_object], with the [__init__] and the
    [create_object] of [_Resource]: the object is built on the
    configuration it is given, not on a copy, and stamps it with a new
    uuid. *)
Definition create_resource_object (resource_config : value)
    : M (state World) value :=
  meta <- on_heap (getitem resource_config "meta") ;;
  resource_type <- on_heap (getitem meta "type") ;;
  if get_resource_class resource_type then
    uuid <- fresh_uuid ;;
    meta <- on_heap (getitem resource_config "meta") ;;
    on_heap (setitem meta "uuid" (VStr uuid)) ;;
    let res := mk_resource resource_config in
    meta <- on_heap (getitem (ResourcePool.resource_config res) "meta") ;;
    resource_id <- on_heap (getitem meta "uuid") ;;
    match resource_id with
    | VStr key =>
        st <- get_state ;;
        modify (set_resources (Dict.set key res (resources st))) ;;
        meta <- on_heap (getitem (ResourcePool.resource_config res) "meta") ;;
        on_heap (getitem meta "uuid")
    | _ => raise TypeError
    end
  else raise TypeError.

(** [destroy_resource_object], with the [destroy_object] of
    [_Resource] *)
Definition destroy_resource_object (resource_id : string)
    : M (state World) unit :=
  st <- get_state ;;
  _ <- expect (Dict.get resource_id (resources st)) (KeyError resource_id) ;;
  modify (set_resources (Dict.del resource_id (resources st))).

End objects.
End ResourcePoolObjects.

(** ** The linux bridge network pool *)
Module LinuxBridgeNetwork.
Export ResourcePoolObjects.

(** [_LinuxBridgeNetwork.define_config] *)
Definition define_config (pool_name : string) (pool_params : value)
    : M Doc.heap value :=
  config <- ResourcePoolObjects.define_config pool_name pool_params ;;
  spec <- getitem config "spec" ;;
  switch <- getitem pool_params "switch" ;;
  export <- get pool_params "export" ;;
  setitem spec "switch" switch ;;
  setitem spec "export" export ;;
  ret config.

Section bridge.
Context {World : Type}.

(** [config["spec"][key] = config["spec"][key][node_name]["ifname"]]:
    the value is read before the target of the assignment. *)
Definition set_ifname (config : value) (key node_name : string)
    : M Doc.heap unit :=
  spec <- getitem config "spec" ;;
  by_node <- getitem spec key ;;
  of_node <- getitem by_node node_name ;;
  ifname <- getitem of_node "ifname" ;;
  spec <- getitem config "spec" ;;
  setitem spec key ifname.

(** [_LinuxBridgeNetwork.customize_pool_config]: [config] is the pool's
    own configuration, not a copy. *)
Definition customize_pool_config (node_name : string)
    : M (state World) value :=
  st <- get_state ;;
  let config := pool_config st in
  on_heap (set_ifname config "switch" node_name) ;;
  on_heap (set_ifname config "export" node_name) ;;
  ret config.

End bridge.
End LinuxBridgeNetwork.

(** ** Finding an image in the image manager *)
Module ImageManagerQuery.
Export ImageManager.

(** [image.image_meta[key]] *)
Definition meta_item (image : vir_image) (key : string)
    : M Doc.heap value :=
  meta <- getitem (image_config image) "meta" ;;
  getitem meta key.

(** [if vm_name:] is false for [None] and for the empty string. *)
Definition given (vm_name : option string) : option string :=
  match vm_name with
  | Some vm => if decide (vm = "") then None else Some vm
  | None => None
  end.

(** The tests of [query_image] on one image: the name, then the owner
    ([is_owned_by]) when a [vm_name] is given. *)
Definition image_matches (image_name : string) (vm_name : option string)
    (image : vir_image) : M Doc.heap bool :=
  name <- meta_item image "name" ;;
  if bool_decide (VStr image_name = name) then
    match given vm_name with
    | Some vm =>
        owner <- meta_item image "owner" ;;
        ret (bool_decide (VStr vm = owner))
    | None => ret true
    end
  else ret false.

(** [for image_id, image in self._images.items(): ...; return None] *)
Fixpoint query_items (items : dict vir_image) (image_name : string)
    (vm_name : option string) : M Doc.heap (option string) :=
  match items with
  | [] => ret None
  | (image_id, image) :: items' =>
      found <- image_matches image_name vm_name image ;;
      if found : bool then ret (Some image_id)
      else query_items items' image_name vm_name
  end.

(** [query_image] *)
Definition query_image (image_name : string) (vm_name : option string)
    : M state (option string) :=
  st <- get_state ;;
  on_heap (query_items (registry st) image_name vm_name).

End ImageManagerQuery.

(** ** File volumes *)
Module FileVolume.
Export ResourcePool.

(** [utils_misc.generate_random_string], and [str] of a value that is
    not a string, as an f-string formats it. *)
Class Text (World : Type) := {
  generate_random_string : World → nat → string * World;
  str_other : Doc.heap → value → string;
}.

(** [d.update({...})] with the entries of the literal, in their order;
    only a [dict] has the method. The literal itself is dropped at once
    and is not put on the heap. *)
Definition update (v : value) (entries : dict value) : M Doc.heap unit :=
  λ h, match v, deref h v with
       | VRef l, Some (ODict items) =>
           (Ok tt,
            <[l := ODict (foldl (λ d e, Dict.set e.1 e.2 d) items entries)]> h)
       | _, _ => (Raise AttributeError, h)
       end.

Section volume.
Context {World : Type} {runtime : Runtime World} {text : Text World}.

(** [f"{x}_{postfix}"] *)
Definition suffixed (h : Doc.heap) (x : value) (postfix : string)
    : string :=
  match x with
  | VStr s => s
  | _ => str_other h x
  end +:+ "_" +:+ postfix.

Definition random_string (length : nat) : M (state World) string :=
  λ st, let '(s, w) := generate_random_string (world st) length in
        (Ok s, mk_state World (heap st) (pool_config st) (resources st) w).

(** [_FileVolume.define_config_from_self] *)
Definition define_config_from_self (self : resource) (pool_id : value)
    : M (state World) value :=
  config <- on_heap (deepcopy_m recursion_limit (resource_config self)) ;;
  spec <- on_heap (getitem config "spec") ;;
  filename <- on_heap (getitem spec "filename") ;;
  meta <- on_heap (getitem config "meta") ;;
  resource_name <- on_heap (getitem meta "name") ;;
  postfix <- random_string 8 ;;
  spec <- on_heap (getitem config "spec") ;;
  st <- get_state ;;
  on_heap (update spec
             [("uri", VNone);
              ("filename", VStr (suffixed (heap st) filename postfix));
              ("allocation", VInt 0)]) ;;
  meta <- on_heap (getitem config "meta") ;;
  st <- get_state ;;
  let new_name := VStr (suffixed (heap st) resource_name postfix) in
  bindings <- on_heap (alloc (ODict [])) ;;
  on_heap (update meta
             [("name", new_name); ("pool", pool_id);
              ("allocated", VBool false); ("bindings", bindings)]) ;;
  ret config.

End volume.
End FileVolume.


(** * Properties of computations *)
Module PyFacts.
Import Py.
Open Scope py_scope.

Section monad_facts.
Context {S : Type}.
Implicit Types (st : S).

Lemma bind_ok {A B} (m : M S A) (k : A → M S B) st a st' :
  m st = (Ok a, st') → bind m k st = k a st'.
Proof. intros H. unfold bind. by rewrite H. Qed.

Lemma bind_raise {A B} (m : M S A) (k : A → M S B) st e st' :
  m st = (Raise e, st') → bind m k st = (Raise e, st').
Proof. intros H. unfold bind. by rewrite H. Qed.

Lemma bind_inv_ok {A B} (m : M S A) (k : A → M S B) st b st' :
  bind m k st = (Ok b, st') →
  ∃ a st1, m st = (Ok a, st1) ∧ k a st1 = (Ok b, st').
Proof.
  unfold bind. destruct (m st) as [[a|e] st1]; [eauto | discriminate].
Qed.

Lemma expect_inv_ok {A} (o : option A) e st a st' :
  expect o e st = (Ok a, st') → o = Some a ∧ st' = st.
Proof. destruct o; simpl; [by intros [= -> ->] | discriminate]. Qed.

(** A computation that only reads: whatever it returns or raises, the
    state is the one it started in. *)
Definition read_only {A} (m : M S A) : Prop := ∀ st, (m st).2 = st.

Lemma read_only_ret {A} (a : A) : read_only (ret a).
Proof. done. Qed.
Lemma read_only_raise {A} e : read_only (@raise S A e).
Proof. done. Qed.
Lemma read_only_get_state : read_only (@get_state S).
Proof. done. Qed.
Lemma read_only_gets {A} (f : S → A) : read_only (gets f).
Proof. done. Qed.
Lemma read_only_expect {A} (o : option A) e : read_only (@expect S A o e).
Proof. by destruct o. Qed.
Lemma read_only_bind {A B} (m : M S A) (k : A → M S B) :
  read_only m → (∀ a, read_only (k a)) → read_only (bind m k).
Proof.
  intros Hm Hk st. unfold bind. specialize (Hm st).
  destruct (m st) as [[a|e] st1]; simpl in *; subst; [apply Hk | done].
Qed.
Lemma read_only_map_each {A B} (xs : list A) (body : A → M S B) :
  (∀ x, read_only (body x)) → read_only (map_each xs body).
Proof.
  intros Hb. induction xs as [|x xs IH]; simpl; [done|].
  apply read_only_bind; [done|]. intros y.
  apply read_only_bind; [done|]. done.
Qed.
Lemma read_only_if {A} (b : bool) (m1 m2 : M S A) :
  read_only m1 → read_only m2 → read_only (if b then m1 else m2).
Proof. by destruct b. Qed.
Lemma read_only_decide {A} (P : Prop) `{Decision P} (m1 m2 : M S A) :
  read_only m1 → read_only m2 → read_only (if decide P then m1 else m2).
Proof. by destruct (decide P). Qed.

(** The result of a read, when the state is not needed. *)
Lemma read_only_run {A} (m : M S A) st : read_only m → m st = ((m st).1, st).
Proof. intros H. specialize (H st). destruct (m st); simpl in *; by subst. Qed.

Lemma read_only_inv {A} (m : M S A) st r st' :
  read_only m → m st = (r, st') → st' = st.
Proof. intros H E. specialize (H st). rewrite E in H. done. Qed.

(** *** Parts of the state a computation leaves alone *)

Definition keeps {A B} (part : S → B) (m : M S A) : Prop :=
  ∀ st, part (m st).2 = part st.

Lemma keeps_read_only {A B} (part : S → B) (m : M S A) :
  read_only m → keeps part m.
Proof. intros H st. by rewrite H. Qed.

Lemma keeps_bind {A B C} (part : S → C) (m : M S A) (k : A → M S B) :
  keeps part m → (∀ a, keeps part (k a)) → keeps part (bind m k).
Proof.
  intros Hm Hk st. unfold bind. specialize (Hm st).
  destruct (m st) as [[a|e] st1]; simpl in *; [|done].
  by rewrite Hk.
Qed.

Lemma keeps_modify {B} (part : S → B) f :
  (∀ st, part (f st) = part st) → keeps part (modify f).
Proof. intros H st. apply H. Qed.

Lemma keeps_for_each {A B} (part : S → B) (xs : list A) body :
  (∀ x, keeps part (body x)) → keeps part (for_each xs body).
Proof.
  intros Hb. induction xs as [|x xs IH]; simpl; [done|].
  by apply keeps_bind.
Qed.

Lemma keeps_inv {A B} (part : S → B) (m : M S A) st r st' :
  keeps part m → m st = (r, st') → part st' = part st.
Proof. intros H E. specialize (H st). rewrite E in H. done. Qed.

(** *** Running a computation forward *)

Lemma run_bind_bind {A B C} (m : M S A) (k1 : A → M S B) (k2 : B → M S C) st :
  bind (bind m k1) k2 st = bind m (λ a, bind (k1 a) k2) st.
Proof. unfold bind. by destruct (m st) as [[a|e] st1]. Qed.
Lemma run_bind_ret {A B} (a : A) (k : A → M S B) st :
  bind (ret a) k st = k a st.
Proof. done. Qed.
Lemma run_bind_raise {A B} e (k : A → M S B) st :
  bind (raise e) k st = (Raise e, st).
Proof. done. Qed.
Lemma run_bind_get_state {B} (k : S → M S B) st :
  bind get_state k st = k st st.
Proof. done. Qed.
Lemma run_bind_gets {A B} (f : S → A) (k : A → M S B) st :
  bind (gets f) k st = k (f st) st.
Proof. done. Qed.
Lemma run_bind_modify {B} f (k : unit → M S B) st :
  bind (modify f) k st = k tt (f st).
Proof. done. Qed.
Lemma run_bind_expect_Some {A B} (a : A) e (k : A → M S B) st :
  bind (expect (Some a) e) k st = k a st.
Proof. done. Qed.
Lemma run_bind_expect_None {A B} e (k : A → M S B) st :
  bind (expect None e) k st = (Raise e, st).
Proof. done. Qed.
Lemma run_ret {A} (a : A) st : ret a st = (Ok a, st).
Proof. done. Qed.
Lemma run_raise {A} e st : @raise S A e st = (Raise e, st).
Proof. done. Qed.
Lemma run_modify f st : modify f st = (Ok tt, f st).
Proof. done. Qed.
Lemma run_expect_Some {A} (a : A) e st : expect (Some a) e st = (Ok a, st).
Proof. done. Qed.
Lemma run_expect_None {A} e st : @expect S A None e st = (Raise e, st).
Proof. done. Qed.

End monad_facts.

Create HintDb reads.
#[export] Hint Resolve read_only_ret read_only_raise read_only_get_state
  read_only_gets read_only_expect read_only_bind read_only_map_each
  read_only_if read_only_decide : reads.

Create Rewrite HintDb run.
#[export] Hint Rewrite @run_bind_bind @run_bind_ret @run_bind_raise
  @run_bind_get_state @run_bind_gets @run_bind_modify
  @run_bind_expect_Some @run_bind_expect_None @run_ret @run_raise
  @run_modify @run_expect_Some @run_expect_None : run.

(** Proves that a computation is [read_only] from its parts. *)
Ltac reads := repeat first
  [ match goal with |- ∀ _, _ => intro end
  | apply read_only_bind | apply read_only_ret | apply read_only_raise
  | apply read_only_get_state | apply read_only_gets
  | apply read_only_expect | apply read_only_map_each
  | apply read_only_if | apply read_only_decide
  | match goal with |- read_only (match ?x with _ => _ end) => destruct x end
  | solve [auto with reads] ].

(** Proves that a computation [keeps] a part of the state. *)
Ltac keeps := repeat first
  [ match goal with |- ∀ _, _ => intro end
  | apply keeps_bind | apply keeps_for_each
  | apply keeps_modify; done
  | apply keeps_read_only; solve [reads]
  | match goal with |- keeps _ (match ?x with _ => _ end) => destruct x end
  | progress cbv zeta
  | done ].

(** In [H : bind m k st = (Ok b, st')] with [m] a read: the value read
    and the rest of the computation, from the same state. *)
Ltac read_in H x Hx :=
  let st1 := fresh "st" in
  apply bind_inv_ok in H as (x & st1 & Hx & H);
  let E := fresh in
  assert (st1 = _) as E by (eapply read_only_inv; [|exact Hx]; reads);
  subst st1.

End PyFacts.

(** * Properties of the qemu virtual image *)
Module QemuVirImageFacts.
Import QemuVirImage PyFacts.
Section facts.
Context {cluster : Cluster}.

(** One step of a computation: the head [bind] runs its first part when
    that is a [ret], a [raise] or an access to the state. *)
Ltac mstep :=
  unfold bind at 1;
  cbn [ret raise get_state gets put_state modify expect update_self].

Ltac mstep_in H :=
  unfold bind at 1 in H;
  cbn [ret raise get_state gets put_state modify expect update_self] in H.

Lemma run_bind_update_self {B} f (k : unit → M B) st :
  bind (update_self f) k st = k tt (with_self f st).
Proof. done. Qed.
Lemma run_update_self f st : update_self f st = (Ok tt, with_self f st).
Proof. done. Qed.
#[local] Hint Rewrite @run_bind_update_self @run_update_self : run.

Lemma read_only_layer_volume_id image : read_only (layer_volume_id image).
Proof. unfold layer_volume_id. reads. Qed.
#[local] Hint Resolve read_only_layer_volume_id : reads.

Lemma read_only_volume_allocated image : read_only (volume_allocated image).
Proof. unfold volume_allocated. reads. Qed.

Lemma read_only_layer_access_nodes image :
  read_only (layer_access_nodes image).
Proof. unfold layer_access_nodes. reads. Qed.
#[local] Hint Resolve read_only_volume_allocated read_only_layer_access_nodes
  : reads.

Lemma read_only_image_access_nodes : read_only image_access_nodes.
Proof. unfold image_access_nodes. reads. Qed.

Lemma read_only_image_names : read_only image_names.
Proof. unfold image_names. reads. Qed.
#[local] Hint Resolve read_only_image_access_nodes read_only_image_names
  : reads.

Lemma read_only_top_name : read_only top_name.
Proof. unfold top_name. reads. Qed.

Lemma read_only_define_image_config n p : read_only (define_image_config n p).
Proof.
  unfold define_image_config, define_config, define_resource_config. reads.
Qed.

Lemma read_only_layer tag : read_only (layer tag).
Proof. unfold layer. reads. Qed.
#[local] Hint Resolve read_only_top_name read_only_define_image_config
  read_only_layer : reads.

Lemma read_only_check_top target e : read_only (check_top target e).
Proof. unfold check_top. reads. Qed.

Lemma read_only_target_or target rest :
  read_only rest → read_only (target_or target rest).
Proof. intros. unfold target_or. reads. Qed.
#[local] Hint Resolve read_only_check_top read_only_target_or : reads.

(** *** Reading the topology *)

Lemma topology_key_chain names :
  topology_key {["chain" := names]} = Some "chain".
Proof.
  unfold topology_key. rewrite lookup_singleton_ne by done.
  rewrite lookup_singleton_eq.
  destruct (decide (is_Some (@None (list string)))) as [[? [=]]|].
  by destruct (decide (is_Some (Some names))) as [|[]].
Qed.

Lemma topology_key_none names :
  topology_key {["none" := names]} = Some "none".
Proof.
  unfold topology_key. rewrite lookup_singleton_eq.
  by destruct (decide (is_Some (Some names))) as [|[]].
Qed.

Lemma image_names_chain st names :
  topology (self st) = {["chain" := names]} →
  image_names st = (Ok names, st).
Proof.
  intros H. unfold image_names, bind, get_state.
  by rewrite H, topology_key_chain, lookup_singleton_eq.
Qed.

Lemma image_names_none st names :
  topology (self st) = {["none" := names]} →
  image_names st = (Ok names, st).
Proof.
  intros H. unfold image_names, bind, get_state.
  by rewrite H, topology_key_none, lookup_singleton_eq.
Qed.

Lemma top_name_ok st names top :
  image_names st = (Ok names, st) → last names = Some top →
  top_name st = (Ok top, st).
Proof.
  intros H Hl. unfold top_name. rewrite (bind_ok _ _ _ _ _ H). by rewrite Hl.
Qed.

Lemma check_top_not_top st target names e :
  image_names st = (Ok names, st) → target ∈ names →
  last names ≠ Some target →
  check_top (Some target) e st = (Raise (ValueError (e names)), st).
Proof.
  intros H Hin Hl. unfold check_top. rewrite (bind_ok _ _ _ _ _ H).
  rewrite bool_decide_eq_true_2 by done.
  destruct (last names) as [top|] eqn:Htop.
  - rewrite (bind_ok _ _ _ _ _ (top_name_ok _ _ _ H Htop)).
    destruct (decide (target ≠ top)) as [|Heq]; [done|].
    destruct Hl. f_equal. by destruct (decide (target = top)).
  - apply last_None in Htop. subst. by apply elem_of_nil in Hin.
Qed.


(** *** Dictionaries *)

Lemma dict_get_set_eq {V} k (v : V) d : Dict.get k (Dict.set k v d) = Some v.
Proof.
  induction d as [|[k' v'] d IH]; simpl.
  - by destruct (decide (k = k)).
  - destruct (decide (k = k')) as [->|Hne]; simpl.
    + by destruct (decide (k' = k')).
    + by destruct (decide (k = k')).
Qed.

Lemma dict_get_set_ne {V} k k' (v : V) d :
  k ≠ k' → Dict.get k (Dict.set k' v d) = Dict.get k d.
Proof.
  intros Hne. induction d as [|[k2 v2] d IH]; simpl.
  - by destruct (decide (k = k')).
  - destruct (decide (k' = k2)) as [->|Hne2]; simpl.
    + by destruct (decide (k = k2)).
    + destruct (decide (k = k2)); [done|apply IH].
Qed.

Lemma dict_mem_keys {V} k (d : dict V) :
  Dict.mem k d = true ↔ k ∈ Dict.keys d.
Proof.
  unfold Dict.mem, Dict.keys. induction d as [|[k' v'] d IH]; simpl.
  - split; [done|]. by intros ?%elem_of_nil.
  - destruct (decide (k = k')) as [->|Hne].
    + split; [intros _; apply list_elem_of_here | done].
    + rewrite IH. split; [apply list_elem_of_further|].
      intros [?|?]%elem_of_cons; done.
Qed.

Lemma dict_keys_set {V} x k (v : V) d :
  x ∈ Dict.keys (Dict.set k v d) ↔ x = k ∨ x ∈ Dict.keys d.
Proof.
  unfold Dict.keys. induction d as [|[k' v'] d IH]; simpl.
  - rewrite list_elem_of_singleton. split; [auto|].
    intros [?|?%elem_of_nil]; done.
  - destruct (decide (k = k')) as [->|Hne]; simpl.
    + rewrite !elem_of_cons. tauto.
    + rewrite !elem_of_cons, IH. tauto.
Qed.

Lemma dict_keys_del_ne {V} x k (d : dict V) :
  x ≠ k → x ∈ Dict.keys d → x ∈ Dict.keys (Dict.del k d).
Proof.
  unfold Dict.keys. intros Hne. induction d as [|[k' v'] d IH]; simpl; [done|].
  destruct (decide (k = k')) as [->|Hne'].
  - by intros [?|?]%elem_of_cons.
  - simpl. rewrite !elem_of_cons. intros [?|?]; auto.
Qed.

Lemma keeps_self_create_resource_object c :
  keeps self (create_resource_object c).
Proof. unfold create_resource_object. keeps. Qed.

Lemma keeps_self_handler cmd v a : keeps self (handler cmd v a).
Proof. unfold handler. keeps. Qed.

Lemma keeps_self_update_resource v cmd a :
  keeps self (update_resource v cmd a).
Proof. unfold update_resource. keeps; apply keeps_self_handler. Qed.

Lemma keeps_self_destroy_resource_object v :
  keeps self (destroy_resource_object v).
Proof. unfold destroy_resource_object. keeps. Qed.

Lemma keeps_self_update_image node cmd a : keeps self (update_image node cmd a).
Proof. unfold update_image. keeps. Qed.

Lemma keeps_self_layer_create image a : keeps self (layer_create image a).
Proof. unfold layer_create. keeps; apply keeps_self_update_resource. Qed.

Lemma keeps_self_layer_destroy image a : keeps self (layer_destroy image a).
Proof. unfold layer_destroy. keeps; apply keeps_self_update_resource. Qed.

Lemma keeps_self_layer_destroy_object image :
  keeps self (layer_destroy_object image).
Proof.
  unfold layer_destroy_object.
  keeps; auto using keeps_self_update_resource,
    keeps_self_destroy_resource_object.
Qed.

(** The name, the topology and the layer table of the image. *)
Definition layers_of (st : state) :=
  (name (self st), topology (self st), images (self st)).

Lemma keeps_layers_of_self {A} (m : M A) : keeps self m → keeps layers_of m.
Proof. intros H st. unfold layers_of. by rewrite H. Qed.

Lemma keeps_layers_create_image_object image_name :
  keeps layers_of (_create_image_object image_name).
Proof.
  unfold _create_image_object.
  keeps; auto using keeps_layers_of_self, keeps_self_create_resource_object,
    keeps_self_update_resource.
Qed.

(** *** Guards that reject before anything is done *)

(** C10: [add_image_object] with the name of a layer the image owns raises
    and leaves the whole state (layer table, topology, name, resource
    manager, calls) as it was; unless reading the arguments or the access
    nodes already failed, the error is the [ValueError] "already existed",
    whatever the requested nodes are. *)
Theorem add_existing_target_rejected st a target :
  arg_target a = Some target →
  Dict.mem target (images (self st)) = true →
  ∃ e, add_image_object a st = (Raise e, st) ∧
       (is_Some (arg_target_params a) →
        (∀ err, (image_access_nodes st).1 ≠ Raise err) →
        e = ValueError (AlreadyExisted target)).
Proof.
  intros Ht Hmem. unfold add_image_object. rewrite Ht. mstep.
  destruct (arg_target_params a) as [p|]; mstep.
  2:{ eexists. split; [done|]. by intros [? [=]]. }
  set (nodes := match arg_nodes a with
                | Some (n :: ns) => ret (n :: ns)
                | _ => image_access_nodes
                end).
  assert (read_only nodes) as Hro by (subst nodes; reads).
  unfold bind at 1. rewrite (read_only_run nodes st Hro).
  destruct (nodes st).1 as [node_names|e] eqn:Hn.
  - mstep. rewrite Hmem. eauto.
  - eexists. split; [done|]. intros _ Hacc. exfalso.
    subst nodes. destruct (arg_nodes a) as [[|]|]; simpl in Hn;
      try discriminate; by apply (Hacc e).
Qed.

(** C5: in a chain of two or more layers, a target on the chain that is
    not its top is refused by [remove_image_object], [create] and
    [destroy]; each raises with the state untouched: no layer popped, no
    volume changed, no call recorded. *)
Theorem only_top_of_chain st a target (names : list string) :
  topology (self st) = {["chain" := names]} →
  (2 ≤ length names)%nat →
  target ∈ names →
  last names ≠ Some target →
  arg_target a = Some target →
  (∃ e, remove_image_object a st = (Raise e, st)) ∧
  (∃ e, create a st = (Raise e, st)) ∧
  destroy a st = (Raise (ValueError (OnlyTopDestroyed names)), st).
Proof.
  intros Htopo Hlen Hin Hlast Ht.
  pose proof (image_names_chain _ _ Htopo) as Hnames.
  split; [|split].
  - unfold remove_image_object. rewrite Ht. mstep. mstep.
    destruct (Dict.mem target (images (self st))); simpl; [|eauto].
    destruct (decide (length (images (self st)) = 1)); [eauto|].
    rewrite (bind_ok _ _ _ _ _ Hnames).
    rewrite bool_decide_eq_true_2 by done.
    rewrite Htopo, lookup_singleton_eq.
    destruct (decide (is_Some (Some names))) as [_|[]]; [|eauto].
    destruct (last names) as [top|] eqn:Htop.
    + unfold bind at 1. unfold bind at 1. unfold bind at 1.
      rewrite (top_name_ok _ _ _ Hnames Htop). mstep.
      rewrite bool_decide_eq_true_2; [eauto|]. congruence.
    + apply last_None in Htop. subst. by apply elem_of_nil in Hin.
  - unfold create.
    unfold bind at 1.
    rewrite (read_only_run _ st read_only_image_access_nodes).
    destruct (image_access_nodes st).1 as [access|e]; [|eauto].
    destruct (head access) as [node|]; mstep; [|eauto].
    rewrite Ht. unfold bind at 1.
    rewrite (check_top_not_top _ _ _ _ Hnames Hin Hlast). eauto.
  - unfold destroy. rewrite Ht. unfold bind at 1.
    by rewrite (check_top_not_top _ _ _ _ Hnames Hin Hlast).
Qed.

(** *** The topology *)

(** The topology holds [names] under the one key [k]. *)
Definition tagged (st : state) (k : string) (names : list string) : Prop :=
  topology (self st) = {[k := names]} ∧ (k = "none" ∨ k = "chain").

Lemma tagged_key st (k : string) (names : list string) :
  tagged st k names → topology_key (topology (self st)) = Some k.
Proof.
  intros [-> [->| ->]]; [apply topology_key_none | apply topology_key_chain].
Qed.

Lemma tagged_image_names st (k : string) (names : list string) :
  tagged st k names → image_names st = (Ok names, st).
Proof.
  intros [H [->| ->]]; [by apply image_names_none | by apply image_names_chain].
Qed.

Lemma tagged_with_self st (k' : string) (names' : list string) f :
  (k' = "none" ∨ k' = "chain") →
  topology (f (self st)) = {[k' := names']} →
  tagged (with_self f st) k' names'.
Proof. by split. Qed.

Lemma image_names_append_tagged st (k : string) (names : list string) target :
  tagged st k names →
  image_names_append target st =
    (Ok tt, with_self (set_topology {[k := (names ++ [target])%list]}) st).
Proof.
  intros Ht. unfold image_names_append.
  rewrite (bind_ok _ _ _ _ _ (tagged_image_names _ _ _ Ht)). mstep.
  rewrite (tagged_key _ _ _ Ht). unfold update_self, modify, with_self.
  simpl. destruct Ht as [-> _]. by rewrite insert_singleton_eq.
Qed.

Lemma none_to_chain_tagged st (k : string) (names : list string) :
  tagged st k names →
  none_to_chain st = (Ok tt, with_self (set_topology {["chain" := names]}) st).
Proof.
  intros [Ht [->| ->]]; unfold none_to_chain; mstep; rewrite Ht.
  - rewrite lookup_singleton_eq.
    destruct (decide (is_Some (Some names))) as [_|[]]; [|done].
    unfold topology_move. mstep. rewrite Ht, lookup_singleton_eq. mstep.
    unfold update_self, modify, with_self. simpl.
    by rewrite Ht, delete_singleton_eq, insert_empty.
  - rewrite lookup_singleton_ne by done.
    destruct (decide (is_Some (@None (list string)))) as [[? [=]]|].
    unfold ret, with_self. rewrite <- Ht. by destruct st as [[]].
Qed.

Lemma list_remove_first_last x (l : list string) :
  x ∉ l → list_remove_first x (l ++ [x]) = Some l.
Proof.
  induction l as [|y l IH]; simpl; intros Hnin.
  - by destruct (decide (x = x)).
  - apply not_elem_of_cons in Hnin as [Hne Hnin].
    destruct (decide (x = y)); [done|]. by rewrite IH.
Qed.

Lemma image_names_remove_tagged st (k : string) (names names' : list string)
    target :
  tagged st k names → list_remove_first target names = Some names' →
  image_names_remove target st =
    (Ok tt, with_self (set_topology {[k := names']}) st).
Proof.
  intros Ht Hr. unfold image_names_remove.
  rewrite (bind_ok _ _ _ _ _ (tagged_image_names _ _ _ Ht)).
  rewrite Hr. mstep. mstep.
  rewrite (tagged_key _ _ _ Ht). unfold update_self, modify, with_self.
  simpl. destruct Ht as [-> _]. by rewrite insert_singleton_eq.
Qed.

Lemma chain_to_none_tagged st (names : list string) :
  tagged st "chain" names →
  topology_move "chain" "none" st =
    (Ok tt, with_self (set_topology {["none" := names]}) st).
Proof.
  intros [Ht _]. unfold topology_move. mstep.
  rewrite Ht, lookup_singleton_eq. mstep.
  unfold update_self, modify, with_self. simpl.
  by rewrite Ht, delete_singleton_eq, insert_empty.
Qed.

(** A successful [_create_image_object] returns the configuration found
    under [spec.images], with its volume set. *)
Lemma create_image_object_ok image_name st image st' :
  _create_image_object image_name st = (Ok image, st') →
  ∃ config v,
    Dict.get image_name (spec_images (self st)) = Some config ∧
    image = set_volume v config.
Proof.
  unfold _create_image_object. mstep.
  destruct (Dict.get image_name (spec_images (self st))) as [config|];
    [|discriminate].
  mstep. destruct (get_qemu_image_class (format config)); [|discriminate].
  destruct (volume_config_of config) as [vc|]; [|discriminate].
  mstep. mstep.
  intros H. apply bind_inv_ok in H as (v & st1 & _ & H).
  apply bind_inv_ok in H as (? & st2 & _ & H).
  apply bind_inv_ok in H as (? & st3 & _ & H).
  injection H as <- _. by exists config, v.
Qed.

Lemma define_image_config_ok image_name p st config st' :
  define_image_config image_name p st = (Ok config, st') →
  backing config = None ∧ meta_name config = image_name.
Proof.
  unfold define_image_config.
  destruct (get_qemu_image_class _); [|discriminate].
  unfold define_config, define_resource_config, bind, get_state, expect.
  destruct (select_pool st p); simpl; [|discriminate].
  by intros [= <- _].
Qed.

Lemma tagged_top_name st (k : string) (names : list string) top st' :
  tagged st k names → top_name st = (Ok top, st') → last names = Some top.
Proof.
  intros Ht. unfold top_name.
  rewrite (bind_ok _ _ _ _ _ (tagged_image_names _ _ _ Ht)).
  by intros [-> _]%expect_inv_ok.
Qed.

(** What a successful [add_image_object] has done to the layers. *)
Lemma add_image_object_ok st a st' (k : string) (names : list string) :
  tagged st k names →
  add_image_object a st = (Ok tt, st') →
  ∃ target image,
    arg_target a = Some target ∧
    Dict.mem target (images (self st)) = false ∧
    images (self st') = Dict.set target image (images (self st)) ∧
    if default false (arg_backing_chain a)
    then ∃ top, last names = Some top ∧ backing image = Some top ∧
           name (self st') = target ∧
           topology (self st') = {["chain" := (names ++ [target])%list]}
    else backing image = None ∧ name (self st') = name (self st) ∧
           topology (self st') = topology (self st).
Proof.
  intros Ht H. unfold add_image_object in H.
  destruct (arg_target a) as [target|]; [|discriminate]. mstep_in H.
  destruct (arg_target_params a) as [p|]; [|discriminate]. mstep_in H.
  apply bind_inv_ok in H as (node_names & st1 & Hn & H).
  assert (st1 = st) as ->.
  { eapply read_only_inv; [|exact Hn]. reads. }
  mstep_in H.
  destruct (Dict.mem target (images (self st))) eqn:Hmem; [discriminate|].
  read_in H access Hacc.
  destruct (negb _); [discriminate|].
  read_in H config Hconfig.
  apply define_image_config_ok in Hconfig as [Hback Hname].
  exists target.
  destruct (default false (arg_backing_chain a)).
  - apply bind_inv_ok in H as (config' & st1 & Hblock & H).
    read_in Hblock top_ Htop.
    apply (tagged_top_name _ _ _ _ _ Ht) in Htop.
    rewrite (bind_ok _ _ _ _ _ (image_names_append_tagged _ _ _ target Ht))
      in Hblock.
    mstep_in Hblock.
    assert (tagged (with_self (set_name target)
              (with_self (set_topology {[k := (names ++ [target])%list]}) st))
              k (names ++ [target])) as Ht'.
    { split; [done|apply Ht]. }
    rewrite (bind_ok _ _ _ _ _ (none_to_chain_tagged _ _ _ Ht')) in Hblock.
    injection Hblock as <- <-.
    mstep_in H.
    apply bind_inv_ok in H as (image & st2 & Himage & H).
    pose proof (keeps_inv _ _ _ _ _ (keeps_layers_create_image_object target)
                  Himage) as Hkeep.
    apply create_image_object_ok in Himage as (cfg & v & Hget & ->).
    simpl in Hget. rewrite dict_get_set_eq in Hget. injection Hget as <-.
    injection H as <-. unfold layers_of in Hkeep. simpl in Hkeep.
    injection Hkeep as Hn1 Hn2 Hn3.
    exists (set_volume v (set_backing (Some top_) config)). simpl.
    rewrite Hn1, Hn2, Hn3. eauto 10.
  - mstep_in H. mstep_in H.
    apply bind_inv_ok in H as (image & st2 & Himage & H).
    pose proof (keeps_inv _ _ _ _ _ (keeps_layers_create_image_object target)
                  Himage) as Hkeep.
    apply create_image_object_ok in Himage as (cfg & v & Hget & ->).
    simpl in Hget. rewrite dict_get_set_eq in Hget. injection Hget as <-.
    injection H as <-. unfold layers_of in Hkeep. simpl in Hkeep.
    injection Hkeep as Hn1 Hn2 Hn3.
    exists (set_volume v config). simpl.
    rewrite Hn1, Hn2, Hn3. eauto 10.
Qed.

Lemma tagged_same_topology st st' (k : string) (names : list string) :
  topology (self st') = topology (self st) →
  tagged st k names → tagged st' k names.
Proof. intros E [H1 H2]. split; [congruence|done]. Qed.

Lemma list_remove_first_is_Some x (l : list string) :
  x ∈ l → ∃ l', list_remove_first x l = Some l'.
Proof.
  induction l as [|y l IH]; simpl; [by intros ?%elem_of_nil|].
  destruct (decide (x = y)); [eauto|].
  intros [?|Hin]%elem_of_cons; [done|].
  destruct (IH Hin) as [l' ->]. eauto.
Qed.

(** What a successful [remove_image_object] has done to the layers. *)
Lemma remove_image_object_ok st a st' (k : string) (names : list string) :
  tagged st k names →
  remove_image_object a st = (Ok tt, st') →
  ∃ target,
    arg_target a = Some target ∧
    Dict.mem target (images (self st)) = true ∧
    images (self st') = Dict.del target (images (self st)) ∧
    ((target ∉ names) ∧ name (self st') = name (self st) ∧
       topology (self st') = topology (self st)
     ∨ k = "chain" ∧ last names = Some target ∧
       ∃ names' top_,
         list_remove_first target names = Some names' ∧
         last names' = Some top_ ∧
         name (self st') = top_ ∧
         topology (self st') =
           if decide (length names' < 2)
           then {["none" := names']} else {["chain" := names']}).
Proof.
  intros Ht H. unfold remove_image_object in H.
  destruct (arg_target a) as [target|]; [|discriminate]. mstep_in H.
  mstep_in H. exists target.
  destruct (Dict.mem target (images (self st))) eqn:Hmem; [|discriminate].
  simpl in H.
  destruct (decide (length (images (self st)) = 1)); [discriminate|].
  rewrite (bind_ok _ _ _ _ _ (tagged_image_names _ _ _ Ht)) in H.
  apply bind_inv_ok in H as ([] & st1 & Hguard & H).
  assert (st1 = st ∧ (target ∈ names → (k = "chain" ∧ last names = Some target)))
    as [-> Hguard'].
  { destruct (bool_decide (target ∈ names)) eqn:Hin.
    - apply bool_decide_eq_true in Hin.
      destruct Ht as [Htopo Hk]. rewrite Htopo in Hguard.
      destruct Hk as [-> | ->].
      + rewrite lookup_singleton_ne in Hguard by done.
        destruct (decide (is_Some (@None (list string)))) as [[? [=]]|].
        mstep_in Hguard. rewrite lookup_singleton_eq in Hguard.
        by destruct (decide (is_Some (Some names))) as [|[]].
      + rewrite lookup_singleton_eq in Hguard.
        destruct (decide (is_Some (Some names))) as [_|[]]; [|done].
        apply bind_inv_ok in Hguard as (not_top & st2 & Htop & Hguard).
        read_in Htop top_ Htop'.
        apply (tagged_top_name _ "chain" names) in Htop'; [|by split; auto].
        injection Htop as <- <-.
        destruct (bool_decide (target ≠ top_)) eqn:Hne; [discriminate|].
        apply bool_decide_eq_false in Hne. apply dec_stable in Hne. subst.
        rewrite lookup_singleton_ne in Hguard by done.
        destruct (decide (is_Some (@None (list string)))) as [[? [=]]|].
        injection Hguard as <-. auto.
    - apply bool_decide_eq_false in Hin. injection Hguard as <-. done. }
  destruct (Dict.get target (images (self st))) as [image|]; [|discriminate].
  mstep_in H. mstep_in H.
  read_in H allocated Halloc.
  destruct allocated; [discriminate|].
  apply bind_inv_ok in H as ([] & st1 & Hdestroy & H).
  pose proof (keeps_inv _ _ _ _ _ (keeps_self_layer_destroy_object image)
                Hdestroy) as Hself.
  simpl in Hself.
  assert (tagged st1 k names) as Ht1.
  { eapply tagged_same_topology; [|exact Ht]. by rewrite Hself. }
  rewrite (bind_ok _ _ _ _ _ (tagged_image_names _ _ _ Ht1)) in H.
  split; [done|]. split; [done|].
  destruct (bool_decide (target ∈ names)) eqn:Hin.
  - apply bool_decide_eq_true in Hin. destruct (Hguard' Hin) as [-> Hlast].
    destruct (list_remove_first_is_Some _ _ Hin) as [names' Hrem].
    rewrite (bind_ok _ _ _ _ _
               (image_names_remove_tagged _ _ _ _ _ Ht1 Hrem)) in H.
    set (st2 := with_self (set_topology {["chain" := names']}) st1) in H.
    assert (tagged st2 "chain" names') as Ht2 by (split; auto).
    read_in H top_ Htop.
    apply (tagged_top_name _ _ _ _ _ Ht2) in Htop.
    mstep_in H.
    set (st3 := with_self (set_name top_) st2) in H.
    assert (tagged st3 "chain" names') as Ht3 by (split; auto).
    rewrite (bind_ok _ _ _ _ _ (tagged_image_names _ _ _ Ht3)) in H.
    assert (images (self st') = Dict.del target (images (self st)) ∧
            name (self st') = top_ ∧
            topology (self st') =
              if decide (length names' < 2)
              then {["none" := names']} else {["chain" := names']})
      as (? & ? & ?).
    { destruct (decide (length names' < 2)).
      - rewrite (chain_to_none_tagged _ _ Ht3) in H. injection H as <-.
        simpl. by rewrite Hself.
      - injection H as <-. simpl. by rewrite Hself. }
    split; [done|]. right. eauto 10.
  - apply bool_decide_eq_false in Hin. injection H as <-.
    rewrite Hself. split; [done|]. by left.
Qed.

Lemma keeps_self_create a : keeps self (create a).
Proof.
  unfold create.
  keeps; auto using keeps_self_layer_create, keeps_self_update_image.
Qed.

(** What a successful [qemu_img_rebase] has done to the layers. *)
Lemma qemu_img_rebase_ok st a st' (k : string) (names : list string) :
  tagged st k names →
  qemu_img_rebase a st = (Ok tt, st') →
  ∃ target top_,
    arg_target a = Some target ∧
    Dict.mem target (images (self st)) = false ∧
    last names = Some top_ ∧
    name (self st') = target ∧
    topology (self st') = {["chain" := (names ++ [target])%list]} ∧
    ∀ x, x ∈ Dict.keys (images (self st')) ↔
         x = target ∨ x ∈ Dict.keys (images (self st)).
Proof.
  intros Ht H. unfold qemu_img_rebase in H.
  read_in H top_ Htop. apply (tagged_top_name _ _ _ _ _ Ht) in Htop.
  destruct (arg_target a) as [target|]; [|discriminate]. mstep_in H.
  destruct (arg_target_params a) as [p|]; [|discriminate]. mstep_in H.
  apply bind_inv_ok in H as ([] & st1 & Hadd & H).
  apply (add_image_object_ok _ _ _ _ _ Ht) in Hadd
    as (? & image & [= <-] & Hmem & Himages & _ & Hname & Htopo).
  apply bind_inv_ok in H as ([] & st2 & Hcreate & H).
  apply (keeps_inv _ _ _ _ _ (keeps_self_create _)) in Hcreate.
  read_in H access Hacc.
  destruct (head access) as [node_name|]; [|discriminate]. mstep_in H.
  apply bind_inv_ok in H as ([] & st3 & Hupdate & H).
  apply (keeps_inv _ _ _ _ _ (keeps_self_update_image _ _ _)) in Hupdate.
  mstep_in H.
  assert (tagged (with_self (set_name target) st3) k names) as Ht3.
  { eapply tagged_same_topology; [|exact Ht]. simpl. congruence. }
  rewrite (bind_ok _ _ _ _ _ (image_names_append_tagged _ _ _ target Ht3)) in H.
  match type of H with bind _ _ ?s = _ => set (st4 := s) in H end.
  assert (tagged st4 k (names ++ [target])) as Ht4.
  { split; [done|apply Ht]. }
  rewrite (bind_ok _ _ _ _ _ (none_to_chain_tagged _ _ _ Ht4)) in H.
  unfold set_layer_backing in H. mstep_in H.
  destruct (Dict.get target _) as [config|]; [|discriminate].
  mstep_in H. injection H as <-. simpl.
  exists target, top_. repeat (split; [done|]).
  intros x. rewrite Hupdate, Hcreate, Himages.
  assert (Dict.mem target (Dict.set target image (images (self st))) = true)
    as ->.
  { apply dict_mem_keys, dict_keys_set. by left. }
  rewrite !dict_keys_set. tauto.
Qed.

(** *** The topology invariant *)

(** The topology of the image is consistent with the layers named on it:
    one name under [none], or two or more under [chain], base first; the
    image bears the name of the last one; no name occurs twice, and every
    name is the key of a layer object the image owns. *)
Definition consistent (i : vir_image) : Prop :=
  ∃ names : list string,
    ((topology i = {["none" := names]} ∧ length names = 1) ∨
     (topology i = {["chain" := names]} ∧ 2 ≤ length names)) ∧
    last names = Some (name i) ∧
    NoDup names ∧
    names ⊆ Dict.keys (images i).

(** C1 as the specification has it, on the number of layer objects: one
    layer object means [{none: [name]}], two or more mean a chain that
    ends in the image's name. *)
Definition topology_matches_layer_count (i : vir_image) : Prop :=
  (length (images i) = 1 → topology i = {["none" := [name i]]}) ∧
  (2 ≤ length (images i) →
   ∃ names : list string,
     topology i = {["chain" := names]} ∧ last names = Some (name i)).

Lemma consistent_tagged st names :
  (topology (self st) = {["none" := names]} ∧ length names = 1) ∨
  (topology (self st) = {["chain" := names]} ∧ 2 ≤ length names) →
  ∃ k, tagged st k names.
Proof.
  intros [[H _]|[H _]]; [exists "none" | exists "chain"]; split; auto.
Qed.

(** C1, amended: [add_image_object], [remove_image_object] and
    [qemu_img_rebase], when they succeed on an image whose topology is
    consistent, leave it consistent: one name on the topology is
    [{none: [name]}], two or more are a chain ordered base to top, the
    image's name is the top (or sole) name, and every name on the topology
    is an owned layer object. The count is that of the names on the
    topology, not of the layer objects: a layer added without
    [backing_chain] is owned and not named. *)
Theorem topology_consistent_preserved st a st' :
  consistent (self st) →
  add_image_object a st = (Ok tt, st') ∨
  remove_image_object a st = (Ok tt, st') ∨
  qemu_img_rebase a st = (Ok tt, st') →
  consistent (self st').
Proof.
  intros (names & Hshape & Hlast & Hnd & Hsub) Hop.
  destruct (consistent_tagged _ _ Hshape) as [k Ht].
  assert (1 ≤ length names) as Hlen by (destruct Hshape as [[_ ?]|[_ ?]]; lia).
  destruct Hop as [H|[H|H]].
  - apply (add_image_object_ok _ _ _ _ _ Ht) in H
      as (target & image & _ & Hmem & Himages & H).
    assert (target ∉ names) as Hnin.
    { intros Hin%Hsub%dict_mem_keys. congruence. }
    destruct (default false (arg_backing_chain a)).
    + destruct H as (top_ & _ & _ & Hname & Htopo).
      exists (names ++ [target]). rewrite Htopo, Hname, Himages.
      split; [right; split; [done|rewrite length_app; simpl; lia]|].
      split; [apply last_snoc|]. split.
      * apply NoDup_app. split; [done|]. split; [|apply NoDup_singleton].
        intros x Hx ->%list_elem_of_singleton. done.
      * intros x [Hx| ->%list_elem_of_singleton]%elem_of_app;
          apply dict_keys_set; auto.
    + destruct H as (_ & Hname & Htopo).
      exists names. rewrite Htopo, Hname, Himages.
      repeat (split; [done|]).
      intros x Hx. apply dict_keys_set. auto.
  - pose proof (remove_image_object_ok _ _ _ _ _ Ht H)
      as (target & _ & Hmem & Himages & H').
    destruct H' as [(Hnin & Hname & Htopo)
                  |(_ & Htop & names' & top_ & Hrem & Htop' & Hname & Htopo)].
    + exists names. rewrite Htopo, Hname, Himages.
      repeat (split; [done|]).
      intros x Hx. apply dict_keys_del_ne; [|auto]. by intros ->.
    + apply last_Some in Htop as [names0 ->].
      apply NoDup_app in Hnd as (Hnd0 & Hdisj & _).
      assert (target ∉ names0) as Hnin.
      { intros Hin. apply (Hdisj _ Hin). apply list_elem_of_here. }
      rewrite list_remove_first_last in Hrem by done. injection Hrem as <-.
      rewrite length_app in Hlen. simpl in *.
      assert (1 ≤ length names0).
      { destruct names0; [discriminate|simpl; lia]. }
      exists names0. rewrite Htopo, Hname, Himages.
      split; [destruct (decide (length names0 < 2)); [left|right];
              split; auto; lia|].
      split; [done|]. split; [done|].
      intros x Hx. apply dict_keys_del_ne; [by intros ->|].
      apply Hsub, elem_of_app. auto.
  - apply (qemu_img_rebase_ok _ _ _ _ _ Ht) in H
      as (target & top_ & _ & Hmem & _ & Hname & Htopo & Hkeys).
    assert (target ∉ names) as Hnin.
    { intros Hin%Hsub%dict_mem_keys. congruence. }
    exists (names ++ [target]). rewrite Htopo, Hname.
    split; [right; split; [done|rewrite length_app; simpl; lia]|].
    split; [apply last_snoc|]. split.
    + apply NoDup_app. split; [done|]. split; [|apply NoDup_singleton].
      intros x Hx ->%list_elem_of_singleton. done.
    + intros x [Hx| ->%list_elem_of_singleton]%elem_of_app;
        apply Hkeys; auto.
Qed.

(** Runs the head of the computation as far as it is determined. *)
Ltac run :=
  repeat (progress
    (autorewrite with run;
     cbn [self pools volumes next_uuid trace with_self with_volumes record
          name topology spec_images images set_name set_topology
          set_spec_images set_images set_backing set_volume
          meta_name format backing volume_config_of volume_id
          vol_pool vol_allocated vol_bindings set_allocated set_bindings
          arg_target arg_target_params arg_backing_chain arg_nodes
          arg_source no_arguments vc_name vc_pool default from_option id])).

(** Runs the head of the computation by its known result [H]. *)
Ltac run_with H := run; rewrite (bind_ok _ _ _ _ _ H); cbv beta; run.

(** *** Adding a layer on top of the chain *)

Lemma create_image_object_succeeds image_name st config vc :
  Dict.get image_name (spec_images (self st)) = Some config →
  get_qemu_image_class (format config) = true →
  volume_config_of config = Some vc →
  is_Some (pools st !! vc_pool vc) →
  ∃ image st', _create_image_object image_name st = (Ok image, st').
Proof.
  intros Hget Hclass Hvc [attaching Hpool].
  unfold _create_image_object. run. rewrite Hget. run.
  rewrite Hclass, Hvc. run.
  unfold create_resource_object. run. rewrite Hpool. run.
  unfold update_resource. run. rewrite lookup_insert_eq. run.
  rewrite Hpool. run.
  unfold handler. run. rewrite lookup_insert_eq. run.
  eauto.
Qed.

(** C6: on an image whose topology holds [names] ending in [top_],
    [add_image_object] with [backing_chain] true and a new target returns,
    and the new layer object is backed by [top_], the top at the call; the
    image takes the target's name, and the topology is the chain
    [names ++ [target]], whether it was under [none] or under [chain]. On
    the sole layer "base" with target "sn": [{none: ["base"]}] becomes
    [{chain: ["base", "sn"]}] and "sn" is backed by "base". *)
Theorem add_on_top_of_chain st a target p (k : string) (names : list string)
    top_ access pool :
  tagged st k names →
  last names = Some top_ →
  arg_target a = Some target →
  arg_target_params a = Some p →
  arg_backing_chain a = Some true →
  Dict.mem target (images (self st)) = false →
  image_access_nodes st = (Ok access, st) →
  default [] (arg_nodes a) ⊆ access →
  get_qemu_image_class (default "qcow2" (Dict.get "image_format" p)) = true →
  select_pool st p = Some pool →
  is_Some (pools st !! pool) →
  ∃ st' image,
    add_image_object a st = (Ok tt, st') ∧
    Dict.get target (images (self st')) = Some image ∧
    backing image = Some top_ ∧
    name (self st') = target ∧
    topology (self st') = {["chain" := (names ++ [target])%list]}.
Proof.
  intros Ht Htop Htarget Hp Hchain Hmem Hacc Hsub Hclass Hsel Hpool.
  assert (∃ st', add_image_object a st = (Ok tt, st')) as [st' Hadd].
  { unfold add_image_object. rewrite Htarget, Hp, Hchain. run.
    assert (match arg_nodes a with
            | Some (n :: ns) => ret (n :: ns)
            | _ => image_access_nodes
            end st =
            (Ok match arg_nodes a with
                | Some (n :: ns) => n :: ns
                | _ => access
                end, st)) as Hnodes.
    { by destruct (arg_nodes a) as [[|]|]. }
    run_with Hnodes. rewrite Hmem. run_with Hacc.
    rewrite bool_decide_eq_true_2.
    2:{ destruct (arg_nodes a) as [[|]|]; done. }
    cbn [negb]. unfold define_image_config. rewrite Hclass.
    unfold define_config, define_resource_config. run. rewrite Hsel. run.
    run_with (top_name_ok _ _ _ (tagged_image_names _ _ _ Ht) Htop).
    run_with (image_names_append_tagged _ _ _ target Ht).
    match goal with |- context [bind none_to_chain _ ?s] =>
      assert (tagged s k (names ++ [target])) as Ht'
        by (split; [done|apply Ht])
    end.
    run_with (none_to_chain_tagged _ _ _ Ht').
    match goal with |- context [bind (_create_image_object _) _ ?s] =>
      destruct (create_image_object_succeeds target s
                  (mk_qemu_image target
                     (default "qcow2" (Dict.get "image_format" p))
                     (Some top_) (Some (mk_volume_config target pool)) None)
                  (mk_volume_config target pool))
        as (image & st1 & Hobj);
        [by simpl; rewrite dict_get_set_eq|done|done|done|]
    end.
    run_with Hobj. eauto. }
  pose proof (add_image_object_ok _ _ _ _ _ Ht Hadd)
    as (target' & image & Htarget' & _ & Himages & H).
  rewrite Hchain in H. simpl in H.
  destruct H as (top' & Htop' & Hback & Hname & Htopo).
  assert (target' = target) as -> by congruence.
  exists st', image. rewrite Himages, dict_get_set_eq.
  repeat (split; [done|]). split; [congruence|]. done.
Qed.

(** *** Creating the storage: no rollback *)

(** The volume [v] is registered and marked allocated. *)
Definition allocated (st : state) (v : nat) : Prop :=
  ∃ vol, volumes st !! v = Some vol ∧ vol_allocated vol = true.

Lemma update_resource_allocate st a v r st' :
  update_resource v Allocate a st = (r, st') →
  self st' = self st ∧
  (∀ v', allocated st v' → allocated st' v') ∧
  (r = Ok tt → allocated st' v).
Proof.
  unfold update_resource. run.
  destruct (volumes st !! v) as [vol|] eqn:Hvol; run.
  2:{ by intros [= <- <-]. }
  destruct (pools st !! vol_pool vol) as [attaching|]; run.
  2:{ by intros [= <- <-]. }
  assert (∀ s, self s = self st → volumes s = volumes st →
            handler Allocate v a s = (r, st') →
            self st' = self st ∧
            (∀ v', allocated st v' → allocated st' v') ∧
            (r = Ok tt → allocated st' v)) as Hh.
  { intros s Hs Hv. unfold handler. run. rewrite Hv, Hvol. run.
    destruct (backing_agent s Allocate v) as [status out].
    destruct (decide (status = 0%Z)); run; intros [= <- <-].
    - simpl. split; [done|]. split.
      + intros v' (vol' & Hv' & Ha). unfold allocated. simpl. rewrite Hv.
        destruct (decide (v = v')) as [<-|Hne].
        * rewrite lookup_insert_eq. eauto.
        * rewrite lookup_insert_ne by done. eauto.
      + intros _. unfold allocated. simpl. rewrite lookup_insert_eq. eauto.
    - split; [done|]. split; [|done].
      intros v' (vol' & Hv' & Ha). exists vol'. by rewrite Hv. }
  destruct (arg_nodes a) as [[|n ns]|]; run; try by apply Hh.
  destruct (bool_decide (n :: ns ⊆ attaching)); run; [by apply Hh|].
  by intros [= <- <-].
Qed.

Lemma layer_create_allocates st a image r st' :
  layer_create image a st = (r, st') →
  self st' = self st ∧
  (∀ v', allocated st v' → allocated st' v') ∧
  (r = Ok tt → ∃ v, volume_id image = Some v ∧ allocated st' v).
Proof.
  unfold layer_create, layer_volume_id.
  destruct (volume_id image) as [v|]; run.
  - intros (? & ? & ?)%update_resource_allocate. eauto 10.
  - by intros [= <- <-].
Qed.

(** The layer [tag] is owned and its volume is marked allocated. *)
Definition layer_allocated (st : state) (tag : string) : Prop :=
  ∃ image v,
    Dict.get tag (images (self st)) = Some image ∧
    volume_id image = Some v ∧ allocated st v.

Lemma create_layers_allocates a tags st st' :
  for_each tags (λ tag, image <- layer tag ;; layer_create image a) st
    = (Ok tt, st') →
  self st' = self st ∧
  (∀ v, allocated st v → allocated st' v) ∧
  ∀ tag, tag ∈ tags → layer_allocated st' tag.
Proof.
  revert st. induction tags as [|tag tags IH]; intros st; simpl.
  - intros [= <-]. split; [done|]. split; [done|]. by intros ? ?%elem_of_nil.
  - intros H. apply bind_inv_ok in H as ([] & st1 & Hbody & H).
    read_in Hbody image Himage. unfold layer in Himage. revert Himage. run.
    intros [Hget _]%expect_inv_ok.
    apply layer_create_allocates in Hbody as (Hself1 & Hmono1 & Halloc).
    destruct (Halloc eq_refl) as (v & Hv & Hva).
    apply IH in H as (Hself & Hmono & Hrest).
    split; [congruence|]. split; [auto|].
    intros tag' [->|Hin]%elem_of_cons; [|auto].
    exists image, v. rewrite Hself, Hself1. auto.
Qed.

(** C2, amended: when the layers named by the arguments have been
    allocated and the agent then answers [update_image] for [create] with
    a non-zero status and the text [out], [create] raises an exception
    that carries exactly [out]. Nothing is rolled back: the call to the
    agent is on record and every layer that [create] allocated is still
    marked allocated. *)
Theorem create_remote_failure st a node rest tags st1 status out :
  image_access_nodes st = (Ok (node :: rest), st) →
  check_top (arg_target a) OnlyTopCreated st = (Ok tt, st) →
  target_or (arg_target a) image_names st = (Ok tags, st) →
  for_each tags (λ tag, image <- layer tag ;; layer_create image a) st
    = (Ok tt, st1) →
  image_agent st1 node "create" a = (status, out) →
  status ≠ 0%Z →
  create a st =
    (Raise (Exception out), record (UpdateImage node "create" a) st1) ∧
  ∀ tag, tag ∈ tags →
    layer_allocated (record (UpdateImage node "create" a) st1) tag.
Proof.
  intros Hacc Hcheck Htags Hloop Hagent Hstatus. split.
  - unfold create. run_with Hacc. cbn [head]. run. run_with Hcheck. run_with Htags.
    run_with Hloop. unfold update_image. run. rewrite Hagent. run.
    by destruct (decide (status = 0%Z)).
  - intros tag Hin.
    apply create_layers_allocates in Hloop as (_ & _ & Hall).
    apply (Hall tag Hin).
Qed.

(** *** Failing after the layer is gone *)

(** [remove_image_object] pops the layer before it looks at the volume:
    when the volume is still allocated the call raises, and the layer
    object is no longer in the table. *)
Lemma remove_allocated_pops st a target image (k : string)
    (names : list string) :
  arg_target a = Some target →
  Dict.get target (images (self st)) = Some image →
  length (images (self st)) ≠ 1 →
  tagged st k names →
  target ∉ names ∨ (k = "chain" ∧ last names = Some target) →
  volume_allocated image st = (Ok true, st) →
  remove_image_object a st =
    (Raise (RuntimeError (NotReleased target)),
     with_self (λ i, set_images (Dict.del target (images i)) i) st).
Proof.
  intros Htarget Hget Hlen Ht Hpos Halloc.
  unfold remove_image_object. rewrite Htarget. run.
  unfold Dict.mem. rewrite Hget. cbn [negb].
  destruct (decide (length (images (self st)) = 1)); [done|].
  run_with (tagged_image_names _ _ _ Ht).
  assert (∀ f, volume_allocated image (with_self f st) =
               (Ok true, with_self f st)) as Halloc'.
  { intros f. revert Halloc. unfold volume_allocated, layer_volume_id.
    destruct (volume_id image); run; [|done].
    destruct (volumes st !! _); run; [|done]. by intros [= ->]. }
  destruct Hpos as [Hnin|[-> Hlast]].
  - rewrite bool_decide_eq_false_2 by done. run.
    by run_with (Halloc' (λ i, set_images (Dict.del target (images i)) i)).
  - destruct Ht as [Htopo _]. rewrite Htopo.
    destruct (bool_decide (target ∈ names)); run.
    + rewrite lookup_singleton_eq.
      destruct (decide (is_Some (Some names))) as [_|[]]; [|done].
      run_with (top_name_ok _ _ _ (image_names_chain _ _ Htopo) Hlast).
      rewrite bool_decide_eq_false_2 by (by intros []).
      rewrite lookup_singleton_ne by done.
      destruct (decide (is_Some (@None (list string)))) as [[? [=]]|].
      run. by run_with (Halloc' (λ i, set_images (Dict.del target (images i)) i)).
    + by run_with (Halloc' (λ i, set_images (Dict.del target (images i)) i)).
Qed.

(** *** Destroying what is left *)

(** With two or more layer objects left, the loop over [self.images]
    destroys the first and raises at the next step of the iteration. *)
Lemma destroy_remaining_mutated st k1 k2 rest st1 :
  Dict.keys (images (self st)) = k1 :: k2 :: rest →
  destroy_image_object k1 st = (Ok tt, st1) →
  destroy_remaining st = (Raise (RuntimeError MutatedDuringIteration), st1).
Proof.
  intros Hkeys Hfirst. unfold destroy_remaining. run. rewrite Hkeys.
  by run_with Hfirst.
Qed.

End facts.
End QemuVirImageFacts.

(** * Scenarios on a small cluster *)
Module Scenarios.
Import QemuVirImage QemuVirImageFacts.

(** One pool on two nodes; formats raw and qcow2; a [bind] without nodes
    binds node1. *)
Definition formats (image_format : string) : bool :=
  bool_decide (image_format ∈ ["raw"; "qcow2"]).

(** Every agent answers status 0. *)
Definition healthy : Cluster := {|
  get_qemu_image_class := formats;
  select_pool := λ _ _, Some "pool1";
  bind_nodes := λ _ _, ["node1"];
  backing_agent := λ _ _ _, (0%Z, "");
  image_agent := λ _ _ _ _, (0%Z, "");
|}.

(** The image agent answers [create] with status 1 and "disk full". *)
Definition disk_full : Cluster := {|
  get_qemu_image_class := formats;
  select_pool := λ _ _, Some "pool1";
  bind_nodes := λ _ _, ["node1"];
  backing_agent := λ _ _ _, (0%Z, "");
  image_agent := λ _ _ cmd _,
    if decide (cmd = "create") then (1%Z, "disk full") else (0%Z, "");
|}.

Definition layer_on (image_name image_format : string)
    (image_backing : option string) (v : nat) : qemu_image :=
  mk_qemu_image image_name image_format image_backing None (Some v).

Definition bound (is_allocated : bool) : volume :=
  mk_volume "pool1" is_allocated ["node1"].

Definition one_pool : gmap string (list string) :=
  {["pool1" := ["node1"; "node2"]]}.

(** The image "base" after [create_object]: one raw layer, its volume
    bound and not allocated. *)
Definition base_image : state :=
  let base := layer_on "base" "raw" None 0 in
  mk_state
    (mk_vir_image "base" {["none" := ["base"]]} [("base", base)] [("base", base)])
    one_pool {[0 := bound false]} 1 [].

(** The chain base <- sn, with the volume of sn allocated or not. *)
Definition chain_image (sn_allocated : bool) : state :=
  let base := layer_on "base" "raw" None 0 in
  let sn := layer_on "sn" "qcow2" (Some "base") 1 in
  mk_state
    (mk_vir_image "sn" {["chain" := ["base"; "sn"]]}
       [("base", base); ("sn", sn)] [("base", base); ("sn", sn)])
    one_pool {[0 := bound false; 1 := bound sn_allocated]} 2 [].

(** "base" with two more layers that are not on the topology. *)
Definition image_with_two_spares : state :=
  let base := layer_on "base" "raw" None 0 in
  let stg1 := layer_on "stg1" "qcow2" None 1 in
  let stg2 := layer_on "stg2" "qcow2" None 2 in
  mk_state
    (mk_vir_image "base" {["none" := ["base"]]}
       [("base", base); ("stg1", stg1); ("stg2", stg2)]
       [("base", base); ("stg1", stg1); ("stg2", stg2)])
    one_pool {[0 := bound false; 1 := bound false; 2 := bound false]} 3 [].

Definition target_only (target : string) : arguments :=
  mk_arguments (Some target) None None None None.

Definition add_arguments (target : string) (backing_chain : option bool)
    : arguments :=
  mk_arguments (Some target) (Some []) backing_chain None None.

Lemma consistent_base_image : consistent (self base_image).
Proof.
  exists ["base"]. split; [by left|]. split; [done|]. split.
  - apply NoDup_singleton.
  - done.
Defined.

Lemma consistent_chain_image b : consistent (self (chain_image b)).
Proof.
  exists ["base"; "sn"]. split; [right; split; [done|simpl; lia]|].
  split; [done|]. split.
  - apply NoDup_cons. split; [|apply NoDup_singleton].
    by intros ?%list_elem_of_singleton.
  - done.
Defined.

(** Scenario B runs: "sn" is added on top of "base". *)
Example scenario_b :
  add_image_object (cluster := healthy) (add_arguments "sn" (Some true))
    base_image
  = (Ok tt,
     let base := layer_on "base" "raw" None 0 in
     let sn := layer_on "sn" "qcow2" (Some "base") 1 in
     mk_state
       (mk_vir_image "sn" {["chain" := ["base"; "sn"]]}
          [("base", base); ("sn", sn)] [("base", base); ("sn", sn)])
       one_pool {[0 := bound false; 1 := bound false]} 2
       [CreateResource 1; UpdateResource 1 Bind]).
Proof. vm_compute. reflexivity. Qed.

(** Scenario C: the base of the chain cannot be removed, the top can, and
    the topology is back to [{none: ["base"]}]. *)
Example scenario_c :
  remove_image_object (cluster := healthy) (target_only "base")
    (chain_image false)
  = (Raise (ValueError (OnlyTopRemoved ["base"; "sn"])), chain_image false) ∧
  let r := remove_image_object (cluster := healthy) (target_only "sn")
             (chain_image false) in
  r.1 = Ok tt ∧ topology (self r.2) = {["none" := ["base"]]} ∧
  name (self r.2) = "base" ∧ Dict.keys (images (self r.2)) = ["base"].
Proof. vm_compute. done. Qed.

(** C1 as stated fails: a second layer added without [backing_chain]
    makes two layer objects under the topology [{none: ["base"]}]. *)
Lemma layer_count_counterexample :
  let st' := (add_image_object (cluster := healthy) (add_arguments "stg" None)
                base_image).2 in
  topology_matches_layer_count (self base_image) ∧
  add_image_object (cluster := healthy) (add_arguments "stg" None) base_image
    = (Ok tt, st') ∧
  length (images (self st')) = 2 ∧
  ¬ topology_matches_layer_count (self st').
Proof.
  intros st'. split; [split; [done|simpl; lia]|].
  split; [by vm_compute|]. split; [by vm_compute|].
  intros [_ H]. destruct H as (names & Htopo & _); [vm_compute; lia|].
  assert (topology (self st') = {["none" := ["base"]]}) as E by (by vm_compute).
  rewrite E in Htopo. apply (f_equal (.!! "none")) in Htopo.
  rewrite lookup_singleton_eq, lookup_singleton_ne in Htopo; done.
Qed.

Lemma topology_consistent_preserved_witness :
  let a := add_arguments "sn" (Some true) in
  let st' := (add_image_object (cluster := healthy) a base_image).2 in
  consistent (self base_image) ∧
  (add_image_object (cluster := healthy) a base_image = (Ok tt, st') ∨
   remove_image_object (cluster := healthy) a base_image = (Ok tt, st') ∨
   qemu_img_rebase (cluster := healthy) a base_image = (Ok tt, st')) ∧
  consistent (self st').
Proof.
  intros a st'.
  assert (add_image_object (cluster := healthy) a base_image = (Ok tt, st'))
    as Hrun by (vm_compute; reflexivity).
  split; [apply consistent_base_image|]. split; [left; exact Hrun|].
  apply (topology_consistent_preserved (cluster := healthy) base_image a st'
           consistent_base_image).
  left. exact Hrun.
Defined.

(** Scenario E: the agent reports "disk full"; [create] raises with that
    text, and the volume of "base" is marked allocated. *)
Definition after_disk_full : state :=
  let base := layer_on "base" "raw" None 0 in
  mk_state
    (mk_vir_image "base" {["none" := ["base"]]} [("base", base)] [("base", base)])
    one_pool {[0 := bound true]} 1
    [UpdateResource 0 Allocate; UpdateImage "node1" "create" no_arguments].

(** C2 as stated fails in its second half: after the remote failure a
    layer is marked allocated. *)
Lemma create_failure_counterexample :
  @image_agent disk_full base_image "node1" "create" no_arguments
    = (1%Z, "disk full") ∧
  (∀ tag, ¬ layer_allocated base_image tag) ∧
  create (cluster := disk_full) no_arguments base_image
    = (Raise (Exception "disk full"), after_disk_full) ∧
  ¬ (∀ tag, ¬ layer_allocated after_disk_full tag).
Proof.
  split; [done|]. split; [|split; [by vm_compute|]].
  - intros tag (image & v & Hget & Hv & vol & Hvol & Ha).
    simpl in Hget. destruct (decide (tag = "base")); [|done].
    injection Hget as <-. injection Hv as <-.
    vm_compute in Hvol. injection Hvol as <-. done.
  - intros H. apply (H "base"). exists (layer_on "base" "raw" None 0), 0.
    split; [done|]. split; [done|]. exists (bound true). by vm_compute.
Qed.

Lemma create_remote_failure_witness :
  let st1 :=
    mk_state (self base_image) one_pool {[0 := bound true]} 1
      [UpdateResource 0 Allocate] in
  (image_access_nodes base_image
     = (Ok ["node1"], base_image) ∧
   check_top None OnlyTopCreated base_image = (Ok tt, base_image) ∧
   target_or None image_names base_image = (Ok ["base"], base_image) ∧
   for_each ["base"]
     (λ tag, image <- layer tag ;;
             layer_create (cluster := disk_full) image no_arguments)
     base_image = (Ok tt, st1) ∧
   @image_agent disk_full st1 "node1" "create" no_arguments
     = (1%Z, "disk full") ∧
   1%Z ≠ 0%Z) ∧
  create (cluster := disk_full) no_arguments base_image
    = (Raise (Exception "disk full"),
       record (UpdateImage "node1" "create" no_arguments) st1) ∧
  ∀ tag, tag ∈ ["base"] →
    layer_allocated (record (UpdateImage "node1" "create" no_arguments) st1)
      tag.
Proof.
  intros st1.
  assert (image_access_nodes base_image
            = (Ok ["node1"], base_image)) as H1 by (vm_compute; reflexivity).
  assert (check_top None OnlyTopCreated base_image = (Ok tt, base_image))
    as H2 by (vm_compute; reflexivity).
  assert (target_or None image_names base_image = (Ok ["base"], base_image))
    as H3 by (vm_compute; reflexivity).
  assert (for_each ["base"]
            (λ tag, image <- layer tag ;;
                    layer_create (cluster := disk_full) image no_arguments)
            base_image = (Ok tt, st1)) as H4 by (vm_compute; reflexivity).
  assert (@image_agent disk_full st1 "node1" "create" no_arguments
            = (1%Z, "disk full")) as H5 by reflexivity.
  assert (1%Z ≠ 0%Z) as H6 by lia.
  split; [repeat split; assumption|].
  exact (create_remote_failure (cluster := disk_full) base_image no_arguments
           "node1" [] ["base"] st1 1%Z "disk full" H1 H2 H3 H4 H5 H6).
Defined.

Lemma only_top_of_chain_witness :
  let st := chain_image false in
  let a := target_only "base" in
  (topology (self st) = {["chain" := ["base"; "sn"]]} ∧
   2 ≤ length ["base"; "sn"] ∧
   "base" ∈ ["base"; "sn"] ∧
   last ["base"; "sn"] ≠ Some "base" ∧
   arg_target a = Some "base") ∧
  (∃ e, remove_image_object (cluster := healthy) a st = (Raise e, st)) ∧
  (∃ e, create (cluster := healthy) a st = (Raise e, st)) ∧
  destroy (cluster := healthy) a st
    = (Raise (ValueError (OnlyTopDestroyed ["base"; "sn"])), st).
Proof.
  intros st a.
  assert (topology (self st) = {["chain" := ["base"; "sn"]]}) as H1
    by reflexivity.
  assert (2 ≤ length ["base"; "sn"]) as H2 by (simpl; lia).
  assert ("base" ∈ ["base"; "sn"]) as H3 by (apply list_elem_of_here).
  assert (last ["base"; "sn"] ≠ Some "base") as H4 by (simpl; discriminate).
  assert (arg_target a = Some "base") as H5 by reflexivity.
  split; [repeat split; assumption|].
  exact (only_top_of_chain (cluster := healthy) st a "base" ["base"; "sn"]
           H1 H2 H3 H4 H5).
Defined.

Lemma add_on_top_of_chain_witness :
  let st := base_image in
  let a := add_arguments "sn" (Some true) in
  (tagged st "none" ["base"] ∧
   last ["base"] = Some "base" ∧
   arg_target a = Some "sn" ∧
   arg_target_params a = Some [] ∧
   arg_backing_chain a = Some true ∧
   Dict.mem "sn" (images (self st)) = false ∧
   image_access_nodes st = (Ok ["node1"], st) ∧
   default [] (arg_nodes a) ⊆ ["node1"] ∧
   @get_qemu_image_class healthy
     (default "qcow2" (Dict.get "image_format" [])) = true ∧
   @select_pool healthy st [] = Some "pool1" ∧
   is_Some (pools st !! "pool1")) ∧
  ∃ st' image,
    add_image_object (cluster := healthy) a st = (Ok tt, st') ∧
    Dict.get "sn" (images (self st')) = Some image ∧
    backing image = Some "base" ∧
    name (self st') = "sn" ∧
    topology (self st') = {["chain" := ["base"; "sn"]]}.
Proof.
  intros st a.
  assert (tagged st "none" ["base"]) as H1 by (split; [reflexivity|by left]).
  assert (last ["base"] = Some "base") as H2 by reflexivity.
  assert (arg_target a = Some "sn") as H3 by reflexivity.
  assert (arg_target_params a = Some []) as H4 by reflexivity.
  assert (arg_backing_chain a = Some true) as H5 by reflexivity.
  assert (Dict.mem "sn" (images (self st)) = false) as H6 by reflexivity.
  assert (image_access_nodes st = (Ok ["node1"], st))
    as H7 by (vm_compute; reflexivity).
  assert (default [] (arg_nodes a) ⊆ ["node1"]) as H8
    by (simpl; apply list_subseteq_nil).
  assert (@get_qemu_image_class healthy
            (default "qcow2" (Dict.get "image_format" [])) = true) as H9
    by (vm_compute; reflexivity).
  assert (@select_pool healthy st [] = Some "pool1") as H10
    by reflexivity.
  assert (is_Some (pools st !! "pool1")) as H11 by (vm_compute; eauto).
  split; [repeat split; try assumption; by left|].
  exact (add_on_top_of_chain (cluster := healthy) st a "sn" [] "none"
           ["base"] "base" ["node1"] "pool1"
           H1 H2 H3 H4 H5 H6 H7 H8 H9 H10 H11).
Defined.

Lemma add_existing_target_rejected_witness :
  let st := base_image in
  let a := add_arguments "base" (Some true) in
  (arg_target a = Some "base" ∧ Dict.mem "base" (images (self st)) = true) ∧
  ∃ e, add_image_object (cluster := healthy) a st = (Raise e, st) ∧
       (is_Some (arg_target_params a) →
        (∀ err, (image_access_nodes st).1 ≠ Raise err) →
        e = ValueError (AlreadyExisted "base")).
Proof.
  intros st a.
  assert (arg_target a = Some "base") as H1 by reflexivity.
  assert (Dict.mem "base" (images (self st)) = true) as H2 by reflexivity.
  split; [by split|].
  exact (add_existing_target_rejected (cluster := healthy) st a "base" H1 H2).
Defined.

(** C3 on the chain base <- sn with the volume of sn allocated: the call
    raises, and "sn" is gone from the layer table while the name and the
    topology still have it. *)
Theorem remove_allocated_drops_layer :
  let st := chain_image true in
  let r := remove_image_object (cluster := healthy) (target_only "sn") st in
  r.1 = Raise (RuntimeError (NotReleased "sn")) ∧
  Dict.keys (images (self st)) = ["base"; "sn"] ∧
  Dict.keys (images (self r.2)) = ["base"] ∧
  name (self r.2) = "sn" ∧
  topology (self r.2) = {["chain" := ["base"; "sn"]]}.
Proof. by vm_compute. Qed.

(** C7 on "base" with two layers off the topology: "base" and "stg1" are
    destroyed, then the iteration raises and "stg2" is left, its volume
    still registered. *)
Theorem destroy_object_leaves_layer :
  let st := image_with_two_spares in
  let r := destroy_object (cluster := healthy) st in
  r.1 = Raise (RuntimeError MutatedDuringIteration) ∧
  Dict.keys (images (self r.2)) = ["stg2"] ∧
  trace r.2 = [UpdateResource 0 Unbind; DestroyResource 0;
               UpdateResource 1 Unbind; DestroyResource 1] ∧
  is_Some (volumes r.2 !! 2).
Proof. vm_compute. eauto 10. Qed.

End Scenarios.
(** * Properties of documents *)
Module DocFacts.
Import Doc PyFacts.

(** The document under a value, without the addresses. *)
Unset Elimination Schemes.
Inductive tree :=
  | TNone
  | TBool (b : bool)
  | TInt (n : Z)
  | TStr (s : string)
  | TDict (items : dict tree)
  | TList (items : list tree).
Set Elimination Schemes.

(** The tree of an object from the trees of its values. *)
Definition rebuild (o : object) (ts : list tree) : tree :=
  match o with
  | ODict items => TDict (zip items.*1 ts)
  | OList _ => TList ts
  end.

(** The document that [v] holds on the heap [h], read down to depth [n];
    nothing when it is deeper or refers to no object. *)
Fixpoint read (n : nat) (h : heap) (v : value) : option tree :=
  match v with
  | VNone => Some TNone
  | VBool b => Some (TBool b)
  | VInt z => Some (TInt z)
  | VStr s => Some (TStr s)
  | VRef l =>
      match n with
      | 0 => None
      | S n' =>
          o ← h !! l;
          ts ← mapM (read n' h) (obj_values o);
          Some (rebuild o ts)
      end
  end.

(** [v] holds the document [t]. *)
Definition content (h : heap) (v : value) (t : tree) : Prop :=
  ∃ n, read n h v = Some t.

(** The addresses [read] visits, one entry for each visit. *)
Fixpoint cells (n : nat) (h : heap) (v : value) : list nat :=
  match v, n with
  | VRef l, S n' =>
      l :: match h !! l with
           | Some o => mjoin (cells n' h <$> obj_values o)
           | None => []
           end
  | _, _ => []
  end.

(** The objects that can be reached from a value. *)
Inductive reaches (h : heap) : value → nat → Prop :=
  | reaches_here l : reaches h (VRef l) l
  | reaches_in l o v l' :
      h !! l = Some o → v ∈ obj_values o → reaches h v l' →
      reaches h (VRef l) l'.

(** From address [b] on, the objects refer to addresses from [b] on. *)
Definition fresh_value (b : nat) (v : value) : Prop :=
  ∀ l, v = VRef l → b ≤ l.
Definition fresh_region (b : nat) (h : heap) : Prop :=
  ∀ l o, b ≤ l → h !! l = Some o → Forall (fresh_value b) (obj_values o).

Lemma reaches_fresh b h v l :
  fresh_region b h → fresh_value b v → reaches h v l → b ≤ l.
Proof.
  intros Hreg Hv Hr. induction Hr as [l|l o v l' Ho Hin _ IH].
  - by apply Hv.
  - apply IH. assert (b ≤ l) as Hl by (by apply Hv).
    pose proof (Hreg l o Hl Ho) as Hall.
    rewrite Forall_forall in Hall. by apply Hall.
Qed.

Lemma read_mono n m h v t :
  n ≤ m → read n h v = Some t → read m h v = Some t.
Proof.
  revert m v t. induction n as [|n IH]; intros m v t Hle;
    destruct v; simpl; try done; try by (destruct m).
  destruct m as [|m]; [lia|]. simpl.
  destruct (h !! l) as [o|]; simpl; [|done].
  destruct (mapM (read n h) (obj_values o)) as [ts|] eqn:Hts; simpl; [|done].
  intros [= <-].
  assert (mapM (read m h) (obj_values o) = Some ts) as ->; [|done].
  apply mapM_Some. apply mapM_Some in Hts.
  eapply Forall2_impl; [exact Hts|]. intros x y. apply IH. lia.
Qed.

Lemma mapM_elem {A B} (f : A → option B) xs ys x :
  mapM f xs = Some ys → x ∈ xs → ∃ y, f x = Some y.
Proof.
  intros H Hin. assert (is_Some (mapM f xs)) as Hs by eauto.
  apply mapM_is_Some in Hs. rewrite Forall_forall in Hs.
  destruct (Hs x Hin) as [y Hy]. eauto.
Qed.

Lemma cells_valid n h v t :
  read n h v = Some t → ∀ l, l ∈ cells n h v → l < length h.
Proof.
  revert v t. induction n as [|n IH]; intros v t; destruct v; simpl;
    try (by intros _ ? ?%elem_of_nil).
  destruct (h !! l) as [o|] eqn:Ho; simpl; [|done].
  destruct (mapM (read n h) (obj_values o)) as [ts|] eqn:Hts; simpl; [|done].
  intros _ l' [->|Hin]%elem_of_cons.
  - by eapply lookup_lt_Some.
  - apply list_elem_of_join in Hin as (cs & Hl' & Hcs).
    apply list_elem_of_fmap in Hcs as (x & -> & Hx).
    destruct (mapM_elem _ _ _ _ Hts Hx) as [y Hy]. eauto.
Qed.

(** [read] looks at the objects of [cells] only. *)
Lemma read_agree n h1 h2 v :
  (∀ l, l ∈ cells n h1 v → h1 !! l = h2 !! l) →
  read n h2 v = read n h1 v ∧ cells n h2 v = cells n h1 v.
Proof.
  revert v. induction n as [|n IH]; intros v; destruct v; simpl; try done.
  intros Hag. rewrite <- (Hag l) by apply list_elem_of_here.
  destruct (h1 !! l) as [o|] eqn:Ho; simpl; [|done].
  assert (Forall (λ x, read n h2 x = read n h1 x ∧
                       cells n h2 x = cells n h1 x) (obj_values o)) as Hall.
  { apply Forall_forall. intros x Hx. apply IH. intros l' Hl'. apply Hag.
    apply list_elem_of_further, list_elem_of_join.
    exists (cells n h1 x). split; [done|].
    apply list_elem_of_fmap. eauto. }
  split.
  - rewrite (Forall_mapM_ext (read n h2) (read n h1)); [done|].
    eapply Forall_impl; [exact Hall|]. by intros x [? _].
  - f_equal. f_equal. apply Forall_fmap_ext.
    eapply Forall_impl; [exact Hall|]. by intros x [_ ?].
Qed.

(** Growing the heap changes no document. *)
Lemma read_app n h k v t :
  read n h v = Some t →
  read n (h ++ k) v = Some t ∧ cells n (h ++ k) v = cells n h v.
Proof.
  intros Hr. rewrite <- Hr. apply read_agree. intros l Hl.
  symmetry. apply lookup_app_l. by eapply cells_valid.
Qed.

(** Storing at an address the document is not made of changes nothing. *)
Lemma read_insert n h l o v :
  l ∉ cells n h v →
  read n (<[l := o]> h) v = read n h v ∧
  cells n (<[l := o]> h) v = cells n h v.
Proof.
  intros Hl. apply read_agree. intros l' Hl'.
  symmetry. apply list_lookup_insert_ne. by intros ->.
Qed.

(** *** Deep copies *)

(** What a copy [v'] of the document [t], made of the new objects [new]
    on top of [h], is: it holds [t]; it is a tree of its own, no object
    visited twice; and it is made of new objects only. *)
Record copied (n : nat) (h : heap) (t : tree) (v' : value)
    (new : list object) : Prop := {
  copied_read : read n (h ++ new) v' = Some t;
  copied_NoDup : NoDup (cells n (h ++ new) v');
  copied_cells : ∀ l, l ∈ cells n (h ++ new) v' → length h ≤ l;
  copied_value : fresh_value (length h) v';
  copied_new : Forall (λ o, Forall (fresh_value (length h)) (obj_values o)) new;
}.

Record copied_all (n : nat) (h : heap) (ts : list tree) (vs' : list value)
    (new : list object) : Prop := {
  copied_all_read : mapM (read n (h ++ new)) vs' = Some ts;
  copied_all_NoDup : NoDup (mjoin (cells n (h ++ new) <$> vs'));
  copied_all_cells :
    ∀ l, l ∈ mjoin (cells n (h ++ new) <$> vs') → length h ≤ l;
  copied_all_values : Forall (fresh_value (length h)) vs';
  copied_all_new :
    Forall (λ o, Forall (fresh_value (length h)) (obj_values o)) new;
}.

Lemma fresh_value_mono b b' v : b ≤ b' → fresh_value b' v → fresh_value b v.
Proof. intros Hle H l Hl. specialize (H l Hl). lia. Qed.

Lemma mapM_read_app n h k vs ts :
  mapM (read n h) vs = Some ts →
  mapM (read n (h ++ k)) vs = Some ts ∧
  cells n (h ++ k) <$> vs = cells n h <$> vs.
Proof.
  intros H. apply mapM_Some in H. split.
  - apply mapM_Some. eapply Forall2_impl; [exact H|].
    intros x y Hxy. by apply read_app.
  - apply Forall_fmap_ext. apply Forall_forall. intros x Hx.
    apply list_elem_of_lookup in Hx as [i Hi].
    destruct (Forall2_lookup_l _ _ _ _ _ H Hi) as (y & _ & Hy).
    by eapply read_app.
Qed.

Lemma mapM_read_cells_valid n h vs ts l :
  mapM (read n h) vs = Some ts →
  l ∈ mjoin (cells n h <$> vs) → l < length h.
Proof.
  intros H Hl. apply list_elem_of_join in Hl as (cs & Hl & Hcs).
  apply list_elem_of_fmap in Hcs as (x & -> & Hx).
  destruct (mapM_elem _ _ _ _ H Hx) as [y Hy]. by eapply cells_valid.
Qed.

Lemma copy_all_spec n copy :
  (∀ v h t, read n h v = Some t →
     ∃ v' new, copy v h = Some (v', h ++ new) ∧ copied n h t v' new) →
  ∀ vs h ts, mapM (read n h) vs = Some ts →
    ∃ vs' new, copy_all copy vs h = Some (vs', h ++ new) ∧
      copied_all n h ts vs' new ∧ length vs' = length vs.
Proof.
  intros Hcopy vs. induction vs as [|v vs IH]; intros h ts Hts.
  - injection Hts as <-. exists [], []. rewrite app_nil_r.
    split; [done|]. split; [|done].
    split; simpl; rewrite ?app_nil_r; try done.
    + apply NoDup_nil_2.
    + by intros ? ?%elem_of_nil.
  - apply mapM_Some in Hts. apply Forall2_cons_inv_l in Hts
      as (t & ts' & Ht & Hts' & ->).
    apply mapM_Some in Hts'.
    destruct (Hcopy v h t Ht) as (v' & new1 & Hv & [H1 H2 H3 H4 H5]).
    destruct (mapM_read_app n h new1 vs ts' Hts') as [Hrest _].
    destruct (IH (h ++ new1) ts' Hrest)
      as (vs' & new2 & Hvs & [G1 G2 G3 G4 G5] & Hlen).
    exists (v' :: vs'), (new1 ++ new2). simpl.
    rewrite Hv. simpl. rewrite Hvs. simpl. rewrite <- app_assoc.
    split; [done|]. split; [|by rewrite Hlen].
    rewrite length_app in *.
    destruct (read_app n (h ++ new1) new2 v' t H1) as [R1 R2].
    rewrite <- app_assoc in *.
    split; simpl.
    + rewrite R1. simpl. by rewrite G1.
    + rewrite R2. apply NoDup_app. split; [done|]. split; [|done].
      intros l Hl Hl'. apply G3 in Hl'.
      apply (cells_valid _ _ _ _ H1) in Hl. rewrite length_app in Hl. lia.
    + rewrite R2. intros l [Hl|Hl]%elem_of_app; [by apply H3|].
      apply G3 in Hl. lia.
    + constructor; [done|]. eapply Forall_impl; [exact G4|].
      intros x. apply fresh_value_mono. lia.
    + apply Forall_app. split; [done|].
      eapply Forall_impl; [exact G5|]. intros o Ho.
      eapply Forall_impl; [exact Ho|]. intros x. apply fresh_value_mono. lia.
Qed.

Lemma read_rebuild_with_values n h o vs ts :
  length vs = length (obj_values o) →
  mapM (read n h) vs = Some ts →
  obj_values (with_values o vs) = vs ∧
  rebuild (with_values o vs) ts = rebuild o ts.
Proof.
  intros Hlen Hts. destruct o as [items|items]; simpl in *; [|done].
  rewrite length_fmap in Hlen. split.
  - apply snd_zip. rewrite length_fmap. lia.
  - f_equal. f_equal. apply fst_zip. rewrite length_fmap. lia.
Qed.

(** [deepcopy] succeeds on every document within the recursion limit,
    and its result is a copy. *)
Lemma deepcopy_spec n v h t :
  read n h v = Some t →
  ∃ v' new, deepcopy n v h = Some (v', h ++ new) ∧ copied n h t v' new.
Proof.
  revert v h t. induction n as [|n IH]; intros v h t Hread.
  - destruct v; try discriminate; eexists _, []; rewrite app_nil_r;
      (split; [done|]); (split; simpl; rewrite ?app_nil_r; try done;
        [apply NoDup_nil_2|by intros ? ?%elem_of_nil|done..]).
  - destruct v; try (eexists _, []; rewrite app_nil_r;
      (split; [done|]); (split; simpl; rewrite ?app_nil_r; try done;
        [apply NoDup_nil_2|by intros ? ?%elem_of_nil|done..])).
    simpl in Hread. simpl.
    destruct (h !! l) as [o|] eqn:Ho; simpl in *; [|done].
    destruct (mapM (read n h) (obj_values o)) as [ts|] eqn:Hts;
      simpl in *; [|done].
    injection Hread as <-.
    destruct (copy_all_spec n (deepcopy n) IH _ _ _ Hts)
      as (vs' & new & Hcopy & [G1 G2 G3 G4 G5] & Hlen).
    rewrite Hcopy. simpl.
    exists (VRef (length (h ++ new))), (new ++ [with_values o vs']).
    rewrite <- app_assoc. split; [done|].
    destruct (read_rebuild_with_values n _ o vs' ts Hlen G1) as [Hvals Hreb].
    destruct (mapM_read_app n (h ++ new) [with_values o vs'] vs' ts G1)
      as [R1 R2].
    rewrite <- app_assoc in R1, R2.
    assert ((h ++ new ++ [with_values o vs']) !! length (h ++ new)
            = Some (with_values o vs')) as Hroot.
    { rewrite app_assoc. apply list_lookup_middle. done. }
    split; simpl; rewrite ?Hroot; simpl; rewrite ?Hvals.
    + rewrite R1. simpl. by rewrite Hreb.
    + rewrite R2. apply NoDup_cons. split; [|done].
      intros Hin%(mapM_read_cells_valid _ _ _ _ _ G1). lia.
    + rewrite R2. intros l' [->|Hl']%elem_of_cons.
      * rewrite length_app. lia.
      * by apply G3.
    + intros ? [= <-]. rewrite length_app. lia.
    + apply Forall_app. split; [done|]. constructor; [|done].
      by rewrite Hvals.
Qed.

Lemma copied_fresh_region n h t v' new :
  copied n h t v' new → fresh_region (length h) (h ++ new).
Proof.
  intros [_ _ _ _ Hnew] l o Hl Ho.
  rewrite lookup_app_r in Ho by done.
  rewrite Forall_forall in Hnew. apply Hnew.
  by eapply list_elem_of_lookup_2.
Qed.

(** *** Documents that are dictionaries *)

Lemma dict_get_zip {A} (f : value → option A) (items : dict value) ts k :
  mapM f items.*2 = Some ts →
  Dict.get k (zip items.*1 ts) = Dict.get k items ≫= f.
Proof.
  revert ts. induction items as [|[k' v] items IH]; intros ts Hts.
  - by injection Hts as <-.
  - rewrite fmap_cons in Hts. apply mapM_Some in Hts.
    apply Forall2_cons_inv_l in Hts as (t & ts' & Ht & Hts' & ->).
    simpl in Ht.
    apply mapM_Some in Hts'. simpl.
    destruct (decide (k = k')); [done|]. by apply IH.
Qed.

Lemma mapM_cons_Some {A B} (f : A → option B) x xs y ys :
  f x = Some y → mapM f xs = Some ys → mapM f (x :: xs) = Some (y :: ys).
Proof. intros Hx Hxs. apply mapM_Some. constructor; [done|by apply mapM_Some]. Qed.

Lemma mapM_dict_set {A} (f : value → option A) (items : dict value) ts k x tx :
  mapM f items.*2 = Some ts → f x = Some tx →
  ∃ ts', mapM f (Dict.set k x items).*2 = Some ts' ∧
         zip (Dict.set k x items).*1 ts' = Dict.set k tx (zip items.*1 ts).
Proof.
  intros Hts Hx. revert ts Hts.
  induction items as [|[k' v] items IH]; intros ts Hts.
  - injection Hts as <-. exists [tx]. split; [|done].
    by apply mapM_cons_Some.
  - rewrite fmap_cons in Hts. apply mapM_Some in Hts.
    apply Forall2_cons_inv_l in Hts as (t & ts' & Ht & Hts' & ->).
    simpl in Ht.
    apply mapM_Some in Hts'. cbn [Dict.set].
    destruct (decide (k = k')) as [->|Hne].
    + exists (tx :: ts'). split; [by apply mapM_cons_Some|].
      simpl. by destruct (decide (k' = k')).
    + destruct (IH _ Hts') as (ts'' & H1 & H2).
      exists (t :: ts''). split; [by apply mapM_cons_Some|].
      rewrite !fmap_cons. cbn [zip_with fst Dict.set].
      destruct (decide (k = k')); [done|]. by rewrite H2.
Qed.

Lemma dict_set_values_Forall {V} (P : V → Prop) k x (items : dict V) :
  P x → Forall P items.*2 → Forall P (Dict.set k x items).*2.
Proof.
  intros Hx. induction items as [|[k' v] items IH]; simpl.
  - by constructor.
  - intros [Hv Hitems]%Forall_cons. destruct (decide (k = k')); simpl.
    + by constructor.
    + constructor; auto.
Qed.

(** Values that do not visit [l] read the same after a store at [l]. *)
Lemma mapM_read_insert n m h l o vs ts :
  n ≤ m →
  mapM (read n h) vs = Some ts →
  l ∉ mjoin (cells n h <$> vs) →
  mapM (read m (<[l := o]> h)) vs = Some ts.
Proof.
  intros Hle Hts Hl. apply mapM_Some. apply mapM_Some in Hts.
  induction Hts as [|x t vs ts Hx _ IH]; [constructor|].
  simpl in Hl. apply not_elem_of_app in Hl as [Hl1 Hl2].
  constructor; [|by apply IH].
  apply (read_mono n); [done|].
  destruct (read_insert n h l o x Hl1) as [-> _]. done.
Qed.

(** One value of a dictionary holds another document after a store at
    its address; the rest of the dictionary is as before. *)
Lemma mapM_read_child n m h l o (items : dict value) ts k tc :
  0 < n → n ≤ m →
  mapM (read n h) items.*2 = Some ts →
  NoDup (mjoin (cells n h <$> items.*2)) →
  Dict.get k items = Some (VRef l) →
  read m (<[l := o]> h) (VRef l) = Some tc →
  ∃ ts', mapM (read m (<[l := o]> h)) items.*2 = Some ts' ∧
         zip items.*1 ts' = Dict.set k tc (zip items.*1 ts).
Proof.
  intros Hn Hle Hts Hnd Hget Hc. revert ts Hts Hnd Hget.
  induction items as [|[k' v] items IH]; intros ts Hts Hnd Hget; [done|].
  rewrite fmap_cons in Hts. apply mapM_Some in Hts.
  apply Forall2_cons_inv_l in Hts as (t & ts' & Ht & Hts' & ->).
    simpl in Ht.
  apply mapM_Some in Hts'.
  rewrite !fmap_cons in Hnd. cbn [mjoin list_join snd] in Hnd.
  apply NoDup_app in Hnd as (Hnd1 & Hdisj & Hnd2).
  cbn [Dict.get] in Hget.
  destruct (decide (k = k')) as [->|Hne].
  - injection Hget as ->.
    assert (l ∈ cells n h (VRef l)) as Hl.
    { destruct n; [lia|]. apply list_elem_of_here. }
    exists (tc :: ts'). split.
    + apply mapM_cons_Some; [done|].
      apply (mapM_read_insert n m h l o _ _ Hle Hts'). by apply Hdisj.
    + simpl. by destruct (decide (k' = k')).
  - assert (l ∈ mjoin (cells n h <$> items.*2)) as Hl.
    { apply list_elem_of_join. exists (cells n h (VRef l)). split.
      - destruct n; [lia|]. apply list_elem_of_here.
      - apply list_elem_of_fmap. exists (VRef l). split; [done|].
        clear -Hget. induction items as [|[k2 v2] items IH]; [done|].
        cbn [Dict.get] in Hget. rewrite fmap_cons.
        destruct (decide (k = k2)).
        + injection Hget as ->. apply list_elem_of_here.
        + apply list_elem_of_further. auto. }
    destruct (IH _ Hts' Hnd2 Hget) as (ts'' & H1 & H2).
    exists (t :: ts''). split.
    + apply mapM_cons_Some; [|done]. simpl.
      apply (read_mono n); [done|].
      destruct (read_insert n h l o v) as [-> _]; [|done].
      intros Hin. by apply (Hdisj l).
    + rewrite !fmap_cons. cbn [zip_with fst Dict.set].
      destruct (decide (k = k')); [done|]. by rewrite H2.
Qed.

Lemma read_dict n h l (items : dict value) ts :
  h !! l = Some (ODict items) →
  mapM (read n h) items.*2 = Some ts →
  read (S n) h (VRef l) = Some (TDict (zip items.*1 ts)).
Proof. intros Ho Hts. simpl. rewrite Ho. simpl. by rewrite Hts. Qed.

Lemma read_dict_inv n h v items :
  read n h v = Some (TDict items) →
  ∃ l n' oitems ts,
    v = VRef l ∧ n = S n' ∧ h !! l = Some (ODict oitems) ∧
    mapM (read n' h) oitems.*2 = Some ts ∧ items = zip oitems.*1 ts.
Proof.
  destruct n as [|n']; destruct v as [| | | |l]; try discriminate. simpl.
  destruct (h !! l) as [[oitems|oitems]|] eqn:Ho; simpl; [| |done].
  - destruct (mapM _ _) as [ts|] eqn:Hts; simpl; [|done].
    intros [= <-]. by exists l, n', oitems, ts.
  - by destruct (mapM _ _).
Qed.

Lemma dict_get_values {V} k (items : dict V) v :
  Dict.get k items = Some v → v ∈ items.*2.
Proof.
  induction items as [|[k' v'] items IH]; [done|]. simpl.
  destruct (decide (k = k')).
  - intros [= ->]. apply list_elem_of_here.
  - intros H. apply list_elem_of_further. auto.
Qed.

Lemma NoDup_join_elem {A} (ls : list (list A)) l :
  NoDup (mjoin ls) → l ∈ ls → NoDup l.
Proof.
  induction ls as [|l' ls IH]; [by intros _ ?%elem_of_nil|]. simpl.
  intros (? & _ & ?)%NoDup_app [->|?]%elem_of_cons; auto.
Qed.

Lemma fresh_region_app b h new :
  length h ≤ b + length h - b →
  Forall (λ o, Forall (fresh_value b) (obj_values o)) new →
  b ≤ length h →
  fresh_region b h → fresh_region b (h ++ new).
Proof.
  intros _ Hnew Hb Hreg l o Hl Ho.
  apply lookup_app_Some in Ho as [Ho|[_ Ho]]; [by eapply Hreg|].
  rewrite Forall_forall in Hnew. apply Hnew.
  by eapply list_elem_of_lookup_2.
Qed.

(** A copy of one document is stored under a key of another copy:
    [v1[k1][k2] = vp]. *)
Lemma embed_copy n h v1 new1 vp new2 items meta tp k1 k2 :
  copied n h (TDict items) v1 new1 →
  copied n (h ++ new1) tp vp new2 →
  Dict.get k1 items = Some (TDict meta) →
  ∃ lm h3,
    getitem v1 k1 (h ++ new1 ++ new2) = (Ok (VRef lm), h ++ new1 ++ new2) ∧
    setitem (VRef lm) k2 vp (h ++ new1 ++ new2) = (Ok tt, h3) ∧
    read (S (S n)) h3 v1 =
      Some (TDict (Dict.set k1 (TDict (Dict.set k2 tp meta)) items)) ∧
    (∃ new, h3 = h ++ new) ∧
    fresh_region (length h) h3.
Proof.
  intros [R1 N1 C1 V1 F1] [R2 N2 C2 V2 F2] Hget.
  rewrite <- app_assoc in R2, N2, C2.
  apply read_dict_inv in R1 as (l1 & n' & oitems & ts & -> & -> & Ho & Hts & ->).
  rewrite (dict_get_zip _ _ _ _ Hts) in Hget.
  destruct (Dict.get k1 oitems) as [vm|] eqn:Hvm; [|done]. simpl in Hget.
  apply read_dict_inv in Hget
    as (lm & n'' & mitems & tms & -> & -> & Hm & Htms & ->).
  set (h1 := h ++ new1) in *. set (h2 := h ++ new1 ++ new2) in *.
  assert (h2 = h1 ++ new2) as Hh2 by (subst h1 h2; by rewrite app_assoc).
  assert (h2 !! l1 = Some (ODict oitems)) as Ho2.
  { rewrite Hh2. by apply lookup_app_l_Some. }
  assert (h2 !! lm = Some (ODict mitems)) as Hm2.
  { rewrite Hh2. by apply lookup_app_l_Some. }
  cbn [cells] in N1, C1. rewrite Ho in N1, C1.
  apply NoDup_cons in N1 as [Hl1 N1].
  assert (VRef lm ∈ oitems.*2) as Hvin by (by eapply dict_get_values).
  assert (lm ∈ mjoin (cells (S n'') h1 <$> oitems.*2)) as Hlm.
  { apply list_elem_of_join. exists (cells (S n'') h1 (VRef lm)). split.
    - apply list_elem_of_here.
    - apply list_elem_of_fmap. by exists (VRef lm). }
  assert (NoDup (cells (S n'') h1 (VRef lm))) as Nm.
  { eapply NoDup_join_elem; [exact N1|].
    apply list_elem_of_fmap. by exists (VRef lm). }
  cbn [cells] in Nm. rewrite Hm in Nm. apply NoDup_cons in Nm as [Hlm' Nm].
  destruct (mapM_read_app _ h1 new2 _ _ Hts) as [Hts2 Hcs2].
  destruct (mapM_read_app _ h1 new2 _ _ Htms) as [Htms2 Hcms2].
  rewrite <- Hh2 in Hts2, Hcs2, Htms2, Hcms2.
  assert (lm < length h1) as Hlm1 by (by eapply lookup_lt_Some).
  assert (length h ≤ lm) as Hlm0.
  { apply C1. by apply list_elem_of_further. }
  exists lm, (<[lm := ODict (Dict.set k2 vp mitems)]> h2).
  split; [|split; [|split; [|split]]].
  - unfold getitem. simpl. by rewrite Ho2, Hvm.
  - unfold setitem. simpl. by rewrite Hm2.
  - (* the meta dictionary after the store *)
    assert (read (S (S (S n''))) (<[lm := ODict (Dict.set k2 vp mitems)]> h2)
              (VRef lm)
            = Some (TDict (Dict.set k2 tp (zip mitems.*1 tms)))) as Hmeta.
    { destruct (mapM_dict_set
                  (read (S (S n''))
                     (<[lm := ODict (Dict.set k2 vp mitems)]> h2))
                  mitems tms k2 vp tp) as (ts' & Hts' & <-).
      - apply (mapM_read_insert n''); [lia|done|]. by rewrite Hcms2.
      - destruct (read_insert (S (S n'')) h2 lm
                    (ODict (Dict.set k2 vp mitems)) vp) as [-> _]; [|done].
        intros Hin%C2. lia.
      - apply read_dict; [|done].
        apply list_lookup_insert_eq. rewrite Hh2, length_app. lia. }
    destruct (mapM_read_child (S n'') (S (S (S n''))) h2 lm
                (ODict (Dict.set k2 vp mitems)) oitems ts k1
                (TDict (Dict.set k2 tp (zip mitems.*1 tms))))
      as (ts' & Hts' & <-); try done; [lia|lia|by rewrite Hcs2|].
    apply read_dict; [|done].
    rewrite list_lookup_insert_ne; [done|]. by intros ->.
  - exists (<[lm - length h := ODict (Dict.set k2 vp mitems)]> (new1 ++ new2)).
    subst h2. by rewrite insert_app_r_alt.
  - intros l o Hl Hlo.
    destruct (decide (l = lm)) as [->|Hne].
    + rewrite list_lookup_insert_eq in Hlo
        by (rewrite Hh2, length_app; lia).
      injection Hlo as <-. simpl. apply dict_set_values_Forall.
      * eapply fresh_value_mono; [|exact V2]. subst h1.
        rewrite length_app. lia.
      * assert (fresh_region (length h) h1) as Hreg.
        { intros l' o' Hl' Ho'. subst h1.
          rewrite lookup_app_r in Ho' by done.
          rewrite Forall_forall in F1. apply F1.
          by eapply list_elem_of_lookup_2. }
        apply (Hreg lm (ODict mitems) Hlm0 Hm).
    + rewrite list_lookup_insert_ne in Hlo by done. subst h2.
      rewrite lookup_app_r in Hlo by done.
      apply list_elem_of_lookup_2 in Hlo.
      apply elem_of_app in Hlo as [Hin|Hin].
      * rewrite Forall_forall in F1. by apply F1.
      * rewrite Forall_forall in F2. apply F2 in Hin.
        eapply Forall_impl; [exact Hin|]. intros x.
        apply fresh_value_mono. subst h1. rewrite length_app. lia.
Qed.

End DocFacts.

(** * Properties of the resource pool *)
Module ResourcePoolFacts.
Import ResourcePool PyFacts DocFacts.
Open Scope py_scope.

Section facts.
Context {World : Type} {runtime : Runtime World}.
Implicit Types (st : state World).

(** The state with another heap: the pool's configuration, its table of
    resources and the world are the same. *)
Definition with_heap (h : Doc.heap) st : state World :=
  mk_state World h (pool_config st) (resources st) (world st).

Lemma pool_on_heap_ok {A B} (m : M Doc.heap A) (k : A → M (state World) B) st a h' :
  m (heap st) = (Ok a, h') →
  bind (on_heap m) k st = k a (with_heap h' st).
Proof. intros H. unfold bind, on_heap. by rewrite H. Qed.

Lemma pool_on_heap_raise {A B} (m : M Doc.heap A) (k : A → M (state World) B) st e h' :
  m (heap st) = (Raise e, h') →
  bind (on_heap m) k st = (Raise e, with_heap h' st).
Proof. intros H. unfold bind, on_heap. by rewrite H. Qed.

Lemma with_heap_id st : with_heap (heap st) st = st.
Proof. by destruct st. Qed.

Lemma deepcopy_m_ok n v h t :
  read n h v = Some t →
  ∃ v' new, deepcopy_m n v h = (Ok v', h ++ new) ∧ copied n h t v' new.
Proof.
  intros (v' & new & Hcopy & Hspec)%deepcopy_spec.
  exists v', new. unfold deepcopy_m. by rewrite Hcopy.
Qed.

(** *** Copies handed out *)

(** The documents stored on [h] are the same on [h'], and stay the same
    when any object that can be reached from [v] is overwritten. *)
Definition unaffected (h h' : Doc.heap) (v : value) : Prop :=
  ∀ n v0 t0, read n h v0 = Some t0 →
    read n h' v0 = Some t0 ∧
    ∀ l o, reaches h' v l → read n (<[l := o]> h') v0 = Some t0.

Lemma new_objects_unaffected h new v :
  fresh_region (length h) (h ++ new) →
  fresh_value (length h) v →
  unaffected h (h ++ new) v.
Proof.
  intros Hreg Hv n v0 t0 Hread.
  destruct (read_app n h new v0 t0 Hread) as [Hread' Hcells].
  split; [done|]. intros l o Hl.
  apply (reaches_fresh _ _ _ _ Hreg Hv) in Hl.
  destruct (read_insert n (h ++ new) l o v0) as [-> _]; [|done].
  rewrite Hcells. intros Hin%(cells_valid _ _ _ _ Hread). lia.
Qed.

(** The document with [meta.pool] replaced. *)
Definition with_meta_pool (pool t : tree) : tree :=
  match t with
  | TDict items =>
      match Dict.get "meta" items with
      | Some (TDict meta) =>
          TDict (Dict.set "meta" (TDict (Dict.set "pool" pool meta)) items)
      | _ => t
      end
  | _ => t
  end.

(** C9: [get_resource_info] returns a deep copy of the configuration of
    the resource: a document with the same content, made of new objects.
    The pool's table, the stored configurations and the world are as
    before, and overwriting any object of the returned document leaves
    every stored document as it is. With [verbose], the returned copy has
    a deep copy of the pool's configuration under [meta.pool] and is
    otherwise the document returned without [verbose]. *)
Theorem get_resource_info_is_a_copy st resource_id r t :
  Dict.get resource_id (resources st) = Some r →
  read recursion_limit (heap st) (resource_config r) = Some t →
  (∃ v h',
     get_resource_info resource_id false st = (Ok v, with_heap h' st) ∧
     content h' v t ∧ unaffected (heap st) h' v) ∧
  (∀ pool items meta,
     read recursion_limit (heap st) (pool_config st) = Some pool →
     t = TDict items → Dict.get "meta" items = Some (TDict meta) →
     ∃ v h',
       get_resource_info resource_id true st = (Ok v, with_heap h' st) ∧
       content h' v (with_meta_pool pool t) ∧ unaffected (heap st) h' v).
Proof.
  intros Hget Hread.
  destruct (deepcopy_m_ok _ _ _ _ Hread) as (v & new & Hcopy & Hspec).
  split.
  - exists v, (heap st ++ new). split; [|split].
    + unfold get_resource_info. rewrite run_bind_get_state, Hget.
      rewrite run_bind_expect_Some. rewrite (pool_on_heap_ok _ _ _ _ _ Hcopy).
      done.
    + exists recursion_limit. apply Hspec.
    + apply new_objects_unaffected; [|apply Hspec].
      by eapply copied_fresh_region.
  - intros pool items meta Hpool -> Hmeta.
    destruct (read_app _ _ new _ _ Hpool) as [Hpool' _].
    destruct (deepcopy_m_ok _ _ _ _ Hpool') as (vp & new2 & Hcopy2 & Hspec2).
    destruct (embed_copy _ _ _ _ _ _ _ _ _ "meta" "pool" Hspec Hspec2 Hmeta)
      as (lm & h3 & Hgetitem & Hsetitem & Hread3 & [new3 ->] & Hreg).
    exists v, (heap st ++ new3). split; [|split].
    + unfold get_resource_info. rewrite run_bind_get_state, Hget.
      rewrite run_bind_expect_Some. rewrite (pool_on_heap_ok _ _ _ _ _ Hcopy).
      cbv beta iota. rewrite run_bind_bind.
      rewrite (pool_on_heap_ok _ _ (with_heap _ st) vp
                 ((heap st ++ new) ++ new2) Hcopy2).
      rewrite run_bind_bind.
      rewrite <- app_assoc.
      rewrite (pool_on_heap_ok _ _ (with_heap _ _) _ _ Hgetitem).
      rewrite (pool_on_heap_ok _ _ (with_heap _ _) _ _ Hsetitem).
      done.
    + exists (S (S recursion_limit)). simpl with_meta_pool.
      by rewrite Hmeta.
    + apply new_objects_unaffected; [done|apply Hspec].
Qed.

(** *** The check of the nodes *)

Lemma read_only_on_heap {A} (m : M Doc.heap A) :
  read_only m → read_only (on_heap (World := World) m).
Proof.
  intros H st. unfold on_heap. specialize (H (heap st)).
  destruct (m (heap st)) as [r h]. simpl in *. subst. by destruct st.
Qed.

Lemma read_only_getitem v key : read_only (getitem v key).
Proof. done. Qed.

Lemma read_only_pool_id : read_only (pool_id (World := World)).
Proof.
  unfold pool_id, pool_meta.
  reads; apply read_only_on_heap, read_only_getitem.
Qed.

(** C4: a [nodes] list that is not within the nodes of the pool makes
    [update_resource] raise with the state as it was, whatever the
    handlers of the resource would do; the error is the [ValueError] of
    the check when the pool has its uuid. Without [nodes], or with nodes
    of the pool, the call is the handler of the resource for the command,
    applied to the arguments: its result and its effects. *)
Theorem update_resource_checks_nodes st resource_id cmd args
    attaching nodes_of_pool :
  attaching_nodes st = (Ok attaching, st) →
  to_set attaching (heap st) = (Ok nodes_of_pool, heap st) →
  (∀ node_names,
     arg_nodes args = Some node_names →
     ¬ (VStr <$> node_names ⊆ nodes_of_pool) →
     ∃ e, update_resource resource_id [(cmd, args)] st = (Raise e, st) ∧
          ∀ pool, pool_id st = (Ok pool, st) →
                  e = ValueError (PoolCannotBeAccessed node_names pool)) ∧
  (∀ r handler,
     Dict.get resource_id (resources st) = Some r →
     get_update_handler r cmd = Some handler →
     match arg_nodes args with
     | Some node_names => VStr <$> node_names ⊆ nodes_of_pool
     | None => True
     end →
     update_resource resource_id [(cmd, args)] st = handler args st).
Proof.
  intros Hatt Hset. split.
  - intros node_names Hnodes Hnot.
    unfold update_resource. rewrite run_bind_get_state. simpl last.
    rewrite run_bind_expect_Some. cbv beta iota. rewrite Hnodes.
    destruct node_names as [|n ns].
    { destruct Hnot. apply list_subseteq_nil. }
    rewrite !run_bind_bind. rewrite (bind_ok _ _ _ _ _ Hatt).
    rewrite run_bind_bind. rewrite (pool_on_heap_ok _ _ _ _ _ Hset).
    rewrite with_heap_id. rewrite bool_decide_eq_false_2 by done.
    rewrite run_bind_bind.
    unfold bind at 1. rewrite (read_only_run _ st read_only_pool_id).
    destruct (pool_id st).1 as [pool|e] eqn:Hpool.
    + eexists. split; [done|]. intros pool' [= ->]. done.
    + eexists. split; [done|]. intros pool' [=].
  - intros r handler Hget Hhandler Hnodes.
    unfold update_resource. rewrite run_bind_get_state. simpl last.
    rewrite run_bind_expect_Some. cbv beta iota. rewrite Hget.
    destruct (arg_nodes args) as [[|n ns]|].
    + rewrite run_bind_ret, run_bind_expect_Some. by rewrite Hhandler.
    + rewrite !run_bind_bind. rewrite (bind_ok _ _ _ _ _ Hatt).
      rewrite run_bind_bind. rewrite (pool_on_heap_ok _ _ _ _ _ Hset).
      rewrite with_heap_id. rewrite bool_decide_eq_true_2 by done.
      rewrite run_bind_ret, run_bind_expect_Some. by rewrite Hhandler.
    + rewrite run_bind_ret, run_bind_expect_Some. by rewrite Hhandler.
Qed.

End facts.
End ResourcePoolFacts.

(** * Properties of the image manager *)
Module ImageManagerFacts.
Import ImageManager PyFacts DocFacts.
Open Scope py_scope.

(** The document under a path of keys, each a key of the dictionary at
    its level. *)
Fixpoint lookup_path (path : list string) (t : tree) : option tree :=
  match path with
  | [] => Some t
  | key :: path' =>
      match t with
      | TDict items => Dict.get key items ≫= lookup_path path'
      | _ => None
      end
  end.

(** The path leads through dictionaries to a dictionary without the next
    key. *)
Fixpoint missing_key (path : list string) (t : tree) : bool :=
  match path, t with
  | key :: path', TDict items =>
      match Dict.get key items with
      | Some t' => missing_key path' t'
      | None => true
      end
  | _, _ => false
  end.

(** [item in items] for a list document: one of its elements is the
    string [item]. *)
Definition has_string (item : string) (items : list tree) : bool :=
  existsb (λ t, match t with
                | TStr s => bool_decide (s = item)
                | _ => false
                end) items.

(** The loop of [get_image_info] on the document itself. *)
Fixpoint descend_tree (request : string) (path : list string) (t : tree)
    : outcome tree :=
  match path with
  | [] => Ok t
  | item :: path' =>
      match t with
      | TDict items =>
          match Dict.get item items with
          | Some t' => descend_tree request path' t'
          | None => Raise (ValueError (Request request))
          end
      | TList items =>
          if has_string item items then Raise TypeError
          else Raise (ValueError (Request request))
      | TStr s =>
          if infix item s then Raise TypeError
          else Raise (ValueError (Request request))
      | _ => Raise TypeError
      end
  end.

Section facts.
Context {runtime : Runtime}.

Lemma has_string_read n h item (items : list value) ts :
  mapM (read n h) items = Some ts →
  has_string item ts = bool_decide (VStr item ∈ items).
Proof.
  intros Hts. apply mapM_Some in Hts.
  induction Hts as [|x t items ts Hx _ IH]; [done|].
  simpl. rewrite IH.
  destruct (decide (VStr item ∈ items)) as [Hin|Hnin].
  - rewrite (bool_decide_eq_true_2 _ Hin).
    rewrite bool_decide_eq_true_2 by (by apply list_elem_of_further).
    apply orb_true_r.
  - rewrite (bool_decide_eq_false_2 _ Hnin), orb_false_r.
    destruct n as [|n]; destruct x as [| | |s|l]; simpl in Hx;
      try discriminate; try injection Hx as <-;
      try (rewrite bool_decide_eq_false_2;
           [done|by intros [[=]|?]%elem_of_cons]).
    all: try (destruct (decide (s = item)) as [->|Hne];
      [rewrite !bool_decide_eq_true_2; [done|apply list_elem_of_here|done]
      |rewrite !bool_decide_eq_false_2; [done| |done];
       intros [[=]|?]%elem_of_cons; done]).
    all: destruct (h !! l) as [o|]; simpl in Hx; [|done];
      destruct (mapM _ _); simpl in Hx; [|done]; injection Hx as <-;
      destruct o; simpl;
      (rewrite bool_decide_eq_false_2;
           [done|by intros [[=]|?]%elem_of_cons]).
Qed.

(** The loop on the heap does what the loop on the document does, and
    changes nothing. *)
Lemma descend_refines request path n h v t :
  read n h v = Some t →
  match descend_tree request path t with
  | Ok t' => ∃ v', descend request path v h = (Ok v', h) ∧
                   read n h v' = Some t'
  | Raise e => descend request path v h = (Raise e, h)
  end.
Proof.
  revert n v t. induction path as [|item path IH]; intros n v t Hread.
  - simpl. eauto.
  - cbn [descend_tree descend].
    destruct n as [|n]; destruct v as [| | |s|l]; simpl in Hread;
      try discriminate;
      try (injection Hread as <-; unfold bind, contains; simpl; try done;
           by destruct (infix item s)).
    destruct (h !! l) as [o|] eqn:Ho; simpl in Hread; [|done].
    destruct (mapM (read n h) (obj_values o)) as [ts|] eqn:Hts;
      simpl in Hread; [|done].
    injection Hread as <-.
    destruct o as [items|items]; simpl in *.
    + rewrite (dict_get_zip _ _ _ _ Hts).
      assert (contains item (VRef l) h = (Ok (Dict.mem item items), h))
        as Hc by (unfold contains; simpl; by rewrite Ho).
      rewrite (bind_ok _ _ _ _ _ Hc). unfold Dict.mem.
      destruct (Dict.get item items) as [x|] eqn:Hx; simpl; [|done].
      destruct (mapM_elem _ _ _ _ Hts (dict_get_values _ _ _ Hx))
        as [tx Htx].
      rewrite Htx.
      assert (getitem (VRef l) item h = (Ok x, h))
        as Hg by (unfold getitem; simpl; by rewrite Ho, Hx).
      rewrite (bind_ok _ _ _ _ _ Hg).
      specialize (IH n x tx Htx).
      destruct (descend_tree request path tx) as [t'|e]; [|done].
      destruct IH as (v' & Hv' & Hr'). exists v'. split; [done|].
      apply (read_mono n (S n) h v' t'); [lia|done].
    + rewrite (has_string_read _ _ _ _ _ Hts).
      assert (contains item (VRef l) h
              = (Ok (bool_decide (VStr item ∈ items)), h))
        as Hc by (unfold contains; simpl; by rewrite Ho).
      rewrite (bind_ok _ _ _ _ _ Hc).
      destruct (bool_decide (VStr item ∈ items)); [|done].
      assert (getitem (VRef l) item h = (Raise TypeError, h))
        as Hg by (unfold getitem; simpl; by rewrite Ho).
      by rewrite (bind_raise _ _ _ _ _ Hg).
Qed.

Lemma descend_tree_Ok request path t t' :
  descend_tree request path t = Ok t' → lookup_path path t = Some t'.
Proof.
  revert t. induction path as [|item path IH]; intros t; simpl.
  - by intros [= ->].
  - destruct t as [| | |s|items|items]; try done.
    + by destruct (infix item s).
    + destruct (Dict.get item items) as [tx|]; [|done]. apply IH.
    + by destruct (has_string item items).
Qed.

Lemma descend_tree_missing_key request path t :
  missing_key path t = true →
  descend_tree request path t = Raise (ValueError (Request request)).
Proof.
  revert t. induction path as [|item path IH]; intros t; simpl.
  - by destruct t.
  - destruct t as [| | |s|items|items]; try done.
    destruct (Dict.get item items) as [tx|]; [apply IH|done].
Qed.

Lemma manager_on_heap_ok {A B} (m : M Doc.heap A) (k : A → M state B) st a h' :
  m (heap st) = (Ok a, h') →
  bind (on_heap m) k st = k a (mk_state h' (registry st)).
Proof. intros H. unfold bind, on_heap. by rewrite H. Qed.

Lemma manager_on_heap_raise {A B} (m : M Doc.heap A) (k : A → M state B) st e h' :
  m (heap st) = (Raise e, h') →
  bind (on_heap m) k st = (Raise e, mk_state h' (registry st)).
Proof. intros H. unfold bind, on_heap. by rewrite H. Qed.

(** C8: for a registered image whose configuration is within the
    recursion limit, [get_image_info] without a request returns a
    document with the content of the whole configuration; with a request
    whose path cannot be followed key by key through the configuration,
    it raises, and when the path stops at a dictionary that lacks the
    next item the error is [ValueError(request)]. The table of images is
    as before. *)
Theorem get_image_info_request st image_id image t :
  Dict.get image_id (registry st) = Some image →
  read recursion_limit (heap st) (image_config image) = Some t →
  (∃ v h',
     get_image_info image_id None false st
       = (Ok v, mk_state h' (registry st)) ∧
     content h' v t) ∧
  (∀ request,
     lookup_path (split_on "." request) t = None →
     ∃ e h',
       get_image_info image_id (Some request) false st
         = (Raise e, mk_state h' (registry st)) ∧
       (missing_key (split_on "." request) t = true →
        e = ValueError (Request request))).
Proof.
  intros Hget Hread.
  destruct (deepcopy_spec _ _ _ _ Hread) as (v & new & Hcopy & Hspec).
  assert (image_get_image_info image false (heap st)
          = (Ok v, heap st ++ new)) as Hinfo.
  { unfold image_get_image_info, bind, deepcopy_m. by rewrite Hcopy. }
  split.
  - exists v, (heap st ++ new). split.
    + unfold get_image_info. rewrite run_bind_get_state, Hget.
      rewrite run_bind_expect_Some. by rewrite (manager_on_heap_ok _ _ _ _ _ Hinfo).
    + exists recursion_limit. apply Hspec.
  - intros request Hpath.
    pose proof (descend_refines request (split_on "." request) _ _ _ _
                  (copied_read _ _ _ _ _ Hspec)) as Hdescend.
    destruct (descend_tree request (split_on "." request) t) as [t'|e] eqn:Ht.
    { apply descend_tree_Ok in Ht. congruence. }
    exists e, (heap st ++ new). split.
    + unfold get_image_info. rewrite run_bind_get_state, Hget.
      rewrite run_bind_expect_Some. rewrite (manager_on_heap_ok _ _ _ _ _ Hinfo).
      cbv beta iota zeta.
      by rewrite (manager_on_heap_raise _ _ (mk_state _ _) _ _ Hdescend).
    + intros Hmiss%(descend_tree_missing_key request). congruence.
Qed.

End facts.
End ImageManagerFacts.

(** * Scenarios on documents *)
Module DocScenarios.
Import Doc PyFacts DocFacts.

(** A document stored on the heap, values before the object that holds
    them. *)
Fixpoint store (t : tree) (h : Doc.heap) : value * Doc.heap :=
  match t with
  | TNone => (VNone, h)
  | TBool b => (VBool b, h)
  | TInt n => (VInt n, h)
  | TStr s => (VStr s, h)
  | TDict items =>
      let '(vs, h') :=
        (fix store_items (items : dict tree) (h : Doc.heap) :=
           match items with
           | [] => ([], h)
           | (k, t) :: items' =>
               let '(v, h1) := store t h in
               let '(vs, h2) := store_items items' h1 in
               ((k, v) :: vs, h2)
           end) items h in
      (VRef (length h'), h' ++ [ODict vs])
  | TList items =>
      let '(vs, h') :=
        (fix store_all (items : list tree) (h : Doc.heap) :=
           match items with
           | [] => ([], h)
           | t :: items' =>
               let '(v, h1) := store t h in
               let '(vs, h2) := store_all items' h1 in
               (v :: vs, h2)
           end) items h in
      (VRef (length h'), h' ++ [OList vs])
  end.

(** The configuration of a pool on two nodes and of a volume in it. *)
Definition pool_document : tree :=
  TDict [("meta", TDict [("name", TStr "pool1"); ("uuid", TStr "pool-uuid");
                         ("type", TStr "filesystem");
                         ("access",
                          TDict [("nodes", TList [TStr "node1"; TStr "node2"])])]);
         ("spec", TDict [])].

Definition volume_document : tree :=
  TDict [("meta", TDict [("uuid", TStr "volume-uuid"); ("name", TStr "base");
                         ("type", TStr "volume"); ("pool", TStr "pool-uuid");
                         ("allocated", TBool false);
                         ("bindings", TDict [])]);
         ("spec", TDict [("size", TInt 10737418240); ("allocation", TNone);
                         ("uri", TNone)])].

(** The configuration of the image "sn" on the chain base <- sn. *)
Definition image_document : tree :=
  TDict [("meta", TDict [("uuid", TStr "uuid-sn"); ("name", TStr "sn");
                         ("type", TStr "qemu");
                         ("topology",
                          TDict [("chain", TList [TStr "base"; TStr "sn"])])]);
         ("spec",
          TDict [("images",
                  TDict [("base", TDict [("meta", TDict []);
                                         ("spec", TDict [("format", TStr "raw")])]);
                         ("sn", TDict [("meta", TDict []);
                                       ("spec", TDict [("format", TStr "qcow2")])])])])].

(** [t["meta"]["pool"]] *)
Definition lookup_meta_pool (t : tree) : option tree :=
  match t with
  | TDict items =>
      match Dict.get "meta" items with
      | Some (TDict meta) => Dict.get "pool" meta
      | _ => None
      end
  | _ => None
  end.

Example store_then_read :
  let '(v, h) := store pool_document [] in
  read 4 h v = Some pool_document ∧ read 3 h v = None.
Proof. by vm_compute. Qed.

End DocScenarios.

Module PoolScenarios.
Import ResourcePool PyFacts DocFacts ResourcePoolFacts DocScenarios.

(** The world of the pool: the commands handled so far. *)
Definition handled : Type := list string.

(** Every resource handles the five commands of [_Resource]; a handler
    notes its command and returns [None]. *)
Definition noting : Runtime handled := {|
  get_update_handler := λ _ cmd,
    if bool_decide (cmd ∈ ["bind"; "unbind"; "allocate"; "release"; "sync"])
    then Some (λ _ st,
           (Ok VNone,
            mk_state handled (heap st) (pool_config st) (resources st)
              (world st ++ [cmd])))
    else None;
  recursion_limit := 1000;
|}.

Definition pool_heap : value * value * Doc.heap :=
  let '(pool, h1) := store pool_document [] in
  let '(volume, h2) := store volume_document h1 in
  (pool, volume, h2).

(** The pool with the one volume. *)
Definition one_volume : state handled :=
  let '(pool, volume, h) := pool_heap in
  mk_state handled h pool [("volume-uuid", mk_resource volume)] [].

Definition on_nodes (node_names : list string) : arguments :=
  mk_arguments (Some node_names) [].

(** A node outside the pool is refused and nothing is handled; a node of
    the pool is bound. *)
Example update_resource_runs :
  let refused :=
    update_resource (runtime := noting) "volume-uuid"
      [("bind", on_nodes ["node3"])] one_volume in
  let bound :=
    update_resource (runtime := noting) "volume-uuid"
      [("bind", on_nodes ["node1"])] one_volume in
  refused = (Raise (ValueError (PoolCannotBeAccessed ["node3"]
                                  (VStr "pool-uuid"))), one_volume) ∧
  bound.1 = Ok VNone ∧ world bound.2 = ["bind"].
Proof. by vm_compute. Qed.

Lemma update_resource_checks_nodes_witness :
  let st := one_volume in
  let nodes_of_pool := [VStr "node1"; VStr "node2"] in
  let args := on_nodes ["node3"] in
  (attaching_nodes st = (Ok (VRef 0) , st) ∧
   to_set (VRef 0) (heap st) = (Ok nodes_of_pool, heap st)) ∧
  (∀ node_names,
     arg_nodes args = Some node_names →
     ¬ (VStr <$> node_names ⊆ nodes_of_pool) →
     ∃ e, update_resource (runtime := noting) "volume-uuid"
            [("bind", args)] st = (Raise e, st) ∧
          ∀ pool, pool_id st = (Ok pool, st) →
                  e = ValueError (PoolCannotBeAccessed node_names pool)) ∧
  (∀ r handler,
     Dict.get "volume-uuid" (resources st) = Some r →
     get_update_handler (Runtime := noting) r "bind" = Some handler →
     match arg_nodes args with
     | Some node_names => VStr <$> node_names ⊆ nodes_of_pool
     | None => True
     end →
     update_resource (runtime := noting) "volume-uuid" [("bind", args)] st
       = handler args st).
Proof.
  intros st nodes_of_pool args.
  assert (attaching_nodes st = (Ok (VRef 0), st)) as H1
    by (vm_compute; reflexivity).
  assert (to_set (VRef 0) (heap st) = (Ok nodes_of_pool, heap st)) as H2
    by (vm_compute; reflexivity).
  split; [by split|].
  exact (update_resource_checks_nodes (runtime := noting) st "volume-uuid"
           "bind" args (VRef 0) nodes_of_pool H1 H2).
Defined.

Lemma get_resource_info_is_a_copy_witness :
  let st := one_volume in
  let r := mk_resource (VRef 8) in
  (Dict.get "volume-uuid" (resources st) = Some r ∧
   read (recursion_limit (Runtime := noting)) (heap st) (resource_config r)
     = Some volume_document) ∧
  (∃ v h',
     get_resource_info (runtime := noting) "volume-uuid" false st
       = (Ok v, with_heap h' st) ∧
     content h' v volume_document ∧ unaffected (heap st) h' v) ∧
  (∀ pool items meta,
     read (recursion_limit (Runtime := noting)) (heap st) (pool_config st)
       = Some pool →
     volume_document = TDict items →
     Dict.get "meta" items = Some (TDict meta) →
     ∃ v h',
       get_resource_info (runtime := noting) "volume-uuid" true st
         = (Ok v, with_heap h' st) ∧
       content h' v (with_meta_pool pool volume_document) ∧
       unaffected (heap st) h' v).
Proof.
  intros st r.
  assert (Dict.get "volume-uuid" (resources st) = Some r) as H1
    by (vm_compute; reflexivity).
  assert (read (recursion_limit (Runtime := noting)) (heap st)
            (resource_config r) = Some volume_document) as H2
    by (vm_compute; reflexivity).
  split; [by split|].
  exact (get_resource_info_is_a_copy (runtime := noting) st "volume-uuid" r
           volume_document H1 H2).
Defined.

(** The verbose information of the volume holds the pool's configuration
    under [meta.pool]; the stored configuration still names the pool by
    its uuid. *)
Example verbose_information :
  let r := get_resource_info (runtime := noting) "volume-uuid" true one_volume in
  match r.1 with
  | Ok v =>
      (t ← read 8 (heap r.2) v; lookup_meta_pool t) = Some pool_document ∧
      (t ← read 8 (heap r.2) (VRef 8); lookup_meta_pool t)
        = Some (TStr "pool-uuid")
  | Raise _ => False
  end.
Proof. by vm_compute. Qed.

End PoolScenarios.

Module ManagerScenarios.
Import ImageManager PyFacts DocFacts ImageManagerFacts DocScenarios.

(** The information of a layer object is a copy of its configuration. *)
Definition copying : Runtime := {|
  get_info := deepcopy_m 1000;
  recursion_limit := 1000;
|}.

(** The manager with the one image "sn". *)
Definition one_image : state :=
  let '(config, h) := store image_document [] in
  mk_state h [("uuid-sn", mk_vir_image config [])].

(** The outcome of a request and, when it returns, the document
    returned. *)
Definition answer (request : option string) : outcome (option tree) :=
  let '(r, st) :=
    get_image_info (runtime := copying) "uuid-sn" request false one_image in
  match r with
  | Ok v => Ok (read 8 (heap st) v)
  | Raise e => Raise e
  end.

(** The requests of the docstring, a segment that is no key, and a
    segment looked up in a string. *)
Example requests :
  answer None = Ok (Some image_document) ∧
  answer (Some "spec.images.sn.spec.format")
    = Ok (Some (TDict [("format", TStr "qcow2")])) ∧
  answer (Some "spec.images.top")
    = Raise (ValueError (Request "spec.images.top")) ∧
  answer (Some "meta.name.x") = Raise (ValueError (Request "meta.name.x")) ∧
  answer (Some "meta.name.s") = Raise TypeError.
Proof. by vm_compute. Qed.

Lemma get_image_info_request_witness :
  let st := one_image in
  let image := mk_vir_image (VRef 11) [] in
  (Dict.get "uuid-sn" (registry st) = Some image ∧
   read (recursion_limit (Runtime := copying)) (heap st) (image_config image)
     = Some image_document) ∧
  (∃ v h',
     get_image_info (runtime := copying) "uuid-sn" None false st
       = (Ok v, mk_state h' (registry st)) ∧
     content h' v image_document) ∧
  (∀ request,
     lookup_path (split_on "." request) image_document = None →
     ∃ e h',
       get_image_info (runtime := copying) "uuid-sn" (Some request) false st
         = (Raise e, mk_state h' (registry st)) ∧
       (missing_key (split_on "." request) image_document = true →
        e = ValueError (Request request))).
Proof.
  intros st image.
  assert (Dict.get "uuid-sn" (registry st) = Some image) as H1
    by (vm_compute; reflexivity).
  assert (read (recursion_limit (Runtime := copying)) (heap st)
            (image_config image) = Some image_document) as H2
    by (vm_compute; reflexivity).
  split; [by split|].
  exact (get_image_info_request (runtime := copying) st "uuid-sn" image
           image_document H1 H2).
Defined.

End ManagerScenarios.

(** * The life of a qemu virtual image *)
Module QemuVirImageLifecycle.
Import QemuVirImage PyFacts QemuVirImageFacts.
Open Scope py_scope.

Section facts.
Context {cluster : Cluster}.

Ltac mstep_in H :=
  unfold bind at 1 in H;
  cbn [ret raise get_state gets put_state modify expect update_self] in H.

Lemma keeps_of_self {A B} (f : vir_image → B) (m : M A) :
  keeps self m → keeps (λ st, f (self st)) m.
Proof. intros H st. by rewrite H. Qed.

Lemma keeps_update_self {B} (part : state → B) f :
  (∀ st, part (with_self f st) = part st) → keeps part (update_self f).
Proof. intros H st. apply H. Qed.

(** *** What [remove_image_object] leaves *)

(** [remove_image_object] never touches [spec.images]: whatever the
    outcome, the configuration of every layer, the removed one included,
    is still there. *)
Theorem remove_keeps_layer_configuration a st :
  spec_images (self (remove_image_object a st).2) = spec_images (self st).
Proof.
  revert st.
  change (keeps (λ st, spec_images (self st)) (remove_image_object a)).
  unfold remove_image_object, image_names_remove, topology_move, top_name,
    update_self.
  keeps; try (apply keeps_of_self, keeps_self_layer_destroy_object).
  all: try (apply keeps_read_only; auto using read_only_volume_allocated,
              read_only_image_names).
Qed.

Lemma dict_mem_length_del {V} k (d : dict V) :
  Dict.mem k d = true → length d = S (length (Dict.del k d)).
Proof.
  unfold Dict.mem. induction d as [|[k' v] d IH]; simpl; [done|].
  destruct (decide (k = k')); [done|]. intros H. simpl. f_equal. auto.
Qed.

Lemma keeps_images_remove_tail target image :
  keeps (λ st, images (self st))
    (allocated <- volume_allocated image ;;
     if allocated : bool
     then raise (RuntimeError (NotReleased target))
     else
       layer_destroy_object image ;;
       names <- image_names ;;
       if bool_decide (target ∈ names) then
         image_names_remove target ;;
         top <- top_name ;;
         update_self (set_name top) ;;
         names <- image_names ;;
         if decide (length names < 2)
         then topology_move "chain" "none"
         else ret tt
       else ret tt).
Proof.
  unfold image_names_remove, topology_move, top_name, update_self.
  keeps; try (apply keeps_of_self, keeps_self_layer_destroy_object).
  all: try (apply keeps_read_only; auto using read_only_volume_allocated,
              read_only_image_names).
Qed.

(** The last layer object cannot be removed: with one layer the call
    raises and changes nothing, so a removal that succeeds leaves at
    least one layer object. *)
Theorem remove_leaves_a_layer st a :
  (∀ target,
     arg_target a = Some target →
     Dict.mem target (images (self st)) = true →
     length (images (self st)) = 1 →
     remove_image_object a st
       = (Raise (ValueError (MustHaveOneImage target)), st)) ∧
  (∀ st',
     remove_image_object a st = (Ok tt, st') →
     ∃ target,
       arg_target a = Some target ∧
       images (self st') = Dict.del target (images (self st)) ∧
       1 ≤ length (images (self st'))).
Proof.
  split.
  - intros target Ha Hmem Hlen. unfold remove_image_object.
    rewrite Ha. autorewrite with run. rewrite Hmem. simpl.
    by destruct (decide (length (images (self st)) = 1)).
  - intros st' H. unfold remove_image_object in H.
    destruct (arg_target a) as [target|]; [|discriminate]. mstep_in H.
    mstep_in H. exists target.
    destruct (Dict.mem target (images (self st))) eqn:Hmem; [|discriminate].
    simpl in H.
    destruct (decide (length (images (self st)) = 1)) as [|Hlen];
      [discriminate|].
    read_in H names Hnames.
    apply bind_inv_ok in H as ([] & st1 & Hguard & H).
    assert (st1 = st) as ->.
    { eapply read_only_inv; [|exact Hguard]. reads. }
    destruct (Dict.get target (images (self st))) as [image|];
      [|discriminate].
    mstep_in H. mstep_in H.
    pose proof (keeps_inv _ _ _ _ _ (keeps_images_remove_tail target image) H)
      as Himages.
    simpl in Himages. split; [done|]. split; [done|].
    rewrite Himages. pose proof (dict_mem_length_del _ _ Hmem) as Hl.
    destruct (images (self st)) as [|? [|? ?]]; simpl in *; [done|done|].
    lia.
Qed.

Lemma dict_del_set_fresh {V} k (v : V) d :
  Dict.mem k d = false → Dict.del k (Dict.set k v d) = d.
Proof.
  unfold Dict.mem. induction d as [|[k' v'] d IH]; simpl.
  - intros _. by destruct (decide (k = k)).
  - destruct (decide (k = k')) as [->|Hne]; [done|]. intros H. simpl.
    destruct (decide (k = k')); [done|]. f_equal. auto.
Qed.

(** Adding a layer and removing it again: on a consistent image the
    name, the topology and the layer table are back where they were,
    with or without [backing_chain]. *)
Theorem add_then_remove st a a' target st1 st2 :
  consistent (self st) →
  arg_target a = Some target →
  arg_target a' = Some target →
  add_image_object a st = (Ok tt, st1) →
  remove_image_object a' st1 = (Ok tt, st2) →
  name (self st2) = name (self st) ∧
  topology (self st2) = topology (self st) ∧
  images (self st2) = images (self st).
Proof.
  intros (names & Hshape & Hlast & Hnd & Hsub) Ha Ha' Hadd Hrem.
  destruct (consistent_tagged _ _ Hshape) as [k Ht].
  pose proof (add_image_object_ok _ _ _ _ _ Ht Hadd)
    as (? & image & Ha1 & Hmem & Himages & Hadd').
  rewrite Ha in Ha1. injection Ha1 as <-.
  assert (target ∉ names) as Hnin.
  { intros Hin%Hsub%dict_mem_keys. congruence. }
  destruct (default false (arg_backing_chain a)).
  - destruct Hadd' as (top_ & Htop & _ & Hname & Htopo).
    assert (tagged st1 "chain" (names ++ [target])) as Ht1
      by (split; auto).
    pose proof (remove_image_object_ok _ _ _ _ _ Ht1 Hrem)
      as (? & Ha1 & _ & Himages' & Hrem').
    rewrite Ha' in Ha1. injection Ha1 as <-.
    destruct Hrem' as [(Hnin' & _)
                     |(_ & _ & names' & top' & Hrm & Htop' & Hname' & Htopo')].
    { exfalso. apply Hnin', elem_of_app. right. apply list_elem_of_here. }
    rewrite list_remove_first_last in Hrm by done. injection Hrm as <-.
    rewrite Htop' in Hlast. injection Hlast as ->.
    rewrite Himages', Himages, dict_del_set_fresh by done.
    split; [done|]. split; [|done]. rewrite Htopo'.
    destruct Hshape as [[-> Hlen]|[-> Hlen]];
      destruct (decide (length names < 2)); (done || lia).
  - destruct Hadd' as (_ & Hname & Htopo).
    assert (tagged st1 k names) as Ht1.
    { eapply tagged_same_topology; [exact Htopo|exact Ht]. }
    pose proof (remove_image_object_ok _ _ _ _ _ Ht1 Hrem)
      as (? & Ha1 & _ & Himages' & Hrem').
    rewrite Ha' in Ha1. injection Ha1 as <-.
    destruct Hrem' as [(_ & Hname' & Htopo')
                     |(_ & Htop' & _)].
    + rewrite Himages', Himages, dict_del_set_fresh by done.
      split; [congruence|]. split; [congruence|done].
    + exfalso. apply Hnin. by apply last_Some_elem_of.
Qed.

(** [add_image_object] with nodes that are not all access nodes of the
    image raises and changes nothing. *)
Theorem add_outside_access_nodes_rejected st a target p nodes access :
  arg_target a = Some target →
  arg_target_params a = Some p →
  arg_nodes a = Some nodes →
  Dict.mem target (images (self st)) = false →
  image_access_nodes st = (Ok access, st) →
  ¬ nodes ⊆ access →
  add_image_object a st = (Raise (ValueError (NotASubset nodes access)), st).
Proof.
  intros Ha Hp Hn Hmem Hacc Hsub. unfold add_image_object.
  rewrite Ha, Hp, Hn. autorewrite with run.
  destruct nodes as [|n ns]; [destruct Hsub; apply list_subseteq_nil|].
  autorewrite with run. rewrite Hmem.
  rewrite (bind_ok _ _ _ _ _ Hacc).
  by rewrite bool_decide_eq_false_2.
Qed.

(** [qemu_img_rebase] is not undone when it fails: once its
    [add_image_object] has succeeded, a failure of the creation or of the
    remote rebase leaves the target as a layer object of the image that
    is not on the topology; the name and the topology are as before. *)
Theorem rebase_failure_keeps_layer st a target p (k : string)
    (names : list string) st1 e st' :
  tagged st k names →
  names ≠ [] →
  arg_target a = Some target →
  arg_target_params a = Some p →
  add_image_object
    (mk_arguments (Some target) (Some p) None (arg_nodes a) None) st
    = (Ok tt, st1) →
  qemu_img_rebase a st = (Raise e, st') →
  self st' = self st1 ∧
  name (self st') = name (self st) ∧
  topology (self st') = topology (self st) ∧
  target ∈ Dict.keys (images (self st')).
Proof.
  intros Ht Hne Ha Hp Hadd H.
  destruct (last names) as [top_|] eqn:Hlast;
    [|by apply last_None in Hlast].
  unfold qemu_img_rebase in H.
  rewrite (bind_ok _ _ _ _ _
             (top_name_ok _ _ _ (tagged_image_names _ _ _ Ht) Hlast)) in H.
  rewrite Ha, Hp in H. autorewrite with run in H.
  rewrite (bind_ok _ _ _ _ _ Hadd) in H.
  pose proof (add_image_object_ok _ _ _ _ _ Ht Hadd)
    as (? & image & [= <-] & Hmem & Himages & _ & Hname & Htopo).
  assert (self st' = self st1) as Hself.
  { unfold bind at 1 in H.
    destruct (create _ st1) as [[[]|e1] st2] eqn:Hcreate;
      apply (keeps_inv _ _ _ _ _ (keeps_self_create _)) in Hcreate;
      [|injection H as _ <-; done].
    unfold bind at 1 in H.
    destruct (image_access_nodes st2) as [[access|e2] st3] eqn:Hacc;
      apply (read_only_inv _ _ _ _ read_only_image_access_nodes) in Hacc;
      subst st3; [|injection H as _ <-; done].
    destruct (head access) as [node_name|];
      [|injection H as _ <-; done].
    autorewrite with run in H.
    unfold bind at 1 in H.
    destruct (update_image _ _ _ st2) as [[[]|e3] st3] eqn:Hupdate;
      apply (keeps_inv _ _ _ _ _ (keeps_self_update_image _ _ _)) in Hupdate;
      [|injection H as _ <-; congruence].
    exfalso. mstep_in H.
    assert (tagged (with_self (set_name target) st3) k names) as Ht3.
    { eapply tagged_same_topology; [|exact Ht]. simpl. congruence. }
    rewrite (bind_ok _ _ _ _ _ (image_names_append_tagged _ _ _ target Ht3))
      in H.
    match type of H with bind _ _ ?s = _ => set (st4 := s) in H end.
    assert (tagged st4 k (names ++ [target])) as Ht4.
    { split; [done|apply Ht]. }
    rewrite (bind_ok _ _ _ _ _ (none_to_chain_tagged _ _ _ Ht4)) in H.
    unfold set_layer_backing in H. mstep_in H.
    assert (is_Some (Dict.get target (spec_images (self st1)))) as [c Hc].
    { unfold add_image_object in Hadd.
      cbn [arg_nodes arg_target arg_target_params arg_backing_chain
           default from_option id] in Hadd.
      autorewrite with run in Hadd.
      apply bind_inv_ok in Hadd as (nn & sta & _ & Hadd).
      autorewrite with run in Hadd.
      destruct (Dict.mem target (images (self sta))); [discriminate|].
      apply bind_inv_ok in Hadd as (acc & stb & _ & Hadd).
      destruct (negb _); [discriminate|].
      apply bind_inv_ok in Hadd as (c0 & stc & _ & Hadd).
      autorewrite with run in Hadd.
      rewrite run_bind_update_self in Hadd.
      apply bind_inv_ok in Hadd as (im & std & Hcreate' & Hadd).
      rewrite run_update_self in Hadd. injection Hadd as <-.
      cbn [self with_self set_images spec_images].
      unfold _create_image_object in Hcreate'.
      autorewrite with run in Hcreate'.
      destruct (Dict.get target _) as [c1|]; [|discriminate].
      autorewrite with run in Hcreate'.
      destruct (get_qemu_image_class _); [|discriminate].
      destruct (volume_config_of c1); [|discriminate].
      autorewrite with run in Hcreate'.
      rewrite run_bind_update_self in Hcreate'.
      apply bind_inv_ok in Hcreate' as (vid & ste & Hcro & Hcreate').
      apply (keeps_inv _ _ _ _ _ (keeps_self_create_resource_object _))
        in Hcro.
      apply bind_inv_ok in Hcreate' as ([] & stf & Hupd & Hcreate').
      apply (keeps_inv _ _ _ _ _ (keeps_self_update_resource _ _ _))
        in Hupd.
      rewrite run_bind_update_self in Hcreate'. injection Hcreate' as _ <-.
      cbn [self with_self set_spec_images spec_images].
      rewrite dict_get_set_eq. eauto. }
    cbn [self with_self set_name set_topology spec_images] in H.
    subst st4. cbn [self with_self set_name set_topology spec_images] in H.
    rewrite Hupdate, Hcreate, Hc in H.
    autorewrite with run in H. rewrite run_update_self in H. discriminate. }
  rewrite Hself. split; [done|]. split; [done|]. split; [done|].
  rewrite Himages. apply dict_keys_set. by left.
Qed.

(** *** The calls made to the resource manager *)

Lemma keeps_trace_handler cmd v a : keeps trace (handler cmd v a).
Proof. unfold handler. keeps. Qed.

Lemma update_resource_ok v cmd a st st' :
  update_resource v cmd a st = (Ok tt, st') →
  self st' = self st ∧ trace st' = (trace st ++ [UpdateResource v cmd])%list.
Proof.
  intros H. unfold update_resource in H. mstep_in H.
  destruct (volumes st !! v) as [vol|]; [|discriminate]. mstep_in H.
  destruct (pools st !! vol_pool vol) as [attaching|]; [|discriminate].
  mstep_in H.
  apply bind_inv_ok in H as ([] & st1 & Hcheck & H).
  assert (st1 = st) as ->.
  { eapply read_only_inv; [|exact Hcheck]. reads. }
  mstep_in H.
  pose proof (keeps_inv _ _ _ _ _ (keeps_self_handler _ _ _) H) as Hself.
  pose proof (keeps_inv _ _ _ _ _ (keeps_trace_handler _ _ _) H) as Htrace.
  done.
Qed.

(** The volume of the layer object under a name. *)
Definition layer_volume (st : state) (n : string) (v : nat) : Prop :=
  ∃ image,
    Dict.get n (images (self st)) = Some image ∧ volume_id image = Some v.

Lemma layers_updated cmd (a : arguments) tags : ∀ st st',
  for_each tags
    (λ tag, image <- layer tag ;;
            v <- layer_volume_id image ;; update_resource v cmd a) st
    = (Ok tt, st') →
  self st' = self st ∧
  ∃ vs, Forall2 (layer_volume st) tags vs ∧
        trace st' = (trace st ++ ((λ v, UpdateResource v cmd) <$> vs))%list.
Proof.
  induction tags as [|tag tags IH]; intros st st' H; simpl in H.
  - injection H as <-. split; [done|]. exists []. split; [constructor|].
    by rewrite app_nil_r.
  - apply bind_inv_ok in H as ([] & st1 & Hone & H).
    unfold layer in Hone. autorewrite with run in Hone.
    destruct (Dict.get tag (images (self st))) as [image|] eqn:Hget;
      [|discriminate].
    autorewrite with run in Hone. unfold layer_volume_id in Hone.
    destruct (volume_id image) as [v|] eqn:Hv; [|discriminate].
    autorewrite with run in Hone.
    apply update_resource_ok in Hone as [Hself Htrace].
    apply IH in H as (Hself' & vs & Hvs & Htrace').
    split; [congruence|]. exists (v :: vs). split.
    + constructor; [by exists image|].
      eapply Forall2_impl; [exact Hvs|].
      intros n v' (image' & ? & ?). exists image'. by rewrite <- Hself.
    + rewrite Htrace', Htrace, <- app_assoc. done.
Qed.

(** [[target] if target else rest] *)
Definition targets (target : option string) (rest : list string)
    : list string :=
  match target with
  | Some t => if decide (t = "") then rest else [t]
  | None => rest
  end.

Lemma target_or_targets target (rest : M (list string)) st l :
  rest st = (Ok l, st) →
  target_or target rest st = (Ok (targets target l), st).
Proof.
  intros H. unfold target_or, targets.
  destruct target as [t|]; [|done]. by destruct (decide (t = "")).
Qed.

(** [create], when it succeeds, has allocated the volume of the target,
    or without a target the volumes of the layers on the topology, base
    first, and has then made the one remote call; no other layer object
    is allocated, and the image object is as before. *)
Theorem create_allocates_topology st a st' (k : string)
    (names : list string) :
  tagged st k names →
  create a st = (Ok tt, st') →
  self st' = self st ∧
  ∃ node vs,
    Forall2 (layer_volume st) (targets (arg_target a) names) vs ∧
    trace st'
      = (trace st ++ ((λ v, UpdateResource v Allocate) <$> vs)
           ++ [UpdateImage node "create" a])%list.
Proof.
  intros Ht H. unfold create in H.
  read_in H access Hacc.
  destruct (head access) as [node|]; [|discriminate].
  autorewrite with run in H.
  apply bind_inv_ok in H as ([] & st0 & Hcheck & H).
  assert (st0 = st) as ->.
  { eapply read_only_inv; [|exact Hcheck]. apply read_only_check_top. }
  rewrite (bind_ok _ _ _ _ _
             (target_or_targets _ _ _ _ (tagged_image_names _ _ _ Ht))) in H.
  apply bind_inv_ok in H as ([] & st1 & Hloop & H).
  apply (layers_updated Allocate) in Hloop as (Hself & vs & Hvs & Htrace).
  unfold update_image in H. autorewrite with run in H.
  destruct (image_agent st1 node "create" a) as [r out].
  autorewrite with run in H.
  destruct (decide (r = 0%Z)); [|discriminate].
  injection H as <-. cbn [self trace record].
  split; [done|]. exists node, vs. split; [done|].
  by rewrite Htrace, <- app_assoc.
Qed.

Lemma keeps_self_destroy a : keeps self (destroy a).
Proof.
  unfold destroy. keeps; auto using keeps_self_layer_destroy.
  all: apply keeps_read_only; reads.
  apply read_only_target_or. reads.
Qed.

(** [destroy] releases storage and nothing else: whatever the outcome,
    the image object (name, topology, configurations, layer objects) is
    as before; when it succeeds, it has released the volume of the
    target, or without a target the volume of every layer object, on
    the topology or not, in the order of the layer table. *)
Theorem destroy_releases_every_layer st a :
  self (destroy a st).2 = self st ∧
  (∀ st',
     destroy a st = (Ok tt, st') →
     ∃ vs,
       Forall2 (layer_volume st)
         (targets (arg_target a) (Dict.keys (images (self st)))) vs ∧
       trace st'
         = (trace st ++ ((λ v, UpdateResource v Release) <$> vs))%list).
Proof.
  split; [apply keeps_self_destroy|].
  intros st' H. unfold destroy in H.
  apply bind_inv_ok in H as ([] & st1 & Hcheck & H).
  assert (st1 = st) as ->.
  { eapply read_only_inv; [|exact Hcheck]. apply read_only_check_top. }
  rewrite (bind_ok _ _ _ _ _
             (target_or_targets (arg_target a)
                (gets (λ st, Dict.keys (images (self st)))) st _ eq_refl))
    in H.
  apply (layers_updated Release) in H as (_ & vs & Hvs & Htrace).
  eauto.
Qed.

(** *** Destroying the image object *)

Lemma layer_destroy_object_ok image st st' :
  layer_destroy_object image st = (Ok tt, st') →
  ∃ v, volume_id image = Some v ∧ self st' = self st ∧
       trace st'
         = (trace st ++ [UpdateResource v Unbind; DestroyResource v])%list.
Proof.
  intros H. unfold layer_destroy_object, layer_volume_id in H.
  destruct (volume_id image) as [v|]; [|discriminate].
  autorewrite with run in H.
  apply bind_inv_ok in H as ([] & st1 & Hupd & H).
  apply update_resource_ok in Hupd as [Hself Htrace].
  unfold destroy_resource_object in H. autorewrite with run in H.
  destruct (volumes st1 !! v); [|discriminate].
  autorewrite with run in H. injection H as <-.
  exists v. cbn [self trace record with_volumes].
  split; [done|]. split; [done|]. by rewrite Htrace, <- app_assoc.
Qed.

Lemma destroy_image_object_ok n st st' :
  destroy_image_object n st = (Ok tt, st') →
  ∃ image v,
    Dict.get n (images (self st)) = Some image ∧
    volume_id image = Some v ∧
    self st' = set_images (Dict.del n (images (self st))) (self st) ∧
    trace st'
      = (trace st ++ [UpdateResource v Unbind; DestroyResource v])%list.
Proof.
  intros H. unfold destroy_image_object in H. autorewrite with run in H.
  destruct (Dict.get n (images (self st))) as [image|]; [|discriminate].
  autorewrite with run in H. rewrite run_bind_update_self in H.
  apply layer_destroy_object_ok in H as (v & Hv & Hself & Htrace).
  exists image, v. done.
Qed.

Lemma list_difference_cons_in (x : string) l k :
  x ∈ k → list_difference (x :: l) k = list_difference l k.
Proof.
  intros H. cbn [list_difference]. unfold decide_rel.
  destruct (list_elem_of_dec x k); [done|contradiction].
Qed.

Lemma list_difference_cons_notin (x : string) l k :
  x ∉ k → list_difference (x :: l) k = x :: list_difference l k.
Proof.
  intros H. cbn [list_difference]. unfold decide_rel.
  destruct (list_elem_of_dec x k); [contradiction|done].
Qed.

Lemma list_difference_nil_r (l : list string) : list_difference l [] = l.
Proof.
  induction l as [|y l IH]; [done|].
  rewrite list_difference_cons_notin by apply not_elem_of_nil. by f_equal.
Qed.

Lemma list_difference_fresh (l : list string) x :
  x ∉ l → list_difference l [x] = l.
Proof.
  induction l as [|y l IH]; [done|].
  intros [Hne Hnin]%not_elem_of_cons.
  rewrite list_difference_cons_notin
    by (by intros ->%list_elem_of_singleton).
  f_equal. auto.
Qed.

Lemma dict_keys_del {V} k (d : dict V) :
  NoDup (Dict.keys d) →
  Dict.keys (Dict.del k d) = list_difference (Dict.keys d) [k].
Proof.
  unfold Dict.keys. induction d as [|[k' v] d IH]; [done|].
  rewrite fmap_cons, NoDup_cons. cbn [fst Dict.del]. intros [Hnin Hnd].
  destruct (decide (k = k')) as [->|Hne].
  - rewrite list_difference_cons_in by apply list_elem_of_here.
    by rewrite list_difference_fresh.
  - rewrite list_difference_cons_notin
      by (by intros ->%list_elem_of_singleton).
    rewrite fmap_cons. cbn [fst]. f_equal. auto.
Qed.

Lemma list_difference_cons_r (l : list string) x k :
  list_difference (list_difference l [x]) k = list_difference l (x :: k).
Proof.
  induction l as [|y l IH]; [done|].
  destruct (decide (y = x)) as [->|Hne].
  - rewrite list_difference_cons_in by apply list_elem_of_here.
    by rewrite (list_difference_cons_in x l (x :: k))
      by apply list_elem_of_here.
  - rewrite list_difference_cons_notin
      by (by intros ->%list_elem_of_singleton).
    destruct (decide (y ∈ k)) as [Hin|Hnin].
    + rewrite list_difference_cons_in by done.
      by rewrite (list_difference_cons_in y l (x :: k))
        by (by apply list_elem_of_further).
    + rewrite list_difference_cons_notin by done.
      rewrite (list_difference_cons_notin y l (x :: k))
        by (by intros [->|?]%elem_of_cons).
      by f_equal.
Qed.

Lemma list_difference_equiv (l k1 k2 : list string) :
  (∀ x, x ∈ k1 ↔ x ∈ k2) →
  list_difference l k1 = list_difference l k2.
Proof.
  intros H. induction l as [|y l IH]; [done|].
  destruct (decide (y ∈ k1)) as [Hin|Hnin].
  - rewrite !list_difference_cons_in; [done|by apply H|done].
  - rewrite !list_difference_cons_notin; [by f_equal|by rewrite <- H|done].
Qed.

Lemma dict_get_del_Some {V} n m (d : dict V) x :
  NoDup (Dict.keys d) →
  Dict.get n (Dict.del m d) = Some x → Dict.get n d = Some x.
Proof.
  unfold Dict.keys. induction d as [|[k' v] d IH]; simpl; [done|].
  rewrite NoDup_cons. intros [Hnin Hnd].
  destruct (decide (m = k')) as [->|Hne].
  - destruct (decide (n = k')) as [->|]; [|done].
    intros Hget. exfalso. apply Hnin.
    clear -Hget. induction d as [|[k'' v''] d IH]; simpl in *; [done|].
    destruct (decide (k' = k'')) as [->|]; [apply list_elem_of_here|].
    apply list_elem_of_further. auto.
  - simpl. destruct (decide (n = k')); [done|]. auto.
Qed.

Lemma destroy_each_ok l : ∀ st st',
  NoDup (Dict.keys (images (self st))) →
  for_each l destroy_image_object st = (Ok tt, st') →
  ∃ vs,
    Forall2 (layer_volume st) l vs ∧
    trace st'
      = (trace st
           ++ flat_map (λ v, [UpdateResource v Unbind; DestroyResource v]) vs)%list ∧
    Dict.keys (images (self st'))
      = list_difference (Dict.keys (images (self st))) l ∧
    (∀ n image,
       Dict.get n (images (self st')) = Some image →
       Dict.get n (images (self st)) = Some image).
Proof.
  induction l as [|n l IH]; intros st st' Hnd H; simpl in H.
  - injection H as <-. exists []. split; [constructor|].
    split; [by rewrite app_nil_r|]. split; [|done].
    by rewrite list_difference_nil_r.
  - apply bind_inv_ok in H as ([] & st1 & Hone & H).
    apply destroy_image_object_ok in Hone
      as (image & v & Hget & Hv & Hself & Htrace).
    assert (NoDup (Dict.keys (images (self st1)))) as Hnd1.
    { rewrite Hself. cbn [images set_images]. rewrite dict_keys_del by done.
      by apply NoDup_list_difference. }
    apply IH in H as (vs & Hvs & Htrace' & Hkeys & Hback); [|done].
    assert (∀ n' image',
              Dict.get n' (images (self st1)) = Some image' →
              Dict.get n' (images (self st)) = Some image') as Hback1.
    { intros n' image'. rewrite Hself. cbn [images set_images].
      by apply dict_get_del_Some. }
    exists (v :: vs). split; [|split; [|split]].
    + constructor; [by exists image|].
      eapply Forall2_impl; [exact Hvs|].
      intros n' v' (image' & ? & ?). exists image'. auto.
    + rewrite Htrace', Htrace, <- app_assoc. done.
    + rewrite Hkeys, Hself. cbn [images set_images].
      rewrite dict_keys_del by done. apply list_difference_cons_r.
    + auto.
Qed.

(** [destroy_object], when it returns, has destroyed every layer object:
    the layers on the topology from the top down to the base, then the
    layer that was not on the topology, if there was one; for each, the
    volume is unbound and its object destroyed. No layer object is
    left. *)
Theorem destroy_object_top_first st st' (k : string) (names : list string) :
  tagged st k names →
  NoDup (Dict.keys (images (self st))) →
  destroy_object st = (Ok tt, st') →
  images (self st') = [] ∧
  ∃ vs,
    Forall2 (layer_volume st)
      (reverse names
         ++ list_difference (Dict.keys (images (self st))) names) vs ∧
    trace st'
      = (trace st
           ++ flat_map (λ v, [UpdateResource v Unbind; DestroyResource v]) vs)%list.
Proof.
  intros Ht Hnd H. unfold destroy_object in H.
  rewrite (bind_ok _ _ _ _ _ (tagged_image_names _ _ _ Ht)) in H.
  apply bind_inv_ok in H as ([] & st1 & Hloop & H).
  apply destroy_each_ok in Hloop as (vs & Hvs & Htrace & Hkeys & Hback);
    [|done].
  rewrite (list_difference_equiv _ (reverse names) names) in Hkeys
    by (intros x; apply elem_of_reverse).
  unfold destroy_remaining in H. autorewrite with run in H.
  rewrite Hkeys in H.
  destruct (list_difference _ names) as [|x [|y rest]] eqn:Hrest.
  - injection H as <-. split.
    + unfold Dict.keys in Hkeys. by apply fmap_nil_inv in Hkeys.
    + exists vs. rewrite app_nil_r. done.
  - apply destroy_image_object_ok in H
      as (image & v & Hget & Hv & Hself & Htrace').
    split.
    + rewrite Hself. cbn [images set_images].
      unfold Dict.keys in Hkeys.
      destruct (images (self st1)) as [|[x' image'] [|? ?]];
        try discriminate.
      injection Hkeys as ->. simpl. by rewrite decide_True.
    + exists (vs ++ [v]). split.
      * apply Forall2_app; [done|]. constructor; [|constructor].
        exists image. auto.
      * rewrite Htrace', Htrace, flat_map_app, <- app_assoc. done.
  - apply bind_inv_ok in H as ([] & st2 & _ & H). discriminate.
Qed.

(** *** Creating the image object *)

Lemma dict_keys_set_fresh {V} k (v : V) d :
  k ∉ Dict.keys d → Dict.keys (Dict.set k v d) = (Dict.keys d ++ [k])%list.
Proof.
  unfold Dict.keys. induction d as [|[k' v'] d IH]; simpl; [done|].
  intros [Hne Hnin]%not_elem_of_cons.
  rewrite decide_False by done. simpl. f_equal. auto.
Qed.

Lemma create_each_ok l : ∀ st st',
  NoDup l →
  (∀ x, x ∈ l → x ∉ Dict.keys (images (self st))) →
  for_each l (λ image_name,
    image <- _create_image_object image_name ;;
    update_self (λ i, set_images (Dict.set image_name image (images i)) i))
    st = (Ok tt, st') →
  name (self st') = name (self st) ∧
  topology (self st') = topology (self st) ∧
  Dict.keys (images (self st')) = (Dict.keys (images (self st)) ++ l)%list ∧
  (∀ x, x ∉ l →
     Dict.get x (images (self st')) = Dict.get x (images (self st))) ∧
  ∀ x, x ∈ l → ∃ image v,
    Dict.get x (images (self st')) = Some image ∧
    volume_id image = Some v ∧ volume_config_of image = None.
Proof.
  induction l as [|n l IH]; intros st st' Hnd Hfresh H; simpl in H.
  - injection H as <-. rewrite app_nil_r. repeat split; try done.
    intros x Hx. by apply elem_of_nil in Hx.
  - apply NoDup_cons in Hnd as [Hnin Hnd].
    apply bind_inv_ok in H as ([] & st1 & Hone & H).
    apply bind_inv_ok in Hone as (image & st0 & Hcreate & Hone).
    pose proof (keeps_inv _ _ _ _ _ (keeps_layers_create_image_object _)
                  Hcreate) as Hlayers.
    unfold layers_of in Hlayers. injection Hlayers as Hn Ht Hi.
    apply create_image_object_ok in Hcreate as (config & v & _ & ->).
    rewrite run_update_self in Hone. injection Hone as <-.
    apply IH in H as (Hname & Htopo & Hkeys & Hkeep & Hall); [|done|].
    + cbn [self with_self set_images name topology images] in *.
      rewrite Hi in Hkeys, Hkeep.
      rewrite dict_keys_set_fresh in Hkeys
        by (apply Hfresh, list_elem_of_here).
      split; [congruence|]. split; [congruence|].
      split; [by rewrite Hkeys, <- app_assoc|]. split.
      * intros x [Hne Hx]%not_elem_of_cons.
        rewrite Hkeep by done. by apply dict_get_set_ne.
      * intros x [->|Hx]%elem_of_cons; [|by apply Hall].
        exists (set_volume v config), v. split; [|done].
        rewrite Hkeep by done. apply dict_get_set_eq.
    + cbn [self with_self set_images images]. rewrite Hi.
      intros x Hx. rewrite dict_keys_set.
      intros [->|Hin]; [done|].
      by apply (Hfresh x); [apply list_elem_of_further|].
Qed.

(** [create_object] on a new image object, whose layer table is empty:
    when it returns, the layer table has one layer object for each name
    on the topology, in the order of the topology, each with a volume
    object; if the configuration names the image after the top (or sole)
    name of a topology without repetition, the image is consistent. *)
Theorem create_object_builds_topology st st' (names : list string) :
  images (self st) = [] →
  (topology (self st) = {["none" := names]} ∧ length names = 1) ∨
  (topology (self st) = {["chain" := names]} ∧ 2 ≤ length names) →
  last names = Some (name (self st)) →
  NoDup names →
  create_object st = (Ok tt, st') →
  Dict.keys (images (self st')) = names ∧
  (∀ x, x ∈ names → ∃ v, layer_volume st' x v) ∧
  consistent (self st').
Proof.
  intros Hempty Hshape Hlast Hnd H.
  destruct (consistent_tagged _ _ Hshape) as [k Ht].
  unfold create_object in H.
  rewrite (bind_ok _ _ _ _ _ (tagged_image_names _ _ _ Ht)) in H.
  apply create_each_ok in H as (Hname & Htopo & Hkeys & _ & Hall);
    [|done|].
  - rewrite Hempty in Hkeys. simpl in Hkeys.
    split; [done|]. split.
    + intros x Hx. destruct (Hall x Hx) as (image & v & ? & ? & _).
      exists v, image. done.
    + exists names. rewrite Htopo, Hname, Hkeys. done.
  - rewrite Hempty. intros x _. apply not_elem_of_nil.
Qed.

(** *** Failures that are not undone *)

(** Steps over a read in [H : bind m k st = (Raise e, st')]: either the
    read raised, and the state is the one before, or it returned. *)
Ltac read_or_raise H Hro x :=
  let E := fresh "E" in
  let r := fresh "r" in
  let s := fresh "s" in
  unfold bind at 1 in H;
  match type of H with
  | (match ?m ?s0 with _ => _ end) = _ =>
      destruct (m s0) as [r s] eqn:E;
      apply (read_only_inv _ _ _ _ Hro) in E; subst s;
      destruct r as [x|?]; [|injection H as _ <-; by left]
  end.

(** [add_image_object] is not undone when it fails. Without
    [backing_chain] a failure leaves the name, the topology and the
    layer table as they were. With [backing_chain] the topology is
    extended before the layer object is created: a failure either leaves
    them as they were, or leaves the target as the name of the image and
    the top of the chain, with no layer object for it. *)
Theorem add_failure_is_not_undone st a e st' (k : string)
    (names : list string) target :
  tagged st k names →
  arg_target a = Some target →
  add_image_object a st = (Raise e, st') →
  layers_of st' = layers_of st ∨
  (arg_backing_chain a = Some true ∧
   Dict.mem target (images (self st)) = false ∧
   name (self st') = target ∧
   topology (self st') = {["chain" := (names ++ [target])%list]} ∧
   images (self st') = images (self st)).
Proof.
  intros Ht Ha H. unfold add_image_object in H. rewrite Ha in H.
  autorewrite with run in H.
  destruct (arg_target_params a) as [p|];
    [|injection H as _ <-; by left].
  autorewrite with run in H.
  assert (read_only
            (match arg_nodes a with
             | Some (n :: ns) => ret (n :: ns)
             | _ => image_access_nodes
             end)) as Hnodes by reads.
  read_or_raise H Hnodes node_names.
  autorewrite with run in H.
  destruct (Dict.mem target (images (self st))) eqn:Hmem;
    [injection H as _ <-; by left|].
  read_or_raise H read_only_image_access_nodes access.
  destruct (negb _); [injection H as _ <-; by left|].
  read_or_raise H (read_only_define_image_config target p) config.
  destruct (arg_backing_chain a) as [[|]|] eqn:Hbc; cbn [default from_option id] in H.
  - rewrite !run_bind_bind in H.
    read_or_raise H read_only_top_name top_.
    rewrite !run_bind_bind in H.
    rewrite (bind_ok _ _ _ _ _ (image_names_append_tagged _ _ _ target Ht))
      in H.
    rewrite !run_bind_bind, run_bind_update_self in H.
    match type of H with bind _ _ ?s = _ => set (st3 := s) in H end.
    assert (tagged st3 k (names ++ [target])) as Ht3.
    { split; [done|apply Ht]. }
    rewrite !run_bind_bind in H.
    rewrite (bind_ok _ _ _ _ _ (none_to_chain_tagged _ _ _ Ht3)) in H.
    rewrite run_bind_ret, run_bind_update_self in H.
    unfold bind at 1 in H.
    destruct (_create_image_object target _) as [[image|e1] st5] eqn:Hc.
    { rewrite run_update_self in H. discriminate. }
    injection H as _ <-.
    apply (keeps_inv _ _ _ _ _ (keeps_layers_create_image_object _)) in Hc.
    unfold layers_of in Hc. injection Hc as Hn Htopo Hi.
    right. done.
  - rewrite run_bind_ret, run_bind_update_self in H.
    unfold bind at 1 in H.
    destruct (_create_image_object target _) as [[image|e1] st5] eqn:Hc.
    { rewrite run_update_self in H. discriminate. }
    injection H as _ <-.
    apply (keeps_inv _ _ _ _ _ (keeps_layers_create_image_object _)) in Hc.
    by left.
  - rewrite run_bind_ret, run_bind_update_self in H.
    unfold bind at 1 in H.
    destruct (_create_image_object target _) as [[image|e1] st5] eqn:Hc.
    { rewrite run_update_self in H. discriminate. }
    injection H as _ <-.
    apply (keeps_inv _ _ _ _ _ (keeps_layers_create_image_object _)) in Hc.
    by left.
Qed.

Lemma create_image_object_stored image_name st image st' :
  _create_image_object image_name st = (Ok image, st') →
  Dict.get image_name (spec_images (self st')) = Some image.
Proof.
  intros H. unfold _create_image_object in H. autorewrite with run in H.
  destruct (Dict.get image_name _) as [c1|]; [|discriminate].
  autorewrite with run in H.
  destruct (get_qemu_image_class _); [|discriminate].
  destruct (volume_config_of c1); [|discriminate].
  autorewrite with run in H. rewrite run_bind_update_self in H.
  apply bind_inv_ok in H as (vid & ste & Hcro & H).
  apply bind_inv_ok in H as ([] & stf & Hupd & H).
  rewrite run_bind_update_self in H. injection H as <- <-.
  cbn [self with_self set_spec_images spec_images].
  apply dict_get_set_eq.
Qed.

(** The layer object a successful [add_image_object] has made. *)
Lemma add_image_object_layer st a st1 target :
  arg_target a = Some target →
  add_image_object a st = (Ok tt, st1) →
  ∃ image,
    Dict.get target (spec_images (self st1)) = Some image ∧
    Dict.get target (images (self st1)) = Some image ∧
    meta_name image = target.
Proof.
  intros Ha H. unfold add_image_object in H. rewrite Ha in H.
  autorewrite with run in H.
  destruct (arg_target_params a) as [p|]; [|discriminate].
  autorewrite with run in H.
  apply bind_inv_ok in H as (nn & sta & _ & H).
  autorewrite with run in H.
  destruct (Dict.mem target (images (self sta))); [discriminate|].
  apply bind_inv_ok in H as (acc & stb & _ & H).
  destruct (negb _); [discriminate|].
  apply bind_inv_ok in H as (c0 & stc & Hdef & H).
  apply define_image_config_ok in Hdef as [_ Hn].
  apply bind_inv_ok in H as (c1 & stc' & Hc1 & H).
  assert (meta_name c1 = target) as Hn1.
  { destruct (default false (arg_backing_chain a)).
    - apply bind_inv_ok in Hc1 as (? & ? & _ & Hc1).
      apply bind_inv_ok in Hc1 as (? & ? & _ & Hc1).
      apply bind_inv_ok in Hc1 as (? & ? & _ & Hc1).
      apply bind_inv_ok in Hc1 as (? & ? & _ & Hc1).
      by injection Hc1 as <- _.
    - by injection Hc1 as <- _. }
  rewrite run_bind_update_self in H.
  apply bind_inv_ok in H as (image & std & Hcreate & H).
  rewrite run_update_self in H. injection H as <-.
  pose proof (create_image_object_stored _ _ _ _ Hcreate) as Hstored.
  apply create_image_object_ok in Hcreate as (config & v & Hget & ->).
  cbn [self with_self set_spec_images spec_images] in Hget.
  rewrite dict_get_set_eq in Hget. injection Hget as <-.
  exists (set_volume v c1).
  cbn [self with_self set_images spec_images images].
  split; [done|]. split; [apply dict_get_set_eq|done].
Qed.

(** After a [qemu_img_rebase] that succeeds, the target is a layer
    object of the image whose backing is the layer that was the top, in
    the layer table and under [spec.images] alike. *)
Theorem rebase_records_backing st a st' (k : string) (names : list string) :
  tagged st k names →
  qemu_img_rebase a st = (Ok tt, st') →
  ∃ target top_ image,
    arg_target a = Some target ∧
    last names = Some top_ ∧
    Dict.get target (images (self st')) = Some image ∧
    Dict.get target (spec_images (self st')) = Some image ∧
    meta_name image = target ∧
    backing image = Some top_.
Proof.
  intros Ht H. unfold qemu_img_rebase in H.
  read_in H top_ Htop. apply (tagged_top_name _ _ _ _ _ Ht) in Htop.
  destruct (arg_target a) as [target|]; [|discriminate]. mstep_in H.
  destruct (arg_target_params a) as [p|]; [|discriminate]. mstep_in H.
  apply bind_inv_ok in H as ([] & st1 & Hadd & H).
  pose proof (add_image_object_ok _ _ _ _ _ Ht Hadd)
    as (? & image & [= <-] & Hmem & Himages & _ & Hname & Htopo).
  apply bind_inv_ok in H as ([] & st2 & Hcreate & H).
  apply (keeps_inv _ _ _ _ _ (keeps_self_create _)) in Hcreate.
  read_in H access Hacc.
  destruct (head access) as [node_name|]; [|discriminate]. mstep_in H.
  apply bind_inv_ok in H as ([] & st3 & Hupdate & H).
  apply (keeps_inv _ _ _ _ _ (keeps_self_update_image _ _ _)) in Hupdate.
  mstep_in H.
  assert (tagged (with_self (set_name target) st3) k names) as Ht3.
  { eapply tagged_same_topology; [|exact Ht]. simpl. congruence. }
  rewrite (bind_ok _ _ _ _ _ (image_names_append_tagged _ _ _ target Ht3)) in H.
  match type of H with bind _ _ ?s = _ => set (st4 := s) in H end.
  assert (tagged st4 k (names ++ [target])) as Ht4.
  { split; [done|apply Ht]. }
  rewrite (bind_ok _ _ _ _ _ (none_to_chain_tagged _ _ _ Ht4)) in H.
  unfold set_layer_backing in H. mstep_in H.
  destruct (Dict.get target _) as [config|] eqn:Hconfig; [|discriminate].
  mstep_in H. injection H as <-.
  cbn [self with_self set_images set_spec_images images spec_images
       set_topology set_name] in *.
  subst st4.
  cbn [self with_self set_images set_spec_images images spec_images
       set_topology set_name] in *.
  rewrite Hupdate, Hcreate in Hconfig |- *.
  destruct (add_image_object_layer st
              (mk_arguments (Some target) (Some p) None (arg_nodes a) None)
              st1 target eq_refl Hadd)
    as (image' & Hspec & Himg & Hmeta).
  rewrite Hspec in Hconfig. injection Hconfig as <-.
  assert (Dict.mem target (images (self st1)) = true) as ->.
  { unfold Dict.mem. by rewrite Himg. }
  exists target, top_, (set_backing (Some top_) image').
  rewrite !dict_get_set_eq. done.
Qed.

End facts.
End QemuVirImageLifecycle.

(** * Properties of the defined configuration *)
Module QemuVirImageConfigFacts.
Import QemuVirImageConfig PyFacts QemuVirImageFacts QemuVirImageLifecycle.
Open Scope py_scope.

Section facts.
Context {cluster : Cluster} {cartesian : Params}.

Lemma define_topo_chain_ok p chain : ∀ backing0 images st r st',
  _define_topo_chain_config p chain backing0 images st = (Ok r, st') →
  NoDup chain →
  (∀ x, x ∈ chain → x ∉ Dict.keys images) →
  st' = st ∧
  Dict.keys r = (Dict.keys images ++ chain)%list ∧
  (∀ x, x ∉ chain → Dict.get x r = Dict.get x images) ∧
  ∀ i tag, chain !! i = Some tag →
    ∃ c, Dict.get tag r = Some c ∧ meta_name c = tag ∧
         volume_id c = None ∧
         backing c = match i with 0 => backing0 | S j => chain !! j end.
Proof.
  induction chain as [|tag0 chain IH]; intros backing0 images st r st' H Hnd
    Hfresh; simpl in H.
  - injection H as <- <-. rewrite app_nil_r. repeat split; done.
  - apply NoDup_cons in Hnd as [Hnin Hnd].
    read_in H config Hconfig.
    pose proof Hconfig as Hvol.
    apply define_image_config_ok in Hconfig as [Hb Hn].
    apply IH in H as (-> & Hkeys & Hkeep & Hall); [|done|].
    + rewrite dict_keys_set_fresh in Hkeys
        by (apply Hfresh, list_elem_of_here).
      split; [done|]. split; [by rewrite Hkeys, <- app_assoc|]. split.
      * intros x [Hne Hx]%not_elem_of_cons.
        rewrite Hkeep by done. by apply dict_get_set_ne.
      * intros [|i] tag Hi; simpl in Hi.
        -- injection Hi as <-. rewrite Hkeep by done.
           rewrite dict_get_set_eq. eexists. split; [done|].
           unfold define_image_config, define_config,
             define_resource_config in Hvol.
           destruct (get_qemu_image_class _); [|discriminate].
           autorewrite with run in Hvol.
           destruct (select_pool st _); [|discriminate].
           autorewrite with run in Hvol. injection Hvol as <-.
           by destruct backing0.
        -- destruct (Hall i tag Hi) as (c & Hc & Hm & Hv & Hbk).
           exists c. repeat (split; [done|]).
           rewrite Hbk. by destruct i.
    + intros x Hx. rewrite dict_keys_set.
      intros [->|Hin]; [done|].
      by apply (Hfresh x); [apply list_elem_of_further|].
Qed.

Lemma define_config_chain_ok image_name p st config st' :
  let image_chain := objects (object_params p image_name) "image_chain" in
  image_chain ≠ [] →
  NoDup image_chain →
  _define_config_legacy image_name p st = (Ok config, st') →
  st' = st ∧
  name config = image_name ∧
  topology config = {["chain" := image_chain]} ∧
  images config = [] ∧
  Dict.keys (spec_images config) = image_chain ∧
  ∀ i tag, image_chain !! i = Some tag →
    ∃ c, Dict.get tag (spec_images config) = Some c ∧
         meta_name c = tag ∧
         backing c = match i with 0 => None | S j => image_chain !! j end.
Proof.
  intros image_chain Hne Hnd H. unfold _define_config_legacy in H.
  fold image_chain in H.
  destruct image_chain as [|tag0 chain] eqn:Hchain; [done|].
  apply bind_inv_ok in H as (r & st1 & Hloop & H).
  injection H as <- <-.
  apply define_topo_chain_ok in Hloop as (-> & Hkeys & _ & Hall); [|done|].
  - repeat (split; [done|]).
    intros i tag Hi. destruct (Hall i tag Hi) as (c & ? & ? & _ & ?).
    eauto.
  - intros x _. apply not_elem_of_nil.
Qed.

Lemma define_config_none_ok image_name p st config st' :
  objects (object_params p image_name) "image_chain" = [] →
  _define_config_legacy image_name p st = (Ok config, st') →
  st' = st ∧
  name config = image_name ∧
  topology config = {["none" := [image_name]]} ∧
  images config = [] ∧
  ∃ c, spec_images config = [(image_name, c)] ∧
       meta_name c = image_name ∧ backing c = None.
Proof.
  intros Hchain H. unfold _define_config_legacy in H. rewrite Hchain in H.
  read_in H c Hc. injection H as <-.
  apply define_image_config_ok in Hc as [Hb Hn]. eauto 10.
Qed.

(** The configuration defined for an image: with an [image_chain]
    without repetition the topology is the chain, [spec.images] has one
    configuration for each name of the chain, in its order, the base has
    no backing and every other layer is backed by the name before it;
    without an [image_chain] the topology is [{none: [image_name]}] and
    the one layer has no backing. The image is named [image_name], on the
    chain or not. Defining the configuration changes nothing. *)
Theorem define_config_topology image_name p st config st' :
  let image_chain := objects (object_params p image_name) "image_chain" in
  NoDup image_chain →
  _define_config_legacy image_name p st = (Ok config, st') →
  let names :=
    match image_chain with [] => [image_name] | _ => image_chain end in
  st' = st ∧
  name config = image_name ∧
  topology config
    = {[(match image_chain with [] => "none" | _ => "chain" end) := names]} ∧
  Dict.keys (spec_images config) = names ∧
  ∀ i tag, names !! i = Some tag →
    ∃ c, Dict.get tag (spec_images config) = Some c ∧
         meta_name c = tag ∧
         backing c = match i with 0 => None | S j => names !! j end.
Proof.
  intros image_chain Hnd H.
  destruct (decide (image_chain = [])) as [Hnil|Hne].
  - pose proof (define_config_none_ok _ _ _ _ _ Hnil H)
      as (-> & Hn & Ht & _ & c & Hs & Hm & Hb).
    unfold image_chain in *. rewrite Hnil. cbv zeta.
    repeat (split; [done|]). split; [by rewrite Hs|].
    intros [|i] tag Hi; [|done]. injection Hi as <-.
    exists c. rewrite Hs. simpl. by rewrite decide_True.
  - pose proof (define_config_chain_ok _ _ _ _ _ Hne Hnd H)
      as (-> & Hn & Ht & _ & Hk & Hall).
    unfold image_chain in *. destruct (objects _ _); [done|]. done.
Qed.

Lemma keys_nil_inv {V} (d : dict V) : Dict.keys d = [] → d = [].
Proof. unfold Dict.keys. apply fmap_nil_inv. Qed.

(** From the parameters to the object: an image defined with a chain of
    two or more names without repetition that ends in [image_name], or
    without a chain, and then built by [create_object], is consistent,
    and its layer objects are those of the topology, base first. *)
Theorem defined_image_is_consistent image_name p st config st1 st2 :
  let image_chain := objects (object_params p image_name) "image_chain" in
  NoDup image_chain →
  image_chain = [] ∨
    (last image_chain = Some image_name ∧ 2 ≤ length image_chain) →
  manager_define_image_config image_name p st = (Ok config, st1) →
  new_image_object config st1 = (Ok tt, st2) →
  consistent (self st2) ∧
  name (self st2) = image_name ∧
  Dict.keys (images (self st2))
    = match image_chain with [] => [image_name] | _ => image_chain end.
Proof.
  intros image_chain Hnd Hshape Hdef Hnew.
  unfold manager_define_image_config in Hdef.
  destruct (get_virtual_image_class _); [|discriminate].
  unfold new_image_object in Hnew. rewrite run_bind_update_self in Hnew.
  unfold create_object in Hnew.
  match type of Hnew with bind _ _ ?s = _ => set (st0 := s) in Hnew end.
  assert (∃ k names,
            tagged st0 k names ∧ name (self st0) = image_name ∧
            names = match image_chain with
                    | [] => [image_name] | _ => image_chain
                    end ∧
            ((k = "none" ∧ length names = 1) ∨
             (k = "chain" ∧ 2 ≤ length names)) ∧
            last names = Some image_name ∧ NoDup names)
    as (k & names & Ht & Hname & Hnames & Hk & Hlast & Hnd').
  { destruct Hshape as [Hnil|[Hlast Hlen]].
    - pose proof (define_config_none_ok _ _ _ _ _ Hnil Hdef)
        as (_ & Hn & Htopo & _).
      exists "none", [image_name]. fold image_chain in Hnil.
      rewrite Hnil. split; [split; auto|].
      repeat (split; [done|]). split; [by left|]. split; [done|].
      apply NoDup_singleton.
    - assert (image_chain ≠ []) as Hne
        by (intros E; rewrite E in Hlen; simpl in Hlen; lia).
      pose proof (define_config_chain_ok _ _ _ _ _ Hne Hnd Hdef)
        as (_ & Hn & Htopo & _).
      exists "chain", image_chain. split; [split; auto|].
      split; [done|]. split; [by destruct image_chain|].
      split; [by right|]. done. }
  rewrite (bind_ok _ _ _ _ _ (tagged_image_names _ _ _ Ht)) in Hnew.
  apply create_each_ok in Hnew as (Hname' & Htopo' & Hkeys & _ & _);
    [|done|intros x _; apply not_elem_of_nil].
  simpl in Hkeys. rewrite Hname' , Hname, Hkeys, <- Hnames.
  split; [|done].
  exists names. rewrite Htopo', Hname', Hname, Hkeys.
  destruct Ht as [Htopo _]. rewrite Htopo.
  split; [destruct Hk as [[-> ?]|[-> ?]]; auto|]. done.
Qed.

End facts.
End QemuVirImageConfigFacts.

(** * Scenarios on the life of an image *)
Module LifecycleScenarios.
Import QemuVirImageConfig PyFacts QemuVirImageFacts Scenarios.
Import QemuVirImageLifecycle QemuVirImageConfigFacts.
Open Scope py_scope.

(** Parameters that every object sees as they are; a list of names is
    written with single spaces. *)
Definition spaced : Params := {|
  object_params := λ p _, p;
  objects := λ p key,
    match Dict.get key p with
    | Some s => Doc.split_on " " s
    | None => []
    end;
|}.

(** The parameters of the chain base <- sn, and of an image without a
    chain. *)
Definition chain_params : params := [("image_chain", "base sn")].
Definition plain_params : params := [].

(** The image agent refuses [rebase]. *)
Definition no_rebase : Cluster := {|
  get_qemu_image_class := formats;
  select_pool := λ _ _, Some "pool1";
  bind_nodes := λ _ _, ["node1"];
  backing_agent := λ _ _ _, (0%Z, "");
  image_agent := λ _ _ cmd _,
    if decide (cmd = "rebase") then (1%Z, "no backing file") else (0%Z, "");
|}.

(** The resource manager selects a pool that it does not have. *)
Definition lost_pool : Cluster := {|
  get_qemu_image_class := formats;
  select_pool := λ _ _, Some "pool2";
  bind_nodes := λ _ _, ["node1"];
  backing_agent := λ _ _ _, (0%Z, "");
  image_agent := λ _ _ _ _, (0%Z, "");
|}.

(** No image object yet: one pool, no volume. *)
Definition no_image : state :=
  mk_state (mk_vir_image "" ∅ [] []) one_pool ∅ 0 [].

Example remove_leaves_a_layer_runs :
  remove_image_object (cluster := healthy) (target_only "base") base_image
    = (Raise (ValueError (MustHaveOneImage "base")), base_image) ∧
  Dict.keys
    (images (self (remove_image_object (cluster := healthy)
                     (target_only "sn") (chain_image false)).2))
    = ["base"] ∧
  Dict.keys
    (spec_images (self (remove_image_object (cluster := healthy)
                          (target_only "sn") (chain_image false)).2))
    = ["base"; "sn"].
Proof. by vm_compute. Qed.

Lemma add_then_remove_witness :
  let st := base_image in
  let a := add_arguments "sn" (Some true) in
  let st1 := (add_image_object (cluster := healthy) a st).2 in
  let st2 :=
    (remove_image_object (cluster := healthy) (target_only "sn") st1).2 in
  (consistent (self st) ∧
   arg_target a = Some "sn" ∧
   arg_target (target_only "sn") = Some "sn" ∧
   add_image_object (cluster := healthy) a st = (Ok tt, st1) ∧
   remove_image_object (cluster := healthy) (target_only "sn") st1
     = (Ok tt, st2)) ∧
  name (self st2) = name (self st) ∧
  topology (self st2) = topology (self st) ∧
  images (self st2) = images (self st).
Proof.
  intros st a st1 st2.
  assert (add_image_object (cluster := healthy) a st = (Ok tt, st1)) as H1
    by (vm_compute; reflexivity).
  assert (remove_image_object (cluster := healthy) (target_only "sn") st1
            = (Ok tt, st2)) as H2 by (vm_compute; reflexivity).
  split.
  { split; [apply consistent_base_image|].
    split; [reflexivity|]. split; [reflexivity|]. split; assumption. }
  exact (add_then_remove (cluster := healthy) st a (target_only "sn") "sn"
           st1 st2 consistent_base_image eq_refl eq_refl H1 H2).
Defined.

Lemma add_outside_access_nodes_rejected_witness :
  let st := base_image in
  let a := mk_arguments (Some "sn") (Some []) None (Some ["node2"]) None in
  (arg_target a = Some "sn" ∧
   arg_target_params a = Some [] ∧
   arg_nodes a = Some ["node2"] ∧
   Dict.mem "sn" (images (self st)) = false ∧
   image_access_nodes st = (Ok ["node1"], st) ∧
   ¬ ["node2"] ⊆ ["node1"]) ∧
  add_image_object (cluster := healthy) a st
    = (Raise (ValueError (NotASubset ["node2"] ["node1"])), st).
Proof.
  intros st a.
  assert (image_access_nodes st = (Ok ["node1"], st)) as H1
    by (vm_compute; reflexivity).
  assert (¬ ["node2"] ⊆ ["node1"]) as H2.
  { intros H. specialize (H "node2" (list_elem_of_here _ _)).
    by apply list_elem_of_singleton in H. }
  split;
    [exact (conj eq_refl (conj eq_refl (conj eq_refl
              (conj eq_refl (conj H1 H2)))))|].
  exact (add_outside_access_nodes_rejected (cluster := healthy) st a "sn" []
           ["node2"] ["node1"] eq_refl eq_refl eq_refl eq_refl H1 H2).
Defined.

Lemma rebase_failure_keeps_layer_witness :
  let st := base_image in
  let a := mk_arguments (Some "sn") (Some []) None None None in
  let st1 :=
    (add_image_object (cluster := no_rebase)
       (mk_arguments (Some "sn") (Some []) None (arg_nodes a) None) st).2 in
  let st' := (qemu_img_rebase (cluster := no_rebase) a st).2 in
  (tagged st "none" ["base"] ∧
   ["base"] ≠ [] ∧
   arg_target a = Some "sn" ∧
   arg_target_params a = Some [] ∧
   add_image_object (cluster := no_rebase)
     (mk_arguments (Some "sn") (Some []) None (arg_nodes a) None) st
     = (Ok tt, st1) ∧
   qemu_img_rebase (cluster := no_rebase) a st
     = (Raise (Exception "no backing file"), st')) ∧
  self st' = self st1 ∧
  name (self st') = name (self st) ∧
  topology (self st') = topology (self st) ∧
  "sn" ∈ Dict.keys (images (self st')).
Proof.
  intros st a st1 st'.
  assert (tagged st "none" ["base"]) as H1 by (split; [reflexivity|by left]).
  assert (["base"] ≠ @nil string) as H2 by discriminate.
  assert (add_image_object (cluster := no_rebase)
            (mk_arguments (Some "sn") (Some []) None (arg_nodes a) None) st
            = (Ok tt, st1)) as H3 by (vm_compute; reflexivity).
  assert (qemu_img_rebase (cluster := no_rebase) a st
            = (Raise (Exception "no backing file"), st')) as H4
    by (vm_compute; reflexivity).
  split;
    [exact (conj H1 (conj H2 (conj eq_refl (conj eq_refl (conj H3 H4)))))|].
  exact (rebase_failure_keeps_layer (cluster := no_rebase) st a "sn" []
           "none" ["base"] st1 _ st' H1 H2 eq_refl eq_refl H3 H4).
Defined.

Lemma add_failure_is_not_undone_witness :
  let st := base_image in
  let a := add_arguments "sn" (Some true) in
  let st' := (add_image_object (cluster := lost_pool) a st).2 in
  (tagged st "none" ["base"] ∧
   arg_target a = Some "sn" ∧
   add_image_object (cluster := lost_pool) a st
     = (Raise (NotFound "pool"), st')) ∧
  (layers_of st' = layers_of st ∨
   (arg_backing_chain a = Some true ∧
    Dict.mem "sn" (images (self st)) = false ∧
    name (self st') = "sn" ∧
    topology (self st') = {["chain" := ["base"; "sn"]]} ∧
    images (self st') = images (self st))).
Proof.
  intros st a st'.
  assert (tagged st "none" ["base"]) as H1 by (split; [reflexivity|by left]).
  assert (add_image_object (cluster := lost_pool) a st
            = (Raise (NotFound "pool"), st')) as H2
    by (vm_compute; reflexivity).
  split; [exact (conj H1 (conj eq_refl H2))|].
  exact (add_failure_is_not_undone (cluster := lost_pool) st a _ st' "none"
           ["base"] "sn" H1 eq_refl H2).
Defined.

(** The failed call has left "sn" as the name of the image and on its
    chain, with no layer object: the image is no longer consistent. *)
Example add_failure_runs :
  let st' :=
    (add_image_object (cluster := lost_pool)
       (add_arguments "sn" (Some true)) base_image).2 in
  name (self st') = "sn" ∧
  topology (self st') = {["chain" := ["base"; "sn"]]} ∧
  Dict.keys (images (self st')) = ["base"].
Proof. by vm_compute. Qed.

Lemma rebase_records_backing_witness :
  let st := base_image in
  let a := mk_arguments (Some "sn") (Some []) None None None in
  let st' := (qemu_img_rebase (cluster := healthy) a st).2 in
  (tagged st "none" ["base"] ∧
   qemu_img_rebase (cluster := healthy) a st = (Ok tt, st')) ∧
  ∃ target top_ image,
    arg_target a = Some target ∧
    last ["base"] = Some top_ ∧
    Dict.get target (images (self st')) = Some image ∧
    Dict.get target (spec_images (self st')) = Some image ∧
    meta_name image = target ∧
    backing image = Some top_.
Proof.
  intros st a st'.
  assert (tagged st "none" ["base"]) as H1 by (split; [reflexivity|by left]).
  assert (qemu_img_rebase (cluster := healthy) a st = (Ok tt, st')) as H2
    by (vm_compute; reflexivity).
  split; [exact (conj H1 H2)|].
  exact (rebase_records_backing (cluster := healthy) st a st' "none"
           ["base"] H1 H2).
Defined.

Lemma create_allocates_topology_witness :
  let st := image_with_two_spares in
  let st' := (create (cluster := healthy) no_arguments st).2 in
  (tagged st "none" ["base"] ∧
   create (cluster := healthy) no_arguments st = (Ok tt, st')) ∧
  self st' = self st ∧
  ∃ node vs,
    Forall2 (layer_volume st) (targets (arg_target no_arguments) ["base"])
      vs ∧
    trace st'
      = (trace st ++ ((λ v, UpdateResource v Allocate) <$> vs)
           ++ [UpdateImage node "create" no_arguments])%list.
Proof.
  intros st st'.
  assert (tagged st "none" ["base"]) as H1 by (split; [reflexivity|by left]).
  assert (create (cluster := healthy) no_arguments st = (Ok tt, st')) as H2
    by (vm_compute; reflexivity).
  split; [exact (conj H1 H2)|].
  exact (create_allocates_topology (cluster := healthy) st no_arguments st'
           "none" ["base"] H1 H2).
Defined.

(** On "base" with two layers off the topology, [create] allocates the
    volume of "base" alone and [destroy] releases all three. *)
Example create_and_destroy_runs :
  trace (create (cluster := healthy) no_arguments image_with_two_spares).2
    = [UpdateResource 0 Allocate; UpdateImage "node1" "create" no_arguments] ∧
  trace (destroy (cluster := healthy) no_arguments image_with_two_spares).2
    = [UpdateResource 0 Release; UpdateResource 1 Release;
       UpdateResource 2 Release].
Proof. by vm_compute. Qed.

Lemma destroy_object_top_first_witness :
  let st := chain_image false in
  let st' := (destroy_object (cluster := healthy) st).2 in
  (tagged st "chain" ["base"; "sn"] ∧
   NoDup (Dict.keys (images (self st))) ∧
   destroy_object (cluster := healthy) st = (Ok tt, st')) ∧
  images (self st') = [] ∧
  ∃ vs,
    Forall2 (layer_volume st)
      (reverse ["base"; "sn"]
         ++ list_difference (Dict.keys (images (self st))) ["base"; "sn"])
      vs ∧
    trace st'
      = (trace st
           ++ flat_map (λ v, [UpdateResource v Unbind; DestroyResource v])
                vs)%list.
Proof.
  intros st st'.
  assert (tagged st "chain" ["base"; "sn"]) as H1
    by (split; [reflexivity|by right]).
  assert (NoDup (Dict.keys (images (self st)))) as H2
    by (apply (bool_decide_unpack _); vm_compute; exact I).
  assert (destroy_object (cluster := healthy) st = (Ok tt, st')) as H3
    by (vm_compute; reflexivity).
  split; [exact (conj H1 (conj H2 H3))|].
  exact (destroy_object_top_first (cluster := healthy) st st' "chain"
           ["base"; "sn"] H1 H2 H3).
Defined.

(** The chain base <- sn is destroyed from the top. *)
Example destroy_object_runs :
  trace (destroy_object (cluster := healthy) (chain_image false)).2
    = [UpdateResource 1 Unbind; DestroyResource 1;
       UpdateResource 0 Unbind; DestroyResource 0].
Proof. by vm_compute. Qed.

(** The configuration of the chain base <- sn, as defined. *)
Definition defined_chain : vir_image :=
  match (manager_define_image_config (cluster := healthy)
           (cartesian := spaced) "sn" chain_params no_image).1 with
  | Ok config => config
  | Raise _ => self no_image
  end.

Lemma define_config_topology_witness :
  let config := defined_chain in
  (NoDup (objects (Params := spaced)
            (object_params (Params := spaced) chain_params "sn")
            "image_chain") ∧
   _define_config_legacy (cluster := healthy) (cartesian := spaced)
     "sn" chain_params no_image = (Ok config, no_image)) ∧
  name config = "sn" ∧
  topology config = {["chain" := ["base"; "sn"]]} ∧
  Dict.keys (spec_images config) = ["base"; "sn"] ∧
  ∀ i tag, ["base"; "sn"] !! i = Some tag →
    ∃ c, Dict.get tag (spec_images config) = Some c ∧
         meta_name c = tag ∧
         backing c = match i with 0 => None | S j => ["base"; "sn"] !! j end.
Proof.
  intros config.
  assert (NoDup (objects (Params := spaced)
                   (object_params (Params := spaced) chain_params "sn")
                   "image_chain")) as H1
    by (apply (bool_decide_unpack _); vm_compute; exact I).
  assert (_define_config_legacy (cluster := healthy) (cartesian := spaced)
            "sn" chain_params no_image = (Ok config, no_image)) as H2
    by (vm_compute; reflexivity).
  split; [exact (conj H1 H2)|].
  pose proof (define_config_topology (cluster := healthy)
                (cartesian := spaced) "sn" chain_params no_image config
                no_image H1 H2) as H.
  exact (proj2 H).
Defined.

Lemma create_object_builds_topology_witness :
  let st := with_self (λ _, defined_chain) no_image in
  let st' := (create_object (cluster := healthy) st).2 in
  (images (self st) = [] ∧
   ((topology (self st) = {["none" := ["base"; "sn"]]} ∧
     length ["base"; "sn"] = 1) ∨
    (topology (self st) = {["chain" := ["base"; "sn"]]} ∧
     2 ≤ length ["base"; "sn"])) ∧
   last ["base"; "sn"] = Some (name (self st)) ∧
   NoDup ["base"; "sn"] ∧
   create_object (cluster := healthy) st = (Ok tt, st')) ∧
  Dict.keys (images (self st')) = ["base"; "sn"] ∧
  (∀ x, x ∈ ["base"; "sn"] → ∃ v, layer_volume st' x v) ∧
  consistent (self st').
Proof.
  intros st st'.
  assert ((topology (self st) = {["none" := ["base"; "sn"]]} ∧
           length ["base"; "sn"] = 1) ∨
          (topology (self st) = {["chain" := ["base"; "sn"]]} ∧
           2 ≤ length ["base"; "sn"])) as H1
    by (right; split; [vm_compute; reflexivity|simpl; lia]).
  assert (NoDup ["base"; "sn"]) as H2
    by (apply (bool_decide_unpack _); vm_compute; exact I).
  assert (create_object (cluster := healthy) st = (Ok tt, st')) as H3
    by (vm_compute; reflexivity).
  assert (images (self st) = []) as H4 by (vm_compute; reflexivity).
  assert (last ["base"; "sn"] = Some (name (self st))) as H5
    by (vm_compute; reflexivity).
  split; [exact (conj H4 (conj H1 (conj H5 (conj H2 H3))))|].
  exact (create_object_builds_topology (cluster := healthy) st st'
           ["base"; "sn"] H4 H1 H5 H2 H3).
Defined.

Lemma defined_image_is_consistent_witness :
  let config := defined_chain in
  let st2 := (new_image_object (cluster := healthy) config no_image).2 in
  (NoDup (objects (Params := spaced)
            (object_params (Params := spaced) chain_params "sn")
            "image_chain") ∧
   (objects (Params := spaced)
      (object_params (Params := spaced) chain_params "sn") "image_chain"
      = [] ∨
    (last (objects (Params := spaced)
             (object_params (Params := spaced) chain_params "sn")
             "image_chain") = Some "sn" ∧
     2 ≤ length (objects (Params := spaced)
                   (object_params (Params := spaced) chain_params "sn")
                   "image_chain"))) ∧
   manager_define_image_config (cluster := healthy) (cartesian := spaced)
     "sn" chain_params no_image = (Ok config, no_image) ∧
   new_image_object (cluster := healthy) config no_image = (Ok tt, st2)) ∧
  consistent (self st2) ∧
  name (self st2) = "sn" ∧
  Dict.keys (images (self st2)) = ["base"; "sn"].
Proof.
  intros config st2.
  assert (NoDup (objects (Params := spaced)
                   (object_params (Params := spaced) chain_params "sn")
                   "image_chain")) as H1
    by (apply (bool_decide_unpack _); vm_compute; exact I).
  assert (objects (Params := spaced)
            (object_params (Params := spaced) chain_params "sn")
            "image_chain" = [] ∨
          (last (objects (Params := spaced)
                   (object_params (Params := spaced) chain_params "sn")
                   "image_chain") = Some "sn" ∧
           2 ≤ length (objects (Params := spaced)
                         (object_params (Params := spaced) chain_params "sn")
                         "image_chain"))) as H2
    by (right; split; [vm_compute; reflexivity|vm_compute; lia]).
  assert (manager_define_image_config (cluster := healthy)
            (cartesian := spaced) "sn" chain_params no_image
            = (Ok config, no_image)) as H3 by (vm_compute; reflexivity).
  assert (new_image_object (cluster := healthy) config no_image
            = (Ok tt, st2)) as H4 by (vm_compute; reflexivity).
  split; [exact (conj H1 (conj H2 (conj H3 H4)))|].
  exact (defined_image_is_consistent (cluster := healthy)
           (cartesian := spaced) "sn" chain_params no_image config no_image
           st2 H1 H2 H3 H4).
Defined.

End LifecycleScenarios.

(** * Properties of the objects of a resource pool *)
Module ResourcePoolObjectsFacts.
Import ResourcePoolObjects PyFacts DocFacts ResourcePoolFacts.
Import QemuVirImageFacts.
Open Scope py_scope.

(** *** Reading and writing dictionaries on the heap *)

Lemma getitem_ok h v items key x :
  deref h v = Some (ODict items) → Dict.get key items = Some x →
  getitem v key h = (Ok x, h).
Proof. intros Hv Hx. unfold getitem. by rewrite Hv, Hx. Qed.

Lemma get_ok h v items key :
  deref h v = Some (ODict items) →
  get v key h = (Ok (default VNone (Dict.get key items)), h).
Proof. intros Hv. unfold get. by rewrite Hv. Qed.

Lemma setitem_ok h l items key x :
  h !! l = Some (ODict items) →
  setitem (VRef l) key x h
    = (Ok tt, <[l := ODict (Dict.set key x items)]> h).
Proof. intros Hl. unfold setitem. simpl. by rewrite Hl. Qed.

Lemma deref_insert_dict h l d k x v items :
  h !! l = Some (ODict d) →
  deref h v = Some (ODict items) →
  ∃ items',
    deref (<[l := ODict (Dict.set k x d)]> h) v = Some (ODict items') ∧
    ∀ key, key ≠ k → Dict.get key items' = Dict.get key items.
Proof.
  intros Hl Hv. destruct v as [| | | |l']; try discriminate. simpl in *.
  destruct (decide (l' = l)) as [->|Hne].
  - exists (Dict.set k x d). split.
    + apply list_lookup_insert_eq. by eapply lookup_lt_Some.
    + intros key Hkey. rewrite Hl in Hv. injection Hv as <-.
      by apply dict_get_set_ne.
  - exists items. split; [|done]. by rewrite list_lookup_insert_ne.
Qed.

Lemma deref_insert_list h l o o' v items :
  h !! l = Some o → (∀ items', o ≠ OList items') →
  deref h v = Some (OList items) →
  deref (<[l := o']> h) v = Some (OList items).
Proof.
  intros Hl Ho Hv. destruct v as [| | | |l']; try discriminate. simpl in *.
  destruct (decide (l' = l)) as [->|Hne].
  - rewrite Hl in Hv. injection Hv as ->. by destruct (Ho items).
  - by rewrite list_lookup_insert_ne.
Qed.

Lemma deref_app h new v o :
  deref h v = Some o → deref (h ++ new) v = Some o.
Proof.
  destruct v; try discriminate. simpl. intros H.
  by apply lookup_app_l_Some.
Qed.

(** *** The layout of a pool's configuration *)

(** The configuration is a dictionary whose [meta] is the dictionary at
    [m], whose [access] is a dictionary, with or without [nodes]. *)
Definition pool_layout (h : Doc.heap) (config access : value) (m : nat)
    (nodes : option value) : Prop :=
  ∃ items mi ai,
    deref h config = Some (ODict items) ∧
    Dict.get "meta" items = Some (VRef m) ∧
    h !! m = Some (ODict mi) ∧
    Dict.get "access" mi = Some access ∧
    deref h access = Some (ODict ai) ∧
    Dict.get "nodes" ai = nodes.

Lemma layout_set h config access m nodes l d k x :
  pool_layout h config access m nodes →
  h !! l = Some (ODict d) →
  k ≠ "meta" → k ≠ "access" → k ≠ "nodes" →
  pool_layout (<[l := ODict (Dict.set k x d)]> h) config access m nodes.
Proof.
  intros (items & mi & ai & Hc & Hm & Hmi & Ha & Hai & Hn) Hl ? ? ?.
  destruct (deref_insert_dict _ _ _ k x _ _ Hl Hc) as (items' & Hc' & Ei).
  destruct (deref_insert_dict _ _ _ k x (VRef m) _ Hl Hmi)
    as (mi' & Hmi' & Em).
  destruct (deref_insert_dict _ _ _ k x _ _ Hl Hai) as (ai' & Hai' & Ea).
  exists items', mi', ai'. rewrite Ei, Em, Ea by done. done.
Qed.

Lemma layout_set_nodes h config a m nodes ai x :
  pool_layout h config (VRef a) m nodes →
  h !! a = Some (ODict ai) →
  pool_layout (<[a := ODict (Dict.set "nodes" x ai)]> h) config (VRef a) m
    (Some x).
Proof.
  intros (items & mi & ai0 & Hc & Hm & Hmi & Ha & Hai & Hn) Hl.
  destruct (deref_insert_dict _ _ _ "nodes" x _ _ Hl Hc)
    as (items' & Hc' & Ei).
  destruct (deref_insert_dict _ _ _ "nodes" x (VRef m) _ Hl Hmi)
    as (mi' & Hmi' & Em).
  exists items', mi', (Dict.set "nodes" x ai).
  rewrite Ei, Em by done. repeat (split; [done|]). split.
  - simpl. apply list_lookup_insert_eq. by eapply lookup_lt_Some.
  - apply dict_get_set_eq.
Qed.

Lemma layout_app h new config access m nodes :
  pool_layout h config access m nodes →
  pool_layout (h ++ new) config access m nodes.
Proof.
  intros (items & mi & ai & Hc & Hm & Hmi & Ha & Hai & Hn).
  exists items, mi, ai.
  repeat split; auto using deref_app.
  by apply lookup_app_l_Some.
Qed.

Section facts.
Context {World : Type} {runtime : Runtime World} {host : Host World}.
Implicit Types (st : state World).

(** Runs the [on_heap] computation at the head, whose result is [H]. *)
Ltac on_heap_step H :=
  match goal with
  | |- context [bind (on_heap _) _ ?s] =>
      rewrite (pool_on_heap_ok _ _ s _ _ H)
  end;
  cbn [with_heap heap pool_config resources world].

Lemma pool_meta_layout st access m nodes :
  pool_layout (heap st) (pool_config st) access m nodes →
  pool_meta st = (Ok (VRef m), st).
Proof.
  intros (items & mi & ai & Hc & Hm & _).
  unfold pool_meta. rewrite run_bind_get_state.
  unfold on_heap. rewrite (getitem_ok _ _ _ _ _ Hc Hm). by destruct st.
Qed.

Lemma attaching_nodes_layout st access m nodes :
  pool_layout (heap st) (pool_config st) access m nodes →
  attaching_nodes st = (Ok (default VNone nodes), st).
Proof.
  intros Hl. pose proof (pool_meta_layout _ _ _ _ Hl) as Hmeta.
  destruct Hl as (items & mi & ai & Hc & Hm & Hmi & Ha & Hai & Hn).
  unfold attaching_nodes. rewrite (bind_ok _ _ _ _ _ Hmeta).
  rewrite (pool_on_heap_ok _ _ _ _ _ (getitem_ok _ (VRef m) _ _ _ Hmi Ha)).
  rewrite with_heap_id. unfold on_heap.
  rewrite (get_ok _ _ _ _ Hai), Hn. by destruct st.
Qed.

Lemma existsb_is_ref_strings (names : list string) :
  existsb is_ref (VStr <$> names) = false.
Proof. by induction names. Qed.

Lemma to_set_list h v l :
  deref h v = Some (OList l) → existsb is_ref l = false →
  to_set v h = (Ok l, h).
Proof.
  intros Hv Hl. unfold to_set. rewrite Hv, Hl.
  by destruct v.
Qed.

(** [__init__] settles the nodes of the pool: a node list in which every
    element is ["*"], the empty list among them, is replaced by the list
    of all the nodes of the cluster; any other list is kept. The pool
    starts on the configuration it is given, with no resource. *)
Theorem init_attaching_nodes st config access m n l :
  pool_layout (heap st) config access m (Some (VRef n)) →
  heap st !! n = Some (OList l) →
  existsb is_ref l = false →
  ∃ st',
    init config st = (Ok tt, st') ∧
    pool_config st' = config ∧
    resources st' = [] ∧
    ∃ attaching,
      pool_layout (heap st') config access m (Some attaching) ∧
      attaching_nodes st' = (Ok attaching, st') ∧
      to_set attaching (heap st')
        = (Ok (if forallb is_star l
               then VStr <$> get_all_nodes (world st') else l),
           heap st').
Proof.
  intros Hlay Hn Hl.
  pose proof Hlay as (items & mi & ai & Hc & Hm & Hmi & Ha & Hai & Hnodes).
  unfold init. rewrite run_bind_modify.
  unfold bind at 1, fresh_uuid.
  destruct (uuid4_hex (world (set_pool_config config st))) as [u w] eqn:Hu.
  cbn [heap pool_config resources world set_pool_config].
  set (st1 := mk_state World (heap st) config (resources st) w).
  assert (pool_layout (heap st1) (pool_config st1) access m
            (Some (VRef n))) as Hlay1 by done.
  rewrite (bind_ok _ _ _ _ _ (pool_meta_layout _ _ _ _ Hlay1)).
  rewrite (pool_on_heap_ok _ _ st1 _ _
             (setitem_ok _ _ _ "uuid" (VStr u) Hmi)).
  rewrite run_bind_modify.
  set (h1 := <[m := ODict (Dict.set "uuid" (VStr u) mi)]> (heap st)).
  set (st2 := set_resources [] (with_heap h1 st1)).
  assert (pool_layout (heap st2) (pool_config st2) access m
            (Some (VRef n))) as Hlay2.
  { apply layout_set; done. }
  assert (deref h1 (VRef n) = Some (OList l)) as Hn1.
  { by apply deref_insert_list with (o := ODict mi). }
  rewrite (bind_ok _ _ _ _ _ (attaching_nodes_layout _ _ _ _ Hlay2)).
  cbn [default from_option id].
  rewrite (pool_on_heap_ok _ _ st2 _ _ (to_set_list _ _ _ Hn1 Hl)).
  replace (with_heap (heap st2) st2) with st2 by (by rewrite with_heap_id).
  destruct (forallb is_star l).
  - rewrite run_bind_get_state.
    unfold bind at 1, on_heap at 1, alloc. cbn [heap world].
    set (names := OList (VStr <$> get_all_nodes w)).
    set (st3 := mk_state World (h1 ++ [names]) (pool_config st2)
                  (resources st2) (world st2)).
    assert (pool_layout (heap st3) (pool_config st3) access m
              (Some (VRef n))) as Hlay3.
    { by apply layout_app. }
    pose proof Hlay3
      as (items3 & mi3 & ai3 & Hc3 & Hm3 & Hmi3 & Ha3 & Hai3 & Hnodes3).
    destruct access as [| | | |a]; try discriminate.
    unfold set_attaching_nodes.
    rewrite (bind_ok _ _ _ _ _ (pool_meta_layout _ _ _ _ Hlay3)).
    rewrite (pool_on_heap_ok _ _ st3 _ _
               (getitem_ok _ (VRef m) _ _ _ Hmi3 Ha3)).
    rewrite with_heap_id.
    simpl in Hai3.
    unfold on_heap. rewrite (setitem_ok _ _ _ "nodes" _ Hai3).
    eexists. split; [done|]. split; [done|]. split; [done|].
    cbn [heap pool_config resources world].
    exists (VRef (length h1)).
    match goal with |- _ ∧ attaching_nodes ?s = _ ∧ _ => set (st4 := s) end.
    assert (pool_layout (heap st4) (pool_config st4) (VRef a) m
              (Some (VRef (length h1)))) as Hlay4.
    { apply layout_set_nodes with (nodes := Some (VRef n)); done. }
    split; [done|]. split.
    + by rewrite (attaching_nodes_layout _ _ _ _ Hlay4).
    + apply to_set_list; [|apply existsb_is_ref_strings].
      simpl. rewrite list_lookup_insert_ne.
      * by rewrite lookup_app_r, Nat.sub_diag.
      * apply lookup_lt_Some in Hai3. rewrite length_app in Hai3.
        simpl in Hai3.
        assert (a < length h1).
        { assert (is_Some (h1 !! a)) as [? Hx].
          { destruct Hlay2 as (? & ? & ? & _ & _ & _ & _ & Hx & _).
            simpl in Hx. eauto. }
          by eapply lookup_lt_Some. }
        lia.
  - rewrite run_ret. exists st2. split; [done|]. split; [done|].
    split; [done|]. exists (VRef n). split; [done|]. split.
    + by rewrite (attaching_nodes_layout _ _ _ _ Hlay2).
    + by apply to_set_list.
Qed.

(** A pool whose configuration has no [nodes] under [meta.access], or
    [None] there, cannot be built: [__init__] raises [TypeError] from
    [set(None)]. *)
Lemma init_without_nodes st config access m nodes :
  pool_layout (heap st) config access m nodes →
  nodes = None ∨ nodes = Some VNone →
  ∃ st', init config st = (Raise TypeError, st').
Proof.
  intros Hlay Hnone.
  pose proof Hlay as (items & mi & ai & Hc & Hm & Hmi & Ha & Hai & Hnodes).
  unfold init. rewrite run_bind_modify.
  unfold bind at 1, fresh_uuid.
  destruct (uuid4_hex (world (set_pool_config config st))) as [u w] eqn:Hu.
  cbn [heap pool_config resources world set_pool_config].
  set (st1 := mk_state World (heap st) config (resources st) w).
  assert (pool_layout (heap st1) (pool_config st1) access m nodes)
    as Hlay1 by done.
  rewrite (bind_ok _ _ _ _ _ (pool_meta_layout _ _ _ _ Hlay1)).
  rewrite (pool_on_heap_ok _ _ st1 _ _
             (setitem_ok _ _ _ "uuid" (VStr u) Hmi)).
  rewrite run_bind_modify.
  set (h1 := <[m := ODict (Dict.set "uuid" (VStr u) mi)]> (heap st)).
  set (st2 := set_resources [] (with_heap h1 st1)).
  assert (pool_layout (heap st2) (pool_config st2) access m nodes) as Hlay2.
  { apply layout_set; done. }
  rewrite (bind_ok _ _ _ _ _ (attaching_nodes_layout _ _ _ _ Hlay2)).
  assert (default VNone nodes = VNone) as -> by (by destruct Hnone as [->| ->]).
  eexists. unfold bind, on_heap, to_set. simpl. done.
Qed.

Lemma define_config_layout h pool_name params items pool_type :
  deref h params = Some (ODict items) →
  Dict.get "type" items = Some pool_type →
  let access := default (VRef (length h)) (Dict.get "access" items) in
  ∃ config new,
    define_config pool_name params h = (Ok config, h ++ new) ∧
    ∀ ai, deref (h ++ [ODict []]) access = Some (ODict ai) →
          pool_layout (h ++ new) config access (S (length h))
            (Dict.get "nodes" ai).
Proof.
  intros Hp Ht access. unfold define_config.
  unfold bind at 1, alloc at 1.
  assert (deref (h ++ [ODict []]) params = Some (ODict items)) as Hp1
    by (by apply deref_app).
  unfold bind at 1, get_or. rewrite Hp1.
  rewrite (bind_ok _ _ _ _ _ (getitem_ok _ _ _ _ _ Hp1 Ht)).
  fold access.
  unfold bind, alloc. rewrite !length_app. simpl length.
  eexists. exists [ODict [];
                   ODict [("name", VStr pool_name); ("uuid", VNone);
                          ("type", pool_type); ("access", access)];
                   ODict [];
                   ODict [("meta", VRef (length h + 1));
                          ("spec", VRef (length h + 1 + 1))]].
  split.
  - f_equal. rewrite <- !(assoc_L (++)). done.
  - intros ai Hai.
    eexists _, _, ai. split; [|split; [|split; [|split; [|split]]]].
    + cbn [deref]. rewrite lookup_app_r by lia.
      replace (length h + 1 + 1 + 1 - length h) with 3 by lia. done.
    + cbn [Dict.get]. rewrite decide_True by done. f_equal. f_equal. lia.
    + rewrite lookup_app_r by lia.
      replace (S (length h) - length h) with 1 by lia. done.
    + done.
    + match goal with
      | |- deref (h ++ ?a :: ?rest) _ = _ =>
          replace (h ++ a :: rest) with ((h ++ [a]) ++ rest)
            by (by rewrite <- (assoc_L (++)))
      end.
      by apply deref_app.
    + done.
Qed.

(** A pool defined from parameters without [access] cannot be built:
    [define_config] gives it the empty [access], and [__init__] raises
    [TypeError]. *)
Theorem define_without_access_cannot_init st pool_name params items
    pool_type :
  deref (heap st) params = Some (ODict items) →
  Dict.get "type" items = Some pool_type →
  Dict.get "access" items = None →
  ∃ config st1 st2,
    on_heap (define_config pool_name params) st = (Ok config, st1) ∧
    init config st1 = (Raise TypeError, st2).
Proof.
  intros Hp Ht Ha.
  destruct (define_config_layout _ pool_name _ _ _ Hp Ht)
    as (config & new & Hdef & Hlay).
  rewrite Ha in Hlay. simpl in Hlay.
  specialize (Hlay []).
  rewrite lookup_app_r, Nat.sub_diag in Hlay by done.
  specialize (Hlay eq_refl).
  set (st1 := with_heap (heap st ++ new) st).
  destruct (init_without_nodes st1 config _ _ _ Hlay (or_introl eq_refl))
    as [st2 Hinit].
  exists config, st1, st2. split; [|done].
  unfold on_heap. by rewrite Hdef.
Qed.

(** [define_config] does not copy [access]: the configuration holds the
    very object of the parameters, and the parameters themselves are
    left as they are. *)
Theorem define_config_shares_access h pool_name params items pool_type
    access ai :
  deref h params = Some (ODict items) →
  Dict.get "type" items = Some pool_type →
  Dict.get "access" items = Some access →
  deref h access = Some (ODict ai) →
  ∃ config new,
    define_config pool_name params h = (Ok config, h ++ new) ∧
    pool_layout (h ++ new) config access (S (length h))
      (Dict.get "nodes" ai).
Proof.
  intros Hp Ht Ha Hai.
  destruct (define_config_layout _ pool_name _ _ _ Hp Ht)
    as (config & new & Hdef & Hlay).
  rewrite Ha in Hlay. simpl in Hlay.
  exists config, new. split; [done|]. apply Hlay. by apply deref_app.
Qed.

(** [get_info] returns a deep copy of the pool's configuration, with or
    without [verbose]: a document with the same content, made of new
    objects; overwriting any of them leaves every stored document as it
    is. *)
Theorem get_info_is_a_copy st verbose t :
  read recursion_limit (heap st) (pool_config st) = Some t →
  ∃ v h',
    get_info verbose st = (Ok v, with_heap h' st) ∧
    content h' v t ∧ unaffected (heap st) h' v.
Proof.
  intros Hread.
  destruct (deepcopy_m_ok _ _ _ _ Hread) as (v & new & Hcopy & Hspec).
  exists v, (heap st ++ new). split; [|split].
  - unfold get_info. rewrite run_bind_get_state.
    unfold on_heap. by rewrite Hcopy.
  - exists recursion_limit. apply Hspec.
  - apply new_objects_unaffected; [|apply Hspec].
    by eapply copied_fresh_region.
Qed.

Lemma dict_del_set_new {V} k (v : V) d :
  Dict.mem k d = false → Dict.del k (Dict.set k v d) = d.
Proof.
  unfold Dict.mem. induction d as [|[k' v'] d IH]; simpl.
  - intros _. by destruct (decide (k = k)).
  - destruct (decide (k = k')) as [->|Hne]; [done|]. intros H. simpl.
    destruct (decide (k = k')); [done|]. f_equal. auto.
Qed.

(** [create_resource_object] builds the resource on the configuration it
    is given: the new uuid is written into that document, the resource
    is registered under it and it is returned. [destroy_resource_object]
    takes it out of the table again, and raises [KeyError], changing
    nothing, for an id that is not in the table. *)
Theorem create_then_destroy_resource_object st config items m mi rtype :
  deref (heap st) config = Some (ODict items) →
  Dict.get "meta" items = Some (VRef m) →
  heap st !! m = Some (ODict mi) →
  Dict.get "type" mi = Some rtype →
  get_resource_class rtype = true →
  let u := (uuid4_hex (world st)).1 in
  (∃ st1,
     create_resource_object config st = (Ok (VStr u), st1) ∧
     heap st1 = <[m := ODict (Dict.set "uuid" (VStr u) mi)]> (heap st) ∧
     resources st1 = Dict.set u (mk_resource config) (resources st) ∧
     ∃ st2,
       destroy_resource_object u st1 = (Ok tt, st2) ∧
       (Dict.mem u (resources st) = false → resources st2 = resources st)) ∧
  (∀ resource_id,
     Dict.get resource_id (resources st) = None →
     destroy_resource_object resource_id st
       = (Raise (KeyError resource_id), st)).
Proof.
  intros Hc Hm Hmi Ht Hcls u. split.
  - unfold create_resource_object.
    rewrite (pool_on_heap_ok _ _ _ _ _ (getitem_ok _ _ _ _ _ Hc Hm)).
    rewrite with_heap_id.
    rewrite (pool_on_heap_ok _ _ _ _ _ (getitem_ok _ (VRef m) _ _ _ Hmi Ht)).
    rewrite with_heap_id, Hcls.
    unfold bind at 1, fresh_uuid. subst u.
    destruct (uuid4_hex (world st)) as [u w] eqn:Hu.
    cbn [fst heap pool_config resources world].
    set (h1 := <[m := ODict (Dict.set "uuid" (VStr u) mi)]> (heap st)).
    destruct (deref_insert_dict _ _ _ "uuid" (VStr u) _ _ Hmi Hc)
      as (items' & Hc' & Ei).
    assert (Dict.get "meta" items' = Some (VRef m)) as Hm'
      by (by rewrite Ei).
    assert (h1 !! m = Some (ODict (Dict.set "uuid" (VStr u) mi))) as Hmi'.
    { apply list_lookup_insert_eq. by eapply lookup_lt_Some. }
    pose proof (getitem_ok _ (VRef m) _ _ _ Hmi' (dict_get_set_eq _ _ _))
      as Hid.
    on_heap_step (getitem_ok _ _ _ _ _ Hc Hm).
    on_heap_step (setitem_ok _ _ _ "uuid" (VStr u) Hmi).
    cbn [resource_config]. fold h1.
    on_heap_step (getitem_ok _ _ _ _ _ Hc' Hm').
    on_heap_step Hid.
    rewrite run_bind_get_state, run_bind_modify.
    cbn [set_resources heap pool_config resources world].
    on_heap_step (getitem_ok _ _ _ _ _ Hc' Hm').
    eexists. split.
    { unfold on_heap, with_heap, set_resources. cbn [heap]. fold h1.
      by rewrite Hid. }
    cbn [heap pool_config resources world].
    split; [done|]. split; [done|].
    unfold destroy_resource_object. rewrite run_bind_get_state.
    cbn [resources].
    rewrite dict_get_set_eq, run_bind_expect_Some, run_modify.
    eexists. split; [done|]. intros Hnew.
    cbn [resources set_resources]. by apply dict_del_set_new.
  - intros resource_id Hget. unfold destroy_resource_object.
    by rewrite run_bind_get_state, Hget.
Qed.

End facts.
End ResourcePoolObjectsFacts.

(** * Properties of the linux bridge network pool *)
Module LinuxBridgeNetworkFacts.
Import LinuxBridgeNetwork PyFacts DocFacts ResourcePoolFacts.
Import QemuVirImageFacts ResourcePoolObjectsFacts.
Open Scope py_scope.

(** [config["spec"][key]] *)
Definition spec_item (config : value) (key : string) : M Doc.heap value :=
  spec <- getitem config "spec" ;;
  getitem spec key.

(** [config["spec"][key][node_name]["ifname"]] *)
Definition ifname_of (config : value) (key node_name : string)
    : M Doc.heap value :=
  by_node <- spec_item config key ;;
  of_node <- getitem by_node node_name ;;
  getitem of_node "ifname".

Lemma getitem_inv v key h x h' :
  getitem v key h = (Ok x, h') →
  h' = h ∧ ∃ items, deref h v = Some (ODict items) ∧
                    Dict.get key items = Some x.
Proof.
  unfold getitem. destruct (deref h v) as [[items|?]|]; try discriminate.
  destruct (Dict.get key items) as [y|] eqn:Hy; [|discriminate].
  intros [= <- <-]. eauto.
Qed.

Lemma getitem_not_ref v key h :
  is_ref v = false → getitem v key h = (Raise TypeError, h).
Proof. by destruct v. Qed.

Lemma ifname_of_inv config key node_name h x h' :
  ifname_of config key node_name h = (Ok x, h') →
  h' = h ∧
  ∃ items s si by_node,
    deref h config = Some (ODict items) ∧
    Dict.get "spec" items = Some (VRef s) ∧
    h !! s = Some (ODict si) ∧
    Dict.get key si = Some by_node.
Proof.
  unfold ifname_of, spec_item. intros H.
  apply bind_inv_ok in H as (by_node & h1 & H1 & H).
  apply bind_inv_ok in H1 as (spec & h0 & H0 & H1).
  apply getitem_inv in H0 as (-> & items & Hc & Hs).
  apply getitem_inv in H1 as (-> & si & Hsi & Hk).
  apply bind_inv_ok in H as (of_node & h2 & H2 & H).
  apply getitem_inv in H2 as (-> & _).
  apply getitem_inv in H as (-> & _).
  split; [done|].
  destruct spec as [| | | |s]; try discriminate.
  by exists items, s, si, by_node.
Qed.

(** What one assignment of [customize_pool_config] does. *)
Lemma set_ifname_ok config key node_name h x :
  ifname_of config key node_name h = (Ok x, h) →
  key ≠ "spec" →
  ∃ h',
    set_ifname config key node_name h = (Ok tt, h') ∧
    spec_item config key h' = (Ok x, h') ∧
    (∀ key' y, key' ≠ key →
       spec_item config key' h = (Ok y, h) →
       spec_item config key' h' = (Ok y, h')).
Proof.
  intros Hif Hkey.
  destruct (ifname_of_inv _ _ _ _ _ _ Hif)
    as (_ & items & s & si & by_node & Hc & Hs & Hsi & Hk).
  assert (set_ifname config key node_name h
          = (Ok tt, <[s := ODict (Dict.set key x si)]> h)) as Hset.
  { unfold set_ifname. unfold ifname_of, spec_item in Hif.
    rewrite !run_bind_bind in Hif.
    unfold bind in Hif |- *.
    destruct (getitem config "spec" h) as [[spec|?] h0] eqn:E0;
      [|discriminate].
    apply getitem_inv in E0 as (-> & items0 & Hc0 & Hs0).
    rewrite Hc in Hc0. injection Hc0 as <-. rewrite Hs in Hs0.
    injection Hs0 as <-.
    destruct (getitem (VRef s) key h) as [[bn|?] h0] eqn:E1; [|discriminate].
    apply getitem_inv in E1 as (-> & _).
    destruct (getitem bn node_name h) as [[on|?] h0] eqn:E2; [|discriminate].
    apply getitem_inv in E2 as (-> & _).
    rewrite Hif.
    rewrite (getitem_ok _ _ _ _ _ Hc Hs).
    by rewrite (setitem_ok _ _ _ key x Hsi). }
  exists (<[s := ODict (Dict.set key x si)]> h). split; [done|].
  destruct (deref_insert_dict _ _ _ key x _ _ Hsi Hc) as (items' & Hc' & Ei).
  assert (Dict.get "spec" items' = Some (VRef s)) as Hs'.
  { rewrite Ei; [done|]. congruence. }
  assert (<[s := ODict (Dict.set key x si)]> h !! s
          = Some (ODict (Dict.set key x si))) as Hsi'.
  { apply list_lookup_insert_eq. by eapply lookup_lt_Some. }
  split.
  - unfold spec_item. rewrite (bind_ok _ _ _ _ _ (getitem_ok _ _ _ _ _ Hc' Hs')).
    apply (getitem_ok _ (VRef s) _ _ _ Hsi'). apply dict_get_set_eq.
  - intros key' y Hne Hy. unfold spec_item in Hy |- *.
    apply bind_inv_ok in Hy as (spec & h0 & H0 & Hy).
    apply getitem_inv in H0 as (-> & items0 & Hc0 & Hs0).
    rewrite Hc in Hc0. injection Hc0 as <-. rewrite Hs in Hs0.
    injection Hs0 as <-.
    apply getitem_inv in Hy as (_ & si0 & Hsi0 & Hy).
    simpl in Hsi0. rewrite Hsi in Hsi0. injection Hsi0 as <-.
    rewrite (bind_ok _ _ _ _ _ (getitem_ok _ _ _ _ _ Hc' Hs')).
    apply (getitem_ok _ (VRef s) _ _ _ Hsi').
    by rewrite dict_get_set_ne.
Qed.

Lemma set_ifname_not_ref config key node_name h x :
  spec_item config key h = (Ok x, h) →
  is_ref x = false →
  set_ifname config key node_name h = (Raise TypeError, h).
Proof.
  intros Hx Hr. unfold set_ifname. unfold spec_item in Hx.
  apply bind_inv_ok in Hx as (spec & h0 & H0 & Hx).
  pose proof (getitem_inv _ _ _ _ _ H0) as (-> & _).
  rewrite (bind_ok _ _ _ _ _ H0), (bind_ok _ _ _ _ _ Hx).
  unfold bind. by rewrite getitem_not_ref.
Qed.

Section facts.
Context {World : Type}.
Implicit Types (st : state World).



(** Without an export, as [define_config] leaves it when the parameters
    have none, [customize_pool_config] raises [TypeError], and it has
    already overwritten [spec.switch] with the interface name. *)
Theorem customize_without_export node_name st sw :
  ifname_of (pool_config st) "switch" node_name (heap st)
    = (Ok sw, heap st) →
  spec_item (pool_config st) "export" (heap st) = (Ok VNone, heap st) →
  ∃ h',
    customize_pool_config node_name st = (Raise TypeError, with_heap h' st) ∧
    spec_item (pool_config st) "switch" h' = (Ok sw, h').
Proof.
  intros Hsw Hex.
  destruct (set_ifname_ok _ _ _ _ _ Hsw) as (h1 & Hset1 & Hsw1 & Hkeep);
    [done|].
  exists h1. split; [|done].
  unfold customize_pool_config. rewrite run_bind_get_state.
  rewrite (pool_on_heap_ok _ _ _ _ _ Hset1).
  unfold bind, on_heap. cbn [heap with_heap].
  rewrite (set_ifname_not_ref _ _ _ _ VNone); [done| |done].
  by apply Hkeep.
Qed.

End facts.
End LinuxBridgeNetworkFacts.

(** * Properties of the queries of the image manager *)
Module ImageManagerQueryFacts.
Import ImageManagerQuery PyFacts DocFacts ImageManagerFacts.
Open Scope py_scope.

Lemma read_only_meta_item image key : read_only (meta_item image key).
Proof. unfold meta_item. reads; done. Qed.

Lemma read_only_image_matches image_name vm_name image :
  read_only (image_matches image_name vm_name image).
Proof.
  unfold image_matches. reads; auto using read_only_meta_item.
Qed.

Lemma query_items_ok items : ∀ image_name vm_name h r h',
  query_items items image_name vm_name h = (Ok r, h') →
  h' = h ∧
  match r with
  | Some image_id =>
      ∃ before image after,
        items = (before ++ (image_id, image) :: after)%list ∧
        image_matches image_name vm_name image h = (Ok true, h) ∧
        Forall (λ x, image_matches image_name vm_name x.2 h = (Ok false, h))
          before
  | None =>
      Forall (λ x, image_matches image_name vm_name x.2 h = (Ok false, h))
        items
  end.
Proof.
  induction items as [|[image_id image] items IH];
    intros image_name vm_name h r h' H; simpl in H.
  - injection H as <- <-. split; [done|]. constructor.
  - apply bind_inv_ok in H as (found & h1 & Hm & H).
    assert (h1 = h) as ->.
    { eapply read_only_inv; [|exact Hm]. apply read_only_image_matches. }
    destruct found.
    + injection H as <- <-. split; [done|].
      exists [], image, items. split; [done|]. split; [done|]. constructor.
    + apply IH in H as [-> H]. split; [done|].
      destruct r as [found_id|].
      * destruct H as (before & image' & after & -> & Hyes & Hno).
        exists ((image_id, image) :: before), image', after.
        split; [done|]. split; [done|]. by constructor.
      * by constructor.
Qed.

Section facts.
Context {runtime : Runtime}.

(** [query_image] returns the id of the first image of the table, in the
    order in which the images were registered, that bears the name and,
    when a [vm_name] is given, is owned by it; it returns [None] when
    the table has none. It changes nothing. *)
Theorem query_image_first_match st image_name vm_name r st' :
  query_image image_name vm_name st = (Ok r, st') →
  st' = st ∧
  match r with
  | Some image_id =>
      ∃ before image after,
        registry st = (before ++ (image_id, image) :: after)%list ∧
        image_matches image_name vm_name image (heap st)
          = (Ok true, heap st) ∧
        Forall (λ x, image_matches image_name vm_name x.2 (heap st)
                       = (Ok false, heap st)) before
  | None =>
      Forall (λ x, image_matches image_name vm_name x.2 (heap st)
                     = (Ok false, heap st)) (registry st)
  end.
Proof.
  intros H. unfold query_image in H. rewrite run_bind_get_state in H.
  unfold on_heap in H.
  destruct (query_items _ _ _ _) as [[r'|e] h'] eqn:Hq; [|discriminate].
  injection H as <- <-.
  apply query_items_ok in Hq as [-> Hq]. split; [by destruct st|done].
Qed.

Lemma lookup_path_descend_tree request path t t' :
  lookup_path path t = Some t' → descend_tree request path t = Ok t'.
Proof.
  revert t. induction path as [|item path IH]; intros t; simpl.
  - by intros [= ->].
  - destruct t as [| | |s|items|items]; try done.
    destruct (Dict.get item items) as [tx|]; [|done]. apply IH.
Qed.

(** [get_image_info] with a request whose path leads key by key through
    the dictionaries of the configuration returns a new dictionary with
    one entry: the last item of the request and the document found
    there. *)
Theorem get_image_info_path st image_id image t request t' :
  Dict.get image_id (registry st) = Some image →
  read recursion_limit (heap st) (image_config image) = Some t →
  lookup_path (split_on "." request) t = Some t' →
  ∃ v h',
    get_image_info image_id (Some request) false st
      = (Ok v, mk_state h' (registry st)) ∧
    content h' v
      (TDict [(default "" (last (split_on "." request)), t')]).
Proof.
  intros Hget Hread Hpath.
  destruct (deepcopy_spec _ _ _ _ Hread) as (v & new & Hcopy & Hspec).
  assert (image_get_image_info image false (heap st)
          = (Ok v, heap st ++ new)) as Hinfo.
  { unfold image_get_image_info, bind, deepcopy_m. by rewrite Hcopy. }
  pose proof (descend_refines request (split_on "." request) _ _ _ _
                (copied_read _ _ _ _ _ Hspec)) as Hdescend.
  rewrite (lookup_path_descend_tree request _ _ _ Hpath) in Hdescend.
  destruct Hdescend as (v' & Hd & Hr).
  set (h1 := (heap st ++ new)%list) in *.
  set (key := default "" (last (split_on "." request))).
  exists (VRef (length h1)), (h1 ++ [ODict [(key, v')]])%list. split.
  - unfold get_image_info. rewrite run_bind_get_state, Hget.
    rewrite run_bind_expect_Some.
    rewrite (manager_on_heap_ok _ _ _ _ _ Hinfo).
    cbv beta iota zeta.
    rewrite (manager_on_heap_ok _ _ (mk_state _ _) _ _ Hd).
    done.
  - exists (S recursion_limit).
    destruct (read_app _ _ [ODict [(key, v')]] _ _ Hr) as [Hr' _].
    assert ((h1 ++ [ODict [(key, v')]]) !! length h1
            = Some (ODict [(key, v')])) as Ho.
    { by rewrite lookup_app_r, Nat.sub_diag. }
    rewrite (read_dict _ _ _ _ [t'] Ho); [done|].
    simpl. by rewrite Hr'.
Qed.

End facts.
End ImageManagerQueryFacts.

(** * Scenarios on the objects of a pool *)
Module PoolObjectScenarios.
Import ResourcePool ResourcePoolObjects PyFacts DocFacts ResourcePoolFacts.
Import ResourcePoolObjectsFacts DocScenarios PoolScenarios.
Open Scope py_scope.

(** The uuid drawn is always the same and is noted in the world; the
    cluster has three nodes; the pool has a class for volumes. *)
Definition three_nodes : Host handled := {|
  uuid4_hex := λ w, ("c0ffee", (w ++ ["uuid4"])%list);
  get_all_nodes := λ _, ["node1"; "node2"; "node3"];
  get_resource_class := λ t, bool_decide (t = VStr "volume");
|}.

(** A pool configuration that names every node. *)
Definition wildcard_document : tree :=
  TDict [("meta", TDict [("name", TStr "pool1"); ("uuid", TNone);
                         ("type", TStr "filesystem");
                         ("access", TDict [("nodes", TList [TStr "*"])])]);
         ("spec", TDict [])].

(** The heap with one document, and no pool yet. *)
Definition before_init (t : tree) : state handled :=
  mk_state handled (store t []).2 VNone [] [].

(** The nodes of the pool after [__init__] on a configuration. *)
Definition nodes_after_init (t : tree) : outcome (option tree) :=
  let '(r, st) :=
    init (host := three_nodes) (store t []).1
      (before_init t) in
  match r with
  | Ok _ =>
      match attaching_nodes st with
      | (Ok v, _) => Ok (read 2 (heap st) v)
      | (Raise e, _) => Raise e
      end
  | Raise e => Raise e
  end.

(** ["*"] and the empty list stand for all nodes; a list of nodes is
    kept; without [access] the pool cannot be built. *)
Example init_runs :
  nodes_after_init wildcard_document
    = Ok (Some (TList [TStr "node1"; TStr "node2"; TStr "node3"])) ∧
  nodes_after_init
    (TDict [("meta", TDict [("access", TDict [("nodes", TList [])])])])
    = Ok (Some (TList [TStr "node1"; TStr "node2"; TStr "node3"])) ∧
  nodes_after_init pool_document
    = Ok (Some (TList [TStr "node1"; TStr "node2"])) ∧
  nodes_after_init (TDict [("meta", TDict [("access", TDict [])])])
    = Raise TypeError.
Proof. by vm_compute. Qed.

Lemma init_attaching_nodes_witness :
  let st := before_init wildcard_document in
  (pool_layout (heap st) (VRef 4) (VRef 1) 2 (Some (VRef 0)) ∧
   heap st !! 0 = Some (OList [VStr "*"]) ∧
   existsb is_ref [VStr "*"] = false) ∧
  ∃ st',
    init (host := three_nodes) (VRef 4) st
      = (Ok tt, st') ∧
    pool_config st' = VRef 4 ∧
    resources st' = [] ∧
    ∃ attaching,
      pool_layout (heap st') (VRef 4) (VRef 1) 2 (Some attaching) ∧
      attaching_nodes st' = (Ok attaching, st') ∧
      to_set attaching (heap st')
        = (Ok (if forallb is_star [VStr "*"]
               then VStr <$> get_all_nodes (Host := three_nodes) (world st')
               else [VStr "*"]),
           heap st').
Proof.
  intros st.
  assert (pool_layout (heap st) (VRef 4) (VRef 1) 2 (Some (VRef 0))) as H1.
  { eexists _, _, _. repeat split; vm_compute; reflexivity. }
  assert (heap st !! 0 = Some (OList [VStr "*"])) as H2 by reflexivity.
  assert (existsb is_ref [VStr "*"] = false) as H3 by reflexivity.
  split; [by repeat split|].
  exact (init_attaching_nodes (host := three_nodes)
           st (VRef 4) (VRef 1) 2 0 [VStr "*"] H1 H2 H3).
Defined.

(** The parameters of a pool, without and with [access]. *)
Definition bare_params : tree := TDict [("type", TStr "filesystem")].
Definition open_params : tree :=
  TDict [("type", TStr "filesystem");
         ("access", TDict [("nodes", TList [TStr "*"])])].

Lemma define_without_access_cannot_init_witness :
  let st := before_init bare_params in
  (deref (heap st) (VRef 0) = Some (ODict [("type", VStr "filesystem")]) ∧
   Dict.get "type" [("type", VStr "filesystem")]
     = Some (VStr "filesystem") ∧
   Dict.get "access" [("type", VStr "filesystem")] = None) ∧
  ∃ config st1 st2,
    on_heap (define_config "pool1" (VRef 0)) st = (Ok config, st1) ∧
    init (host := three_nodes) config st1
      = (Raise TypeError, st2).
Proof.
  intros st.
  split; [by repeat split|].
  exact (define_without_access_cannot_init (host := three_nodes) st "pool1" (VRef 0)
           [("type", VStr "filesystem")] (VStr "filesystem")
           eq_refl eq_refl eq_refl).
Defined.

Lemma define_config_shares_access_witness :
  let h := (store open_params []).2 in
  (deref h (VRef 2)
     = Some (ODict [("type", VStr "filesystem"); ("access", VRef 1)]) ∧
   Dict.get "type" [("type", VStr "filesystem"); ("access", VRef 1)]
     = Some (VStr "filesystem") ∧
   Dict.get "access" [("type", VStr "filesystem"); ("access", VRef 1)]
     = Some (VRef 1) ∧
   deref h (VRef 1) = Some (ODict [("nodes", VRef 0)])) ∧
  ∃ config new,
    define_config "pool1" (VRef 2) h = (Ok config, (h ++ new)%list) ∧
    pool_layout (h ++ new) config (VRef 1) (S (length h))
      (Dict.get "nodes" [("nodes", VRef 0)]).
Proof.
  intros h.
  split; [by repeat split|].
  exact (define_config_shares_access h "pool1" (VRef 2)
           [("type", VStr "filesystem"); ("access", VRef 1)]
           (VStr "filesystem") (VRef 1) [("nodes", VRef 0)]
           eq_refl eq_refl eq_refl eq_refl).
Defined.

(** The wildcard of the parameters is expanded in the parameters
    themselves. *)
Example shared_access_runs :
  let st := before_init open_params in
  let '(r, st1) := on_heap (define_config "pool1" (VRef 2)) st in
  match r with
  | Ok config =>
      let st2 :=
        (init (host := three_nodes) config st1).2 in
      read 4 (heap st2) (VRef 2)
        = Some (TDict [("type", TStr "filesystem");
                       ("access",
                        TDict [("nodes", TList [TStr "node1"; TStr "node2";
                                                TStr "node3"])])])
  | Raise _ => False
  end.
Proof. by vm_compute. Qed.

Lemma get_info_is_a_copy_witness :
  let st := one_volume in
  read (recursion_limit (Runtime := noting)) (heap st) (pool_config st)
    = Some pool_document ∧
  ∃ v h',
    get_info (runtime := noting) true st = (Ok v, with_heap h' st) ∧
    content h' v pool_document ∧ unaffected (heap st) h' v.
Proof.
  intros st.
  assert (read (recursion_limit (Runtime := noting)) (heap st)
            (pool_config st) = Some pool_document) as H1
    by (vm_compute; reflexivity).
  split; [done|].
  exact (get_info_is_a_copy (runtime := noting) st true pool_document H1).
Defined.

Lemma create_then_destroy_resource_object_witness :
  let st := one_volume in
  let mi := [("uuid", VStr "volume-uuid"); ("name", VStr "base");
             ("type", VStr "volume"); ("pool", VStr "pool-uuid");
             ("allocated", VBool false); ("bindings", VRef 5)] in
  (deref (heap st) (VRef 8)
     = Some (ODict [("meta", VRef 6); ("spec", VRef 7)]) ∧
   Dict.get "meta" [("meta", VRef 6); ("spec", VRef 7)] = Some (VRef 6) ∧
   heap st !! 6 = Some (ODict mi) ∧
   Dict.get "type" mi = Some (VStr "volume") ∧
   get_resource_class (Host := three_nodes) (VStr "volume") = true) ∧
  let u := (uuid4_hex (Host := three_nodes) (world st)).1 in
  (∃ st1,
     create_resource_object (host := three_nodes) (VRef 8) st
       = (Ok (VStr u), st1) ∧
     heap st1 = <[6 := ODict (Dict.set "uuid" (VStr u) mi)]> (heap st) ∧
     resources st1 = Dict.set u (mk_resource (VRef 8)) (resources st) ∧
     ∃ st2,
       destroy_resource_object u st1 = (Ok tt, st2) ∧
       (Dict.mem u (resources st) = false → resources st2 = resources st)) ∧
  (∀ resource_id,
     Dict.get resource_id (resources st) = None →
     destroy_resource_object resource_id st
       = (Raise (KeyError resource_id), st)).
Proof.
  intros st mi.
  split; [by repeat split|].
  exact (create_then_destroy_resource_object (host := three_nodes) st
           (VRef 8) [("meta", VRef 6); ("spec", VRef 7)] 6 mi (VStr "volume")
           eq_refl eq_refl eq_refl eq_refl eq_refl).
Defined.

End PoolObjectScenarios.

(** * Scenarios on the linux bridge network pool *)
Module BridgeScenarios.
Import ResourcePool LinuxBridgeNetwork PyFacts DocFacts ResourcePoolFacts.
Import LinuxBridgeNetworkFacts DocScenarios PoolScenarios.
Open Scope py_scope.

(** A bridge pool on one node, with and without an export. *)
Definition bridge_document (export : tree) : tree :=
  TDict [("meta", TDict [("name", TStr "br"); ("uuid", TStr "bridge-uuid");
                         ("type", TStr "linux_bridge");
                         ("access", TDict [("nodes", TList [TStr "node1"])])]);
         ("spec",
          TDict [("switch",
                  TDict [("node1", TDict [("ifname", TStr "br0")])]);
                 ("export", export)])].

Definition with_export : tree :=
  TDict [("node1", TDict [("ifname", TStr "eth0")])].

Definition bridge_pool (export : tree) : state handled :=
  let '(config, h) := store (bridge_document export) [] in
  mk_state handled h config [] [].

(** The stored configuration after the call, and after a second one. *)
Example customize_runs :
  let r := customize_pool_config "node1" (bridge_pool with_export) in
  r.1 = Ok (pool_config (bridge_pool with_export)) ∧
  (t ← read 4 (heap r.2) (pool_config r.2);
   ImageManagerFacts.lookup_path ["spec"] t)
    = Some (TDict [("switch", TStr "br0"); ("export", TStr "eth0")]) ∧
  (customize_pool_config "node1" r.2).1 = Raise TypeError.
Proof. by vm_compute. Qed.


Lemma customize_without_export_witness :
  let st := bridge_pool TNone in
  (ifname_of (pool_config st) "switch" "node1" (heap st)
     = (Ok (VStr "br0"), heap st) ∧
   spec_item (pool_config st) "export" (heap st) = (Ok VNone, heap st)) ∧
  ∃ h',
    customize_pool_config "node1" st = (Raise TypeError, with_heap h' st) ∧
    spec_item (pool_config st) "switch" h' = (Ok (VStr "br0"), h').
Proof.
  intros st.
  assert (ifname_of (pool_config st) "switch" "node1" (heap st)
            = (Ok (VStr "br0"), heap st)) as H1
    by (vm_compute; reflexivity).
  assert (spec_item (pool_config st) "export" (heap st)
            = (Ok VNone, heap st)) as H2 by (vm_compute; reflexivity).
  split; [by split|].
  exact (customize_without_export "node1" st (VStr "br0") H1 H2).
Defined.

End BridgeScenarios.

(** * Scenarios on the queries of the image manager *)
Module QueryScenarios.
Import ImageManager ImageManagerQuery PyFacts DocFacts ImageManagerFacts.
Import ImageManagerQueryFacts DocScenarios ManagerScenarios.
Open Scope py_scope.

(** An image configuration by its uuid, name and owner. *)
Definition owned (uuid image_name : string) (owner : tree) : tree :=
  TDict [("meta", TDict [("uuid", TStr uuid); ("name", TStr image_name);
                         ("type", TStr "qemu"); ("owner", owner)]);
         ("spec", TDict [("images", TDict [])])].

(** Three images: two named "image1", of which the second belongs to
    "vm2", and one named "stg". *)
Definition three_images : state :=
  let '(c1, h1) := store (owned "id1" "image1" (TStr "vm1")) [] in
  let '(c2, h2) := store (owned "id2" "stg" TNone) h1 in
  let '(c3, h3) := store (owned "id3" "image1" (TStr "vm2")) h2 in
  mk_state h3 [("id1", mk_vir_image c1 []); ("id2", mk_vir_image c2 []);
               ("id3", mk_vir_image c3 [])].

Example query_image_runs :
  (query_image "image1" None three_images).1 = Ok (Some "id1") ∧
  (query_image "image1" (Some "") three_images).1 = Ok (Some "id1") ∧
  (query_image "image1" (Some "vm2") three_images).1 = Ok (Some "id3") ∧
  (query_image "stg" (Some "vm1") three_images).1 = Ok None ∧
  (query_image "image2" None three_images).1 = Ok None.
Proof. by vm_compute. Qed.

Lemma query_image_first_match_witness :
  let st := three_images in
  query_image "image1" (Some "vm2") st = (Ok (Some "id3"), st) ∧
  st = st ∧
  ∃ before image after,
    registry st = (before ++ ("id3", image) :: after)%list ∧
    image_matches "image1" (Some "vm2") image (heap st)
      = (Ok true, heap st) ∧
    Forall (λ x, image_matches "image1" (Some "vm2") x.2 (heap st)
                   = (Ok false, heap st)) before.
Proof.
  intros st.
  assert (query_image "image1" (Some "vm2") st = (Ok (Some "id3"), st))
    as H1 by (vm_compute; reflexivity).
  split; [done|].
  exact (query_image_first_match st "image1" (Some "vm2") (Some "id3") st
           H1).
Defined.

Lemma get_image_info_path_witness :
  let st := one_image in
  let image := mk_vir_image (VRef 11) [] in
  let t' := TDict [("format", TStr "qcow2")] in
  (Dict.get "uuid-sn" (registry st) = Some image ∧
   read (recursion_limit (Runtime := copying)) (heap st) (image_config image)
     = Some image_document ∧
   lookup_path (split_on "." "spec.images.sn.spec") image_document
     = Some t') ∧
  ∃ v h',
    get_image_info (runtime := copying) "uuid-sn"
      (Some "spec.images.sn.spec") false st
      = (Ok v, mk_state h' (registry st)) ∧
    content h' v
      (TDict [(default "" (last (split_on "." "spec.images.sn.spec")), t')]).
Proof.
  intros st image t'.
  assert (Dict.get "uuid-sn" (registry st) = Some image) as H1
    by (vm_compute; reflexivity).
  assert (read (recursion_limit (Runtime := copying)) (heap st)
            (image_config image) = Some image_document) as H2
    by (vm_compute; reflexivity).
  assert (lookup_path (split_on "." "spec.images.sn.spec") image_document
            = Some t') as H3 by (vm_compute; reflexivity).
  split; [by repeat split|].
  exact (get_image_info_path (runtime := copying) st "uuid-sn" image
           image_document "spec.images.sn.spec" t' H1 H2 H3).
Defined.

End QueryScenarios.

(** * Properties of file volumes *)
Module FileVolumeFacts.
Import FileVolume PyFacts DocFacts ResourcePoolFacts QemuVirImageFacts.
Import ResourcePoolObjectsFacts.
Open Scope py_scope.

Lemma read_str_inv n h v s : read n h v = Some (TStr s) → v = VStr s.
Proof.
  destruct n as [|n]; destruct v as [| | | |l]; simpl; try done.
  - by intros [= ->].
  - by intros [= ->].
  - destruct (h !! l) as [o|]; simpl; [|done].
    destruct (mapM _ _); simpl; [|done]. by destruct o.
Qed.

(** The value under a key of a document that is a dictionary. *)
Lemma read_child n h v items k t :
  read n h v = Some (TDict items) →
  Dict.get k items = Some t →
  ∃ l oitems x n',
    v = VRef l ∧ h !! l = Some (ODict oitems) ∧
    Dict.get k oitems = Some x ∧ read n' h x = Some t.
Proof.
  intros (l & n' & oitems & ts & -> & -> & Ho & Hts & ->)%read_dict_inv Hk.
  rewrite (dict_get_zip _ _ _ _ Hts) in Hk.
  destruct (Dict.get k oitems) as [x|] eqn:Hx; [|done].
  exists l, oitems, x, n'. done.
Qed.

Lemma update_ok h l items entries :
  h !! l = Some (ODict items) →
  update (VRef l) entries h
    = (Ok tt,
       <[l := ODict (foldl (λ d e, Dict.set e.1 e.2 d) items entries)]> h).
Proof. intros Hl. unfold update. simpl. by rewrite Hl. Qed.

Lemma dict_get_foldl_set_ne (entries : dict value) : ∀ (items : dict value) key,
  key ∉ entries.*1 →
  Dict.get key (foldl (λ d e, Dict.set e.1 e.2 d) items entries)
    = Dict.get key items.
Proof.
  induction entries as [|[k x] entries IH]; intros items key Hkey; [done|].
  rewrite fmap_cons in Hkey. apply not_elem_of_cons in Hkey as [Hne Hkey].
  simpl. rewrite IH by done. by apply dict_get_set_ne.
Qed.

(** A dictionary elsewhere reads the same after an update, but for the
    keys of the update when it is the updated one. *)
Lemma deref_update h l d entries v items :
  h !! l = Some (ODict d) →
  deref h v = Some (ODict items) →
  ∃ items',
    deref (<[l := ODict (foldl (λ d e, Dict.set e.1 e.2 d) d entries)]> h) v
      = Some (ODict items') ∧
    ∀ key, key ∉ entries.*1 → Dict.get key items' = Dict.get key items.
Proof.
  intros Hl Hv. destruct v as [| | | |l']; try discriminate. simpl in *.
  destruct (decide (l' = l)) as [->|Hne].
  - eexists. split.
    + apply list_lookup_insert_eq. by eapply lookup_lt_Some.
    + intros key Hkey. rewrite Hl in Hv. injection Hv as <-.
      by apply dict_get_foldl_set_ne.
  - exists items. split; [|done]. by rewrite list_lookup_insert_ne.
Qed.

Section facts.
Context {World : Type} {runtime : Runtime World} {text : Text World}.
Implicit Types (st : state World).

Ltac on_heap_step H :=
  match goal with
  | |- context [bind (on_heap _) _ ?s] =>
      rewrite (pool_on_heap_ok _ _ s _ _ H)
  end;
  cbn [with_heap heap pool_config resources world].

(** [define_config_from_self] makes the configuration of a clone on new
    objects: every stored document reads as before. The new
    configuration has no uri, allocation 0, the given pool, is not
    allocated and has a new empty [bindings]; its name and its file name
    are those of the source with one and the same random postfix. *)
Theorem define_config_from_self_resets st (r : resource) pool_id items
    spec_t meta_t filename resource_name :
  read recursion_limit (heap st) (resource_config r) = Some (TDict items) →
  Dict.get "spec" items = Some (TDict spec_t) →
  Dict.get "filename" spec_t = Some (TStr filename) →
  Dict.get "meta" items = Some (TDict meta_t) →
  Dict.get "name" meta_t = Some (TStr resource_name) →
  let postfix := (generate_random_string (world st) 8).1 in
  ∃ config new spec meta bindings,
    let h' := (heap st ++ new)%list in
    define_config_from_self r pool_id st
      = (Ok config,
         mk_state World h' (pool_config st) (resources st)
           (generate_random_string (world st) 8).2) ∧
    (∀ n v0 t0, read n (heap st) v0 = Some t0 → read n h' v0 = Some t0) ∧
    getitem config "spec" h' = (Ok spec, h') ∧
    getitem spec "uri" h' = (Ok VNone, h') ∧
    getitem spec "filename" h'
      = (Ok (VStr (filename +:+ "_" +:+ postfix)), h') ∧
    getitem spec "allocation" h' = (Ok (VInt 0), h') ∧
    getitem config "meta" h' = (Ok meta, h') ∧
    getitem meta "name" h'
      = (Ok (VStr (resource_name +:+ "_" +:+ postfix)), h') ∧
    getitem meta "pool" h' = (Ok pool_id, h') ∧
    getitem meta "allocated" h' = (Ok (VBool false), h') ∧
    getitem meta "bindings" h' = (Ok bindings, h') ∧
    deref h' bindings = Some (ODict []) ∧
    fresh_value (length (heap st)) bindings.
Proof.
  intros Hread Hspec Hfile Hmeta Hname postfix.
  destruct (deepcopy_m_ok _ _ _ _ Hread) as (config & new1 & Hcopy & Hc).
  pose proof (copied_fresh_region _ _ _ _ _ Hc) as Hreg.
  pose proof (copied_read _ _ _ _ _ Hc) as Hr.
  set (h := heap st) in *. set (h1 := (h ++ new1)%list) in *.
  destruct (read_child _ _ _ _ _ _ Hr Hspec)
    as (l1 & oitems & vs & n1 & -> & Ho & Hvs & Hrs).
  destruct (read_child _ _ _ _ _ _ Hrs Hfile)
    as (ls & sitems & vf & n2 & -> & Hs & Hvf & Hrf).
  apply read_str_inv in Hrf as ->.
  destruct (read_child _ _ _ _ _ _ Hr Hmeta)
    as (l1' & oitems' & vm & n3 & [= <-] & Ho' & Hvm & Hrm).
  rewrite Ho in Ho'. injection Ho' as <-.
  destruct (read_child _ _ _ _ _ _ Hrm Hname)
    as (lm & mitems & vn & n4 & -> & Hm & Hvn & Hrn).
  apply read_str_inv in Hrn as ->.
  (* where the objects of the copy are *)
  assert (length h ≤ l1) as Hl1 by (by apply (copied_value _ _ _ _ _ Hc)).
  assert (length h ≤ ls) as Hls.
  { pose proof (Hreg l1 _ Hl1 Ho) as Hall. rewrite Forall_forall in Hall.
    apply (Hall (VRef ls)); [|done]. by eapply dict_get_values. }
  assert (length h ≤ lm) as Hlm.
  { pose proof (Hreg l1 _ Hl1 Ho) as Hall. rewrite Forall_forall in Hall.
    apply (Hall (VRef lm)); [|done]. by eapply dict_get_values. }
  destruct (generate_random_string (world st) 8) as [pf w] eqn:Hrand.
  simpl in postfix. subst postfix.
  set (E1 := [("uri", VNone); ("filename", VStr (filename +:+ "_" +:+ pf));
              ("allocation", VInt 0)]).
  set (s2 := foldl (λ d e, Dict.set e.1 e.2 d) sitems E1).
  set (h2 := <[ls := ODict s2]> h1).
  set (h3 := (h2 ++ [ODict []])%list).
  set (E2 := [("name", VStr (resource_name +:+ "_" +:+ pf));
              ("pool", pool_id); ("allocated", VBool false);
              ("bindings", VRef (length h2))]).
  (* the heap after the first update *)
  destruct (deref_update h1 ls sitems E1 (VRef l1) _ Hs Ho)
    as (o2 & Ho2 & Eo2). fold s2 h2 in Ho2.
  destruct (deref_update h1 ls sitems E1 (VRef lm) _ Hs Hm)
    as (m2 & Hm2 & Em2). fold s2 h2 in Hm2.
  assert (h2 !! ls = Some (ODict s2)) as Hs2.
  { apply list_lookup_insert_eq. by eapply lookup_lt_Some. }
  assert (Dict.get "meta" o2 = Some (VRef lm)) as Hvm2.
  { rewrite Eo2; [done|]. subst E1. cbn [fmap list_fmap fst].
    repeat (apply not_elem_of_cons; split; [done|]). apply not_elem_of_nil. }
  (* the heap after the allocation and the second update *)
  assert (h3 !! lm = Some (ODict m2)) as Hm3
    by (by apply lookup_app_l_Some).
  set (m4 := foldl (λ d e, Dict.set e.1 e.2 d) m2 E2).
  set (h4 := <[lm := ODict m4]> h3).
  destruct (deref_update h3 lm m2 E2 (VRef l1) o2 Hm3)
    as (o4 & Ho4 & Eo4); [by apply lookup_app_l_Some|].
  fold m4 h4 in Ho4.
  destruct (deref_update h3 lm m2 E2 (VRef ls) s2 Hm3)
    as (s4 & Hs4 & Es4); [by apply lookup_app_l_Some|].
  fold m4 h4 in Hs4.
  assert (h4 !! lm = Some (ODict m4)) as Hm4.
  { apply list_lookup_insert_eq. by eapply lookup_lt_Some. }
  assert (length h2 = length h1) as Hlen2 by apply length_insert.
  assert (h4 !! length h2 = Some (ODict [])) as Hb4.
  { unfold h4. rewrite list_lookup_insert_ne.
    - unfold h3. by rewrite lookup_app_r, Nat.sub_diag.
    - apply lookup_lt_Some in Hm2. simpl in Hm2. lia. }
  assert (∃ new, h4 = (h ++ new)%list) as [new Hnew].
  { exists (<[lm - length h := ODict m4]>
              (<[ls - length h := ODict s2]> new1 ++ [ODict []])).
    unfold h4, h3, h2, h1.
    rewrite (insert_app_r_alt h new1) by done.
    rewrite <- app_assoc. by rewrite insert_app_r_alt. }
  assert (∀ key, key ∉ E2.*1 → key ∉ E1.*1 →
            Dict.get key o4 = Dict.get key oitems) as Eo.
  { intros key H2 H1. by rewrite Eo4, Eo2. }
  assert (∀ key : string,
            key ≠ "name" → key ≠ "pool" → key ≠ "allocated" →
            key ≠ "bindings" → key ∉ E2.*1) as HE2.
  { intros key ? ? ? ?. subst E2. cbn [fmap list_fmap fst].
    repeat (apply not_elem_of_cons; split; [done|]). apply not_elem_of_nil. }
  assert (∀ key : string,
            key ≠ "uri" → key ≠ "filename" → key ≠ "allocation" →
            key ∉ E1.*1) as HE1.
  { intros key ? ? ?. subst E1. cbn [fmap list_fmap fst].
    repeat (apply not_elem_of_cons; split; [done|]). apply not_elem_of_nil. }
  exists (VRef l1), new, (VRef ls), (VRef lm), (VRef (length h2)).
  cbv zeta. rewrite <- Hnew.
  split; [|split; [|repeat split]].
  - (* the run *)
    unfold define_config_from_self.
    on_heap_step Hcopy. fold h h1.
    on_heap_step (getitem_ok _ (VRef l1) _ _ _ Ho Hvs).
    on_heap_step (getitem_ok _ (VRef ls) _ _ _ Hs Hvf).
    on_heap_step (getitem_ok _ (VRef l1) _ _ _ Ho Hvm).
    on_heap_step (getitem_ok _ (VRef lm) _ _ _ Hm Hvn).
    unfold bind at 1, random_string.
    cbn [with_heap heap pool_config resources world]. rewrite Hrand.
    on_heap_step (getitem_ok _ (VRef l1) _ _ _ Ho Hvs).
    rewrite run_bind_get_state.
    cbn [with_heap heap pool_config resources world suffixed].
    on_heap_step (update_ok _ _ _ E1 Hs). fold s2 h2.
    on_heap_step (getitem_ok _ (VRef l1) _ _ _ Ho2 Hvm2).
    rewrite run_bind_get_state.
    cbn [with_heap heap pool_config resources world suffixed].
    unfold bind at 1, on_heap at 1, alloc.
    cbn [with_heap heap pool_config resources world]. fold h3.
    on_heap_step (update_ok _ _ _ E2 Hm3). fold m4 h4.
    done.
  - intros n v0 t0 Hv0. rewrite Hnew. by apply read_app.
  - apply (getitem_ok _ _ _ _ _ Ho4). by rewrite Eo; auto.
  - apply (getitem_ok _ _ _ _ _ Hs4). rewrite Es4 by auto.
    subst s2 E1. cbn [foldl fst snd].
    rewrite 2!dict_get_set_ne by done. apply dict_get_set_eq.
  - apply (getitem_ok _ _ _ _ _ Hs4). rewrite Es4 by auto.
    subst s2 E1. cbn [foldl fst snd].
    rewrite dict_get_set_ne by done. apply dict_get_set_eq.
  - apply (getitem_ok _ _ _ _ _ Hs4). rewrite Es4 by auto.
    subst s2 E1. cbn [foldl fst snd]. apply dict_get_set_eq.
  - apply (getitem_ok _ _ _ _ _ Ho4). by rewrite Eo; auto.
  - apply (getitem_ok _ (VRef lm) _ _ _ Hm4).
    subst m4 E2. cbn [foldl fst snd].
    rewrite 3!dict_get_set_ne by done. apply dict_get_set_eq.
  - apply (getitem_ok _ (VRef lm) _ _ _ Hm4).
    subst m4 E2. cbn [foldl fst snd].
    rewrite 2!dict_get_set_ne by done. apply dict_get_set_eq.
  - apply (getitem_ok _ (VRef lm) _ _ _ Hm4).
    subst m4 E2. cbn [foldl fst snd].
    rewrite dict_get_set_ne by done. apply dict_get_set_eq.
  - apply (getitem_ok _ (VRef lm) _ _ _ Hm4).
    subst m4 E2. cbn [foldl fst snd]. apply dict_get_set_eq.
  - done.
  - intros l [= <-]. rewrite Hlen2. unfold h1. rewrite length_app. lia.
Qed.

End facts.
End FileVolumeFacts.

(** * Scenarios on file volumes *)
Module FileVolumeScenarios.
Import ResourcePool FileVolume PyFacts DocFacts ResourcePoolFacts.
Import FileVolumeFacts DocScenarios PoolScenarios.
Open Scope py_scope.

(** The random string is always the same and is noted in the world. *)
Definition fixed_text : Text handled := {|
  generate_random_string := λ w _, ("a1b2c3d4", (w ++ ["random"])%list);
  str_other := λ _ _, "";
|}.

(** The configuration of an allocated file volume bound to node1. *)
Definition file_volume_document : tree :=
  TDict [("meta", TDict [("uuid", TStr "volume-uuid"); ("name", TStr "base");
                         ("type", TStr "volume"); ("pool", TStr "pool-uuid");
                         ("allocated", TBool true);
                         ("bindings", TDict [("node1", TStr "backing-1")])]);
         ("spec", TDict [("size", TInt 10737418240);
                         ("allocation", TInt 196608);
                         ("uri", TStr "/images/base.qcow2");
                         ("filename", TStr "base.qcow2")])].

Definition file_volume : state handled :=
  let '(config, h) := store file_volume_document [] in
  mk_state handled h VNone [("volume-uuid", mk_resource config)] [].

Definition the_volume : resource :=
  mk_resource (store file_volume_document []).1.

(** The configuration of the clone in the pool "pool2". *)
Example define_config_from_self_runs :
  let r :=
    define_config_from_self (runtime := noting) (text := fixed_text)
      the_volume (VStr "pool2") file_volume in
  match r.1 with
  | Ok v =>
      read 3 (heap r.2) v
        = Some (TDict
            [("meta", TDict [("uuid", TStr "volume-uuid");
                             ("name", TStr "base_a1b2c3d4");
                             ("type", TStr "volume"); ("pool", TStr "pool2");
                             ("allocated", TBool false);
                             ("bindings", TDict [])]);
             ("spec", TDict [("size", TInt 10737418240);
                             ("allocation", TInt 0);
                             ("uri", TNone);
                             ("filename", TStr "base.qcow2_a1b2c3d4")])]) ∧
      read 3 (heap r.2) (resource_config the_volume)
        = Some file_volume_document
  | Raise _ => False
  end.
Proof. by vm_compute. Qed.

Lemma define_config_from_self_resets_witness :
  let st := file_volume in
  let items :=
    match file_volume_document with TDict items => items | _ => [] end in
  let spec_t :=
    match Dict.get "spec" items with Some (TDict d) => d | _ => [] end in
  let meta_t :=
    match Dict.get "meta" items with Some (TDict d) => d | _ => [] end in
  (read (recursion_limit (Runtime := noting)) (heap st)
     (resource_config the_volume) = Some (TDict items) ∧
   Dict.get "spec" items = Some (TDict spec_t) ∧
   Dict.get "filename" spec_t = Some (TStr "base.qcow2") ∧
   Dict.get "meta" items = Some (TDict meta_t) ∧
   Dict.get "name" meta_t = Some (TStr "base")) ∧
  let postfix :=
    (generate_random_string (Text := fixed_text) (world st) 8).1 in
  ∃ config new spec meta bindings,
    let h' := (heap st ++ new)%list in
    define_config_from_self (runtime := noting) (text := fixed_text)
      the_volume (VStr "pool2") st
      = (Ok config,
         mk_state handled h' (pool_config st) (resources st)
           (generate_random_string (Text := fixed_text) (world st) 8).2) ∧
    (∀ n v0 t0, read n (heap st) v0 = Some t0 → read n h' v0 = Some t0) ∧
    getitem config "spec" h' = (Ok spec, h') ∧
    getitem spec "uri" h' = (Ok VNone, h') ∧
    getitem spec "filename" h'
      = (Ok (VStr ("base.qcow2" +:+ "_" +:+ postfix)), h') ∧
    getitem spec "allocation" h' = (Ok (VInt 0), h') ∧
    getitem config "meta" h' = (Ok meta, h') ∧
    getitem meta "name" h' = (Ok (VStr ("base" +:+ "_" +:+ postfix)), h') ∧
    getitem meta "pool" h' = (Ok (VStr "pool2"), h') ∧
    getitem meta "allocated" h' = (Ok (VBool false), h') ∧
    getitem meta "bindings" h' = (Ok bindings, h') ∧
    deref h' bindings = Some (ODict []) ∧
    fresh_value (length (heap st)) bindings.
Proof.
  intros st items spec_t meta_t.
  assert (read (recursion_limit (Runtime := noting)) (heap st)
            (resource_config the_volume) = Some (TDict items)) as H1
    by (vm_compute; reflexivity).
  assert (Dict.get "spec" items = Some (TDict spec_t)) as H2
    by (vm_compute; reflexivity).
  assert (Dict.get "filename" spec_t = Some (TStr "base.qcow2")) as H3
    by (vm_compute; reflexivity).
  assert (Dict.get "meta" items = Some (TDict meta_t)) as H4
    by (vm_compute; reflexivity).
  assert (Dict.get "name" meta_t = Some (TStr "base")) as H5
    by (vm_compute; reflexivity).
  split; [exact (conj H1 (conj H2 (conj H3 (conj H4 H5))))|].
  exact (define_config_from_self_resets (runtime := noting)
           (text := fixed_text) st the_volume (VStr "pool2") items spec_t
           meta_t "base.qcow2" "base" H1 H2 H3 H4 H5).
Defined.

End FileVolumeScenarios.
